(** * Color: hex / rgb / hsl codecs and the Color value object

    A shallow embedding of the TypeScript library (helpers/Round.ts,
    helpers/DefaultAlpha.ts, errors/ColorError.ts, formats/Hex.ts,
    formats/RedGreenBlue.ts, formats/HueSaturationLightness.ts, index.ts).

    Modelling conventions.
    - A JavaScript [number] is [NaN], a signed [Infinity], or a finite value
      carried as an exact rational kept in lowest terms; the sign of zero is
      not represented.
    - The codecs are modelled with exact arithmetic on these values.  Binary
      rounding error is not represented there, so a value computed from
      arbitrary input can differ from the code's in its last unit (a hue or
      a channel by one, a printed percentage in its last digits).  What is
      stated of the codecs are ranges, shapes, error kinds and relations
      between the representations, on the integers and hundredths they
      store.
    - The helper [round] is given a second time in double precision (module
      [Double]: binary64, round to nearest even); what is stated of [round]
      on arbitrary numbers is stated there.
    - An optional parameter [alpha?: number] is an [option number];
      [undefined] is [None].
    - [throw] is the [Throw] constructor of [result]; the static factories of
      [ColorError] are the constructors of the error type.
    - Strings are [string]s of 8-bit characters (ASCII input).
    - The private fields of a [Color] instance are a record; methods that
      assign to [this] run in a state-and-exception monad over that record. *)

From Stdlib Require Import ZArith QArith Qabs Qround Qreduction Qpower.
From Stdlib Require Import String Ascii List Bool Lia Lqa.
Import ListNotations.

Local Open Scope string_scope.
Local Open Scope Z_scope.

(** ** JavaScript numbers *)

Module JS.

Inductive number : Type :=
| NaN
| Infinity (negative : bool)
| Fin (q : Q).

Definition fin (q : Q) : number := Fin (Qred q).

Definition ofZ (z : Z) : number := Fin (inject_Z z).

Definition Qneg (q : Q) : bool := Qnum q <? 0.
Definition Qzero (q : Q) : bool := Qnum q =? 0.

Definition isNaN (a : number) : bool :=
  match a with NaN => true | _ => false end.

(** Truthiness of a number: [0] and [NaN] are falsy. *)
Definition truthy (a : number) : bool :=
  match a with
  | NaN => false
  | Infinity _ => true
  | Fin q => negb (Qzero q)
  end.

Definition neg (a : number) : number :=
  match a with
  | NaN => NaN
  | Infinity s => Infinity (negb s)
  | Fin x => fin (- x)
  end.

Definition add (a b : number) : number :=
  match a, b with
  | NaN, _ | _, NaN => NaN
  | Infinity s, Infinity t => if Bool.eqb s t then Infinity s else NaN
  | Infinity s, Fin _ => Infinity s
  | Fin _, Infinity t => Infinity t
  | Fin x, Fin y => fin (x + y)
  end.

Definition sub (a b : number) : number := add a (neg b).

Definition mul (a b : number) : number :=
  match a, b with
  | NaN, _ | _, NaN => NaN
  | Infinity s, Infinity t => Infinity (xorb s t)
  | Infinity s, Fin y => if Qzero y then NaN else Infinity (xorb s (Qneg y))
  | Fin x, Infinity t => if Qzero x then NaN else Infinity (xorb (Qneg x) t)
  | Fin x, Fin y => fin (x * y)
  end.

Definition div (a b : number) : number :=
  match a, b with
  | NaN, _ | _, NaN => NaN
  | Infinity _, Infinity _ => NaN
  | Infinity s, Fin y => Infinity (xorb s (Qneg y))
  | Fin _, Infinity _ => fin 0
  | Fin x, Fin y =>
      if Qzero y then (if Qzero x then NaN else Infinity (Qneg x))
      else fin (x / y)
  end.

(** [a % b]: the remainder takes the sign of the dividend. *)
Definition rem (a b : number) : number :=
  match a, b with
  | Fin x, Fin y =>
      if Qzero y then NaN
      else
        let t := Qnum (x / y) ÷ Zpos (Qden (x / y)) in
        fin (x - y * inject_Z t)
  | Fin x, Infinity _ => Fin x
  | _, _ => NaN
  end.

Definition pow (a : number) (n : nat) : number :=
  Nat.iter n (fun r => mul r a) (Fin 1).

Definition ltb (a b : number) : bool :=
  match a, b with
  | NaN, _ | _, NaN => false
  | Infinity s, Infinity t => s && negb t
  | Infinity s, Fin _ => s
  | Fin _, Infinity t => negb t
  | Fin x, Fin y => negb (Qle_bool y x)
  end.

Definition gtb (a b : number) : bool := ltb b a.

Definition leb (a b : number) : bool :=
  match a, b with
  | NaN, _ | _, NaN => false
  | Infinity s, Infinity t => s || negb t
  | Infinity s, Fin _ => s
  | Fin _, Infinity t => negb t
  | Fin x, Fin y => Qle_bool x y
  end.

Definition geb (a b : number) : bool := leb b a.

(** Strict equality [a === b] on numbers. *)
Definition eqb (a b : number) : bool :=
  match a, b with
  | Infinity s, Infinity t => Bool.eqb s t
  | Fin x, Fin y => Qeq_bool x y
  | _, _ => false
  end.

Module Math.

Definition abs (a : number) : number :=
  match a with
  | NaN => NaN
  | Infinity _ => Infinity false
  | Fin x => fin (Qabs x)
  end.

(** [Math.round]: the nearest integer, a tie going toward +Infinity. *)
Definition round (a : number) : number :=
  match a with
  | Fin x => fin (inject_Z (Qfloor (x + (1 # 2))))
  | other => other
  end.

Definition max2 (a b : number) : number :=
  match a, b with
  | NaN, _ | _, NaN => NaN
  | _, _ => if ltb a b then b else a
  end.

Definition min2 (a b : number) : number :=
  match a, b with
  | NaN, _ | _, NaN => NaN
  | _, _ => if ltb b a then b else a
  end.

Definition max (a b c : number) : number := max2 (max2 a b) c.
Definition min (a b c : number) : number := min2 (min2 a b) c.

End Math.

End JS.

Import JS.

Declare Scope js_scope.
Delimit Scope js_scope with js.
Bind Scope js_scope with number.
Infix "+" := JS.add : js_scope.
Infix "-" := JS.sub : js_scope.
Infix "*" := JS.mul : js_scope.
Infix "/" := JS.div : js_scope.
Infix "%%" := JS.rem (at level 40, left associativity) : js_scope.
Infix "**" := JS.pow (at level 30, right associativity) : js_scope.
Infix "<" := JS.ltb : js_scope.
Infix ">" := JS.gtb : js_scope.
Infix "<=" := JS.leb : js_scope.
Infix ">=" := JS.geb : js_scope.
Infix "===" := JS.eqb (at level 70, no associativity) : js_scope.

(** ** helpers/Round.ts

    In exact arithmetic, as the codecs below use it. *)

Definition round (number : number) (decimals : nat) : JS.number :=
  let offset := (ofZ 10 ** decimals)%js in
  (Math.round (number * offset) / offset)%js.

(** The second copy of the helper: [decimals ? 10 ** decimals : 1]. *)
Definition round_guarded (number : number) (decimals : nat) : JS.number :=
  let offset := match decimals with O => ofZ 1 | _ => (ofZ 10 ** decimals)%js end in
  (Math.round (number * offset) / offset)%js.

(** ** helpers/Round.ts in double precision

    The binary64 reading of the same helper.  [rn] rounds a rational to the
    nearest double, a tie going to the even significand, with gradual
    underflow and overflow to an infinity; every arithmetic operation is the
    exact one followed by [rn].  [Math.round] needs no rounding of its own:
    the nearest integer to a double is a double.  The sign of zero is not
    represented. *)

Module Double.

(** [2 ^ e], for any integer exponent. *)
Definition pow2 (e : Z) : Q := (2 ^ e)%Q.

(** The binade of a non-zero rational: the [l] with [2^l <= |q| < 2^(l+1)]. *)
Definition ilog2 (q : Q) : Z :=
  let l := Z.log2 (Z.abs (Qnum q)) - Z.log2 (Zpos (Qden q)) in
  if Qle_bool (pow2 l) (Qabs q) then l else l - 1.

(** The nearest integer, a tie going to the even one. *)
Definition nearest_even (q : Q) : Z :=
  let f := Qfloor q in
  match (q - inject_Z f ?= 1 # 2)%Q with
  | Lt => f
  | Gt => f + 1
  | Eq => if Z.even f then f else f + 1
  end.

(** Round to nearest in binary64: 53 significant bits, least exponent
    [-1074], overflow from [2^1024] on. *)
Definition rn (q : Q) : number :=
  if Qzero q then Fin 0
  else
    let e := Z.max (ilog2 q - 52) (-1074) in
    let v := (inject_Z (nearest_even (q / pow2 e)) * pow2 e)%Q in
    if Qle_bool (pow2 1024) (Qabs v) then Infinity (Qneg q) else fin v.

Definition rounded (a : number) : number :=
  match a with Fin q => rn q | other => other end.

Definition mul (a b : number) : number := rounded (a * b)%js.
Definition div (a b : number) : number := rounded (a / b)%js.

(** [a ** n], correctly rounded.  [10 ** d] is itself a double up to
    [d = 22]. *)
Definition pow (a : number) (n : nat) : number := rounded (a ** n)%js.

Definition round (number : number) (decimals : nat) : JS.number :=
  let offset := pow (ofZ 10) decimals in
  div (Math.round (mul number offset)) offset.

(** The second copy of the helper: [decimals ? 10 ** decimals : 1]. *)
Definition round_guarded (number : number) (decimals : nat) : JS.number :=
  let offset := match decimals with O => ofZ 1 | _ => pow (ofZ 10) decimals end in
  div (Math.round (mul number offset)) offset.

End Double.

(** ** helpers/DefaultAlpha.ts *)

Definition defaultAlpha (alpha : option number) : number :=
  match alpha with
  | Some a => round a 2
  | None => ofZ 1
  end.

(** ** Strings: the built-ins the library calls *)

Module Str.

Definition dquote : string := String (ascii_of_nat 34) "".

(** [s[i]] *)
Definition at_ (s : string) (i : nat) : option ascii := String.get i s.

(** A character read by index, interpolated into a template literal. *)
Definition show (c : option ascii) : string :=
  match c with
  | Some c => String c ""
  | None => "undefined"
  end.

Definition upper_char (c : ascii) : ascii :=
  let n := nat_of_ascii c in
  if (97 <=? n)%nat && (n <=? 122)%nat then ascii_of_nat (n - 32) else c.

Fixpoint toUpperCase (s : string) : string :=
  match s with
  | "" => ""
  | String c s' => String (upper_char c) (toUpperCase s')
  end.

Fixpoint repeat (c : ascii) (n : nat) : string :=
  match n with
  | O => ""
  | S n' => String c (repeat c n')
  end.

(** [s.padStart(n, fill)] for a one-character [fill]. *)
Definition padStart (n : nat) (fill : ascii) (s : string) : string :=
  repeat fill (n - String.length s) ++ s.

Definition includes (s sub : string) : bool :=
  match String.index 0 sub s with
  | Some _ => true
  | None => false
  end.

Definition join (l : list string) : string :=
  fold_right String.append "" l.

Definition is_digit (c : ascii) : bool :=
  let n := nat_of_ascii c in (48 <=? n)%nat && (n <=? 57)%nat.

(** [[A-Fa-f0-9]] *)
Definition is_hex (c : ascii) : bool :=
  let n := nat_of_ascii c in
  ((48 <=? n)%nat && (n <=? 57)%nat)
  || ((65 <=? n)%nat && (n <=? 70)%nat)
  || ((97 <=? n)%nat && (n <=? 102)%nat).

(** [\s] on 8-bit characters: tab, LF, VT, FF, CR, space, no-break space. *)
Definition is_space (c : ascii) : bool :=
  let n := nat_of_ascii c in
  ((9 <=? n)%nat && (n <=? 13)%nat) || (n =? 32)%nat || (n =? 160)%nat.

End Str.

(** ** Numbers to and from strings *)

Module Num.

Definition digit_char (d : Z) : ascii :=
  ascii_of_nat (Z.to_nat (if d <? 10 then 48 + d else 87 + d)).

Fixpoint int_digits (fuel : nat) (radix n : Z) (acc : string) : string :=
  match fuel with
  | O => acc
  | S f =>
      let acc' := String (digit_char (n mod radix)) acc in
      if n / radix =? 0 then acc' else int_digits f radix (n / radix) acc'
  end.

Definition int_toString (radix n : Z) : string :=
  int_digits (S (Z.to_nat (Z.log2 n))) radix n "".

Fixpoint frac_digits (fuel : nat) (radix num den : Z) : string :=
  match fuel with
  | O => ""
  | S f =>
      if num =? 0 then ""
      else String (digit_char (num * radix / den))
                  (frac_digits f radix ((num * radix) mod den) den)
  end.

(** [a.toString(radix)], also the conversion a template literal applies
    (radix 10).  Fractions are printed digit by digit, exactly when the
    expansion ends within twenty digits; exponent notation is not modelled.
    These are the digits of the exact value: they are the digits the code
    prints for integers and for hundredths. *)
Definition toString (radix : Z) (a : number) : string :=
  match a with
  | NaN => "NaN"
  | Infinity false => "Infinity"
  | Infinity true => "-Infinity"
  | Fin q =>
      let n := Z.abs (Qnum q) in
      let d := Zpos (Qden q) in
      let frac := frac_digits 20 radix (n mod d) d in
      (if Qnum q <? 0 then "-" else "")
        ++ int_toString radix (n / d)
        ++ (match frac with "" => "" | _ => "." ++ frac end)
  end.

Definition show (a : number) : string := toString 10 a.

Definition hex_value (c : ascii) : option Z :=
  let n := Z.of_nat (nat_of_ascii c) in
  if (48 <=? n) && (n <=? 57) then Some (n - 48)
  else if (65 <=? n) && (n <=? 70) then Some (n - 55)
  else if (97 <=? n) && (n <=? 102) then Some (n - 87)
  else None.

Fixpoint hex_prefix (acc : option Z) (s : string) : option Z :=
  match s with
  | "" => acc
  | String c s' =>
      match hex_value c with
      | Some d =>
          hex_prefix (Some (16 * match acc with Some a => a | None => 0 end + d)) s'
      | None => acc
      end
  end.

(** [parseInt(s, 16)] on a string that starts with its digits: the value of
    the longest prefix of hexadecimal digits, [NaN] when there is none. *)
Definition parseInt16 (s : string) : number :=
  match hex_prefix None s with
  | Some n => ofZ n
  | None => NaN
  end.

Fixpoint span_digits (s : string) : string * string :=
  match s with
  | "" => ("", "")
  | String c s' =>
      if Str.is_digit c
      then let (d, r) := span_digits s' in (String c d, r)
      else ("", s)
  end.

Fixpoint dec_value (acc : Z) (s : string) : Z :=
  match s with
  | "" => acc
  | String c s' => dec_value (10 * acc + (Z.of_nat (nat_of_ascii c) - 48)) s'
  end.

(** [Number(s)] for an unsigned decimal literal [digits], [digits.digits],
    [digits.] or [.digits]; the empty string is [0]; every other string is
    [NaN] (signs, exponents and surrounding blanks never reach it here). *)
Definition ofString (s : string) : number :=
  let (ip, r) := span_digits s in
  match r with
  | "" => ofZ (dec_value 0 ip)
  | String "."%char fr =>
      let (fp, r') := span_digits fr in
      match r', (ip ++ fp) with
      | "", String _ _ =>
          fin (inject_Z (dec_value 0 ip)
               + inject_Z (dec_value 0 fp) / inject_Z (10 ^ Z.of_nat (String.length fp)))
      | _, _ => NaN
      end
  | _ => NaN
  end.

End Num.

(** ** Regular expressions

    A backtracking matcher for the constructs the three patterns of the
    library use: literals, character classes, greedy bounded or unbounded
    repetition of a class, [?], [|], capture groups and [$].  Every pattern
    of the library starts with [^], so matching is anchored at the start. *)

Module Regex.

Inductive t : Type :=
| Eps
| Chr (c : ascii)
| Cls (p : ascii -> bool)
| Seq (r1 r2 : t)
| Alt (r1 r2 : t)
| Opt (r : t)
| Rep (p : ascii -> bool) (lo : nat) (hi : option nat)
| Grp (i : nat) (r : t)
| Eos.

Definition captures : Type := list (nat * string).

(** [p{lo,hi}], greedy: the longest run first, then shorter ones. *)
Fixpoint rep (p : ascii -> bool) (lo : nat) (hi : option nat) (s : string)
    (k : string -> option captures) : option captures :=
  let stop := match lo with O => k s | S _ => None end in
  match s with
  | String c s' =>
      if p c && match hi with Some O => false | _ => true end
      then match rep p (Nat.pred lo) (option_map Nat.pred hi) s' k with
           | Some r => Some r
           | None => stop
           end
      else stop
  | "" => stop
  end.

Fixpoint run (r : t) (s : string) (caps : captures)
    (k : string -> captures -> option captures) : option captures :=
  match r with
  | Eps => k s caps
  | Chr c =>
      match s with
      | String c' s' => if Ascii.eqb c c' then k s' caps else None
      | "" => None
      end
  | Cls p =>
      match s with
      | String c' s' => if p c' then k s' caps else None
      | "" => None
      end
  | Seq r1 r2 => run r1 s caps (fun s' caps' => run r2 s' caps' k)
  | Alt r1 r2 =>
      match run r1 s caps k with
      | Some c => Some c
      | None => run r2 s caps k
      end
  | Opt r1 =>
      match run r1 s caps k with
      | Some c => Some c
      | None => k s caps
      end
  | Rep p lo hi => rep p lo hi s (fun s' => k s' caps)
  | Grp i r1 =>
      run r1 s caps
        (fun s' caps' =>
           k s' ((i, substring 0 (String.length s - String.length s') s) :: caps'))
  | Eos =>
      match s with
      | "" => k s caps
      | String _ _ => None
      end
  end.

Fixpoint lit (w : string) : t :=
  match w with
  | "" => Eps
  | String c w' => Seq (Chr c) (lit w')
  end.

Fixpoint seq (l : list t) : t :=
  match l with
  | [] => Eps
  | r :: l' => Seq r (seq l')
  end.

Fixpoint group (caps : captures) (i : nat) : option string :=
  match caps with
  | [] => None
  | (j, w) :: caps' => if Nat.eqb i j then Some w else group caps' i
  end.

(** [regex.test(s)] *)
Definition test (r : t) (s : string) : bool :=
  match run r s [] (fun _ caps => Some caps) with
  | Some _ => true
  | None => false
  end.

(** [s.match(regex)] for a pattern with [n] groups: the whole match followed
    by the groups, a group that took no part being [undefined]. *)
Definition match_ (r : t) (n : nat) (s : string) : option (list (option string)) :=
  match run r s [] (fun _ caps => Some caps) with
  | Some caps => Some (Some s :: map (group caps) (List.seq 1 n))
  | None => None
  end.

Definition ws : t := Rep Str.is_space 0 None.
Definition d13 : t := Rep Str.is_digit 1 (Some 3%nat).
Definition zero_one (c : ascii) : bool := Ascii.eqb c "0" || Ascii.eqb c "1".

End Regex.

(** ** errors/ColorError.ts

    Each static factory builds an error from the offending string; the spell
    checker the factories call has no effect on the error they return. *)

Inductive ColorError : Type :=
| InvalidColor (color : string)
| InvalidHexCode (color : string)
| InvalidRGBCode (color : string)
| InvalidHSLCode (color : string)
| InvalidValue (color : string) (value : string).

Definition getMessage (color : string) : string :=
  "Invalid color, " ++ Str.dquote ++ color ++ Str.dquote.

Definition message (e : ColorError) : string :=
  match e with
  | InvalidColor color => getMessage color
  | InvalidHexCode color => getMessage color ++ " not a valid HEX code"
  | InvalidRGBCode color => getMessage color ++ " not a valid RGB code"
  | InvalidHSLCode color => getMessage color ++ " not a valid HSL code"
  | InvalidValue color value =>
      getMessage color ++ " has an invalid value " ++ Str.dquote ++ value ++ Str.dquote
  end.

Inductive result (A : Type) : Type :=
| Ok (a : A)
| Throw (e : ColorError).
Arguments Ok {A} a.
Arguments Throw {A} e.

Definition bind {A B : Type} (m : result A) (f : A -> result B) : result B :=
  match m with
  | Ok a => f a
  | Throw e => Throw e
  end.

Notation "x <- m ;; k" := (bind m (fun x => k))
  (at level 61, m at next level, right associativity).

Definition guard (bad : bool) (e : ColorError) : result unit :=
  if bad then Throw e else Ok tt.

Definition returns {A : Type} (m : result A) : bool :=
  match m with Ok _ => true | Throw _ => false end.

(** A value that [map] left [undefined], used where a number is expected:
    [isNaN(undefined)] holds and arithmetic on it gives [NaN]. *)
Definition as_number (o : option number) : number :=
  match o with Some a => a | None => NaN end.

(** Truthiness of an optional number: [undefined], [0] and [NaN] are falsy. *)
Definition provided_truthy (alpha : option number) : bool :=
  match alpha with Some a => truthy a | None => false end.

Definition show_opt (alpha : option number) : string :=
  match alpha with Some a => Num.show a | None => "undefined" end.

(** ** formats/Hex.ts *)

(** [/^#([A-Fa-f0-9]{3}|[A-Fa-f0-9]{6}|[A-Fa-f0-9]{8})$/] *)
Definition HEX_REGEX : Regex.t :=
  Regex.seq
    [ Regex.Chr "#";
      Regex.Grp 1
        (Regex.Alt (Regex.Rep Str.is_hex 3 (Some 3%nat))
           (Regex.Alt (Regex.Rep Str.is_hex 6 (Some 6%nat))
              (Regex.Rep Str.is_hex 8 (Some 8%nat))));
      Regex.Eos ].

Definition stringToDecimals (s : string) : number := Num.parseInt16 s.

Definition parseHex (s : string) : result string :=
  if negb (Regex.test HEX_REGEX s) then Throw (InvalidHexCode s)
  else if (String.length s =? 4)%nat then
    let red := Str.show (Str.at_ s 1) ++ Str.show (Str.at_ s 1) in
    let green := Str.show (Str.at_ s 2) ++ Str.show (Str.at_ s 2) in
    let blue := Str.show (Str.at_ s 3) ++ Str.show (Str.at_ s 3) in
    let alpha :=
      match Str.at_ s 4 with
      | Some c => String c "" ++ String c ""
      | None => "FF"
      end in
    Ok (Str.toUpperCase ("#" ++ red ++ green ++ blue ++ alpha))
  else if (String.length s =? 7)%nat then
    Ok (Str.toUpperCase (s ++ "FF"))
  else Ok (Str.toUpperCase s).

(** ** formats/RedGreenBlue.ts *)

Module RGBA.
Record t : Type := mk { red : number; green : number; blue : number; alpha : number }.
End RGBA.

Module HSLA.
Record t : Type :=
  mk { hue : number; saturation : number; lightness : number; alpha : number }.
End HSLA.

Definition hexToRgb (s : string) : result RGBA.t :=
  hex <- parseHex s ;;
  let pair i j := Str.show (Str.at_ hex i) ++ Str.show (Str.at_ hex j) in
  Ok {| RGBA.red := stringToDecimals (pair 1 2)%nat;
        RGBA.green := stringToDecimals (pair 3 4)%nat;
        RGBA.blue := stringToDecimals (pair 5 6)%nat;
        RGBA.alpha := round (stringToDecimals (pair 7 8)%nat / ofZ 255)%js 2 |}.

(** [/^rgba?\(\s*(\d{1,3})\s*,\s*(\d{1,3})\s*,\s*(\d{1,3})(?:,\s*([0-1](?:\.\d+)?))?\s*\)$/] *)
Definition RGB_HEX : Regex.t :=
  Regex.seq
    [ Regex.lit "rgb"; Regex.Opt (Regex.Chr "a"); Regex.Chr "(";
      Regex.ws; Regex.Grp 1 Regex.d13; Regex.ws; Regex.Chr ",";
      Regex.ws; Regex.Grp 2 Regex.d13; Regex.ws; Regex.Chr ",";
      Regex.ws; Regex.Grp 3 Regex.d13;
      Regex.Opt
        (Regex.seq
           [ Regex.Chr ","; Regex.ws;
             Regex.Grp 4
               (Regex.Seq (Regex.Cls Regex.zero_one)
                  (Regex.Opt
                     (Regex.Seq (Regex.Chr ".") (Regex.Rep Str.is_digit 1 None)))) ]);
      Regex.ws; Regex.Chr ")"; Regex.Eos ].

Definition out_of_range (color lo hi : number) : bool :=
  (isNaN color || (color < lo) || (color > hi))%js.

Fixpoint check_each (colors : list number) (e : ColorError) : result unit :=
  match colors with
  | [] => Ok tt
  | color :: rest =>
      _ <- guard (out_of_range color (ofZ 0) (ofZ 255)) e ;;
      check_each rest e
  end.

Definition validateRgb (red green blue : number) (alpha : option number)
    : result RGBA.t :=
  let colorString :=
    if provided_truthy alpha
    then "rgba(" ++ Num.show red ++ ", " ++ Num.show green ++ ", "
           ++ Num.show blue ++ ", " ++ show_opt alpha ++ ")"
    else "rgb(" ++ Num.show red ++ ", " ++ Num.show green ++ ", "
           ++ Num.show blue ++ ")" in
  let colors := [red; green; blue] in
  _ <- check_each colors (InvalidRGBCode colorString) ;;
  _ <- guard (provided_truthy alpha
              && out_of_range (as_number alpha) (ofZ 0) (ofZ 1))
         (InvalidRGBCode colorString) ;;
  Ok {| RGBA.red := Math.round red;
        RGBA.green := Math.round green;
        RGBA.blue := Math.round blue;
        RGBA.alpha := defaultAlpha alpha |}.

(** The [map] over the match array: [Number(x)] when that is a number,
    [undefined] otherwise; then the whole match is dropped. *)
Definition to_numbers (extracted : list (option string)) : list (option number) :=
  tl (map (fun color =>
             let n := match color with Some w => Num.ofString w | None => NaN end in
             if negb (isNaN n) then Some n else None)
          extracted).

Definition nth_number (colors : list (option number)) (i : nat) : option number :=
  nth i colors None.

Definition parseRgb (color : string) : result RGBA.t :=
  match Regex.match_ RGB_HEX 4 color with
  | None => Throw (InvalidRGBCode color)
  | Some extractedColors =>
      let colors := to_numbers extractedColors in
      let red := as_number (nth_number colors 0) in
      let green := as_number (nth_number colors 1) in
      let blue := as_number (nth_number colors 2) in
      let alpha := nth_number colors 3 in
      validateRgb red green blue alpha
  end.

Definition hex2 (color : number) : string :=
  Str.padStart 2 "0" (Num.toString 16 color).

Definition rgbToHex (red green blue : number) (alpha : option number)
    : result string :=
  rgb <- validateRgb red green blue alpha ;;
  let red := RGBA.red rgb in
  let green := RGBA.green rgb in
  let blue := RGBA.blue rgb in
  let alpha := RGBA.alpha rgb in
  let colors :=
    Str.toUpperCase
      (Str.join (map hex2 [red; green; blue; Math.round (alpha * ofZ 255)%js])) in
  Ok ("#" ++ colors).

Definition rgbToHsl (red green blue : number) (alpha : option number)
    : result HSLA.t :=
  rgb <- validateRgb red green blue alpha ;;
  let red := RGBA.red rgb in
  let green := RGBA.green rgb in
  let blue := RGBA.blue rgb in
  let alpha := RGBA.alpha rgb in
  let max := Math.max red green blue in
  let min := Math.min red green blue in
  let delta := (max - min)%js in
  let average := ((max + min) / ofZ 2)%js in
  let lightness := round (average / ofZ 255)%js 2 in
  let saturation :=
    if (delta === ofZ 0)%js then ofZ 0
    else round (delta / (ofZ 1 - Math.abs (lightness * ofZ 2 - ofZ 1)) / ofZ 255)%js 2 in
  let hue :=
    if (delta === ofZ 0)%js then ofZ 0
    else if (max === red)%js then (((green - blue) / delta) %% ofZ 6)%js
    else if (max === green)%js then ((blue - red) / (max - min) + ofZ 2)%js
    else ((red - green) / (max - min) + ofZ 4)%js in
  let hue := Math.round (hue * ofZ 60)%js in
  let hue := if (hue < ofZ 0)%js then (hue + ofZ 360)%js else hue in
  Ok {| HSLA.hue := hue; HSLA.saturation := saturation;
        HSLA.lightness := lightness; HSLA.alpha := alpha |}.

(** ** formats/HueSaturationLightness.ts *)

(** [/^hsla?\(\s*(\d{1,3})\s*,\s*(\d{1,3})%\s*,\s*(\d{1,3})%(?:,\s*([0-1](?:\.\d+)?))?\s*\)$/] *)
Definition HSL_REGEX : Regex.t :=
  Regex.seq
    [ Regex.lit "hsl"; Regex.Opt (Regex.Chr "a"); Regex.Chr "(";
      Regex.ws; Regex.Grp 1 Regex.d13; Regex.ws; Regex.Chr ",";
      Regex.ws; Regex.Grp 2 Regex.d13; Regex.Chr "%"; Regex.ws; Regex.Chr ",";
      Regex.ws; Regex.Grp 3 Regex.d13; Regex.Chr "%";
      Regex.Opt
        (Regex.seq
           [ Regex.Chr ","; Regex.ws;
             Regex.Grp 4
               (Regex.Seq (Regex.Cls Regex.zero_one)
                  (Regex.Opt
                     (Regex.Seq (Regex.Chr ".") (Regex.Rep Str.is_digit 1 None)))) ]);
      Regex.ws; Regex.Chr ")"; Regex.Eos ].

Definition validateHsl (hue saturation lightness : number) (alpha : option number)
    : result HSLA.t :=
  let colorString :=
    if provided_truthy alpha
    then "hsla(" ++ Num.show hue ++ ", " ++ Num.show (saturation * ofZ 100)%js
           ++ "%, " ++ Num.show (lightness * ofZ 100)%js ++ "%, "
           ++ show_opt alpha ++ ")"
    else "hsl(" ++ Num.show hue ++ ", " ++ Num.show (saturation * ofZ 100)%js
           ++ "%, " ++ Num.show (lightness * ofZ 100)%js ++ "%)" in
  _ <- guard (isNaN hue || (hue < ofZ 0) || (hue >= ofZ 360))%js
         (InvalidHSLCode colorString) ;;
  _ <- guard (out_of_range saturation (ofZ 0) (ofZ 1)) (InvalidHSLCode colorString) ;;
  _ <- guard (out_of_range lightness (ofZ 0) (ofZ 1)) (InvalidHSLCode colorString) ;;
  _ <- guard (provided_truthy alpha
              && out_of_range (as_number alpha) (ofZ 0) (ofZ 1))
         (InvalidHSLCode colorString) ;;
  Ok {| HSLA.hue := round hue 0;
        HSLA.saturation := round saturation 2;
        HSLA.lightness := round lightness 2;
        HSLA.alpha := defaultAlpha alpha |}.

Definition parseHsl (color : string) : result HSLA.t :=
  match Regex.match_ HSL_REGEX 4 color with
  | None => Throw (InvalidHSLCode color)
  | Some extractedColors =>
      let colors := to_numbers extractedColors in
      let hue := as_number (nth_number colors 0) in
      let saturation := as_number (nth_number colors 1) in
      let lightness := as_number (nth_number colors 2) in
      let alpha := nth_number colors 3 in
      validateHsl hue (saturation / ofZ 100)%js (lightness / ofZ 100)%js alpha
  end.

Definition huePrimeToRGB (huePrime chroma position : number)
    : number * number * number :=
  if (huePrime < ofZ 1)%js then (chroma, position, ofZ 0)
  else if (huePrime < ofZ 2)%js then (position, chroma, ofZ 0)
  else if (huePrime < ofZ 3)%js then (ofZ 0, chroma, position)
  else if (huePrime < ofZ 4)%js then (ofZ 0, position, chroma)
  else if (huePrime < ofZ 5)%js then (position, ofZ 0, chroma)
  else (chroma, ofZ 0, position).

Definition hslToRgb (hue saturation lightness : number) (alpha : option number)
    : result RGBA.t :=
  hsl <- validateHsl hue saturation lightness alpha ;;
  let hue := HSLA.hue hsl in
  let saturation := HSLA.saturation hsl in
  let lightness := HSLA.lightness hsl in
  let alpha := HSLA.alpha hsl in
  let chroma := ((ofZ 1 - Math.abs (ofZ 2 * lightness - ofZ 1)) * saturation)%js in
  let huePrime := (hue / ofZ 60)%js in
  let position := (chroma * (ofZ 1 - Math.abs (huePrime %% ofZ 2 - ofZ 1)))%js in
  let lightnessPrime := (lightness - chroma / ofZ 2)%js in
  let '(redPrime, greenPrime, bluePrime) := huePrimeToRGB huePrime chroma position in
  let red := round ((redPrime + lightnessPrime) * ofZ 255)%js 0 in
  let green := round ((greenPrime + lightnessPrime) * ofZ 255)%js 0 in
  let blue := round ((bluePrime + lightnessPrime) * ofZ 255)%js 0 in
  Ok {| RGBA.red := red; RGBA.green := green; RGBA.blue := blue; RGBA.alpha := alpha |}.

(** ** index.ts: the Color class *)

Record ColorAttributes : Type := mkColor {
  hexCode : string;
  red : number;
  green : number;
  blue : number;
  hue : number;
  saturation : number;
  lightness : number;
  alpha : number
}.

Module Color.

Definition getAttributesFromHex (color : string) : result ColorAttributes :=
  hexCode <- parseHex color ;;
  rgb <- hexToRgb hexCode ;;
  hsl <- rgbToHsl (RGBA.red rgb) (RGBA.green rgb) (RGBA.blue rgb) None ;;
  Ok {| hexCode := hexCode;
        red := RGBA.red rgb; blue := RGBA.blue rgb; green := RGBA.green rgb;
        hue := HSLA.hue hsl; saturation := HSLA.saturation hsl;
        lightness := HSLA.lightness hsl; alpha := RGBA.alpha rgb |}.

Definition getAttributesFromRgb (color : RGBA.t) : result ColorAttributes :=
  let '(RGBA.mk red green blue alpha) := color in
  hsl <- rgbToHsl red green blue (Some alpha) ;;
  hexCode <- rgbToHex red green blue (Some alpha) ;;
  Ok {| hexCode := hexCode; red := red; blue := blue; green := green;
        hue := HSLA.hue hsl; saturation := HSLA.saturation hsl;
        lightness := HSLA.lightness hsl; alpha := alpha |}.

Definition getAttributesFromHsl (color : HSLA.t) : result ColorAttributes :=
  let '(HSLA.mk hue saturation lightness alpha) := color in
  rgb <- hslToRgb hue saturation lightness None ;;
  hexCode <- rgbToHex (RGBA.red rgb) (RGBA.green rgb) (RGBA.blue rgb) (Some alpha) ;;
  Ok {| hexCode := hexCode;
        red := RGBA.red rgb; blue := RGBA.blue rgb; green := RGBA.green rgb;
        hue := hue; saturation := saturation; lightness := lightness;
        alpha := alpha |}.

Definition getAttributesFromString (color : string) : result ColorAttributes :=
  match Str.at_ color 0 with
  | Some "#"%char => getAttributesFromHex color
  | _ =>
      if Str.includes color "rgb" then
        rgb <- parseRgb color ;; getAttributesFromRgb rgb
      else if Str.includes color "hsl" then
        hsl <- parseHsl color ;; getAttributesFromHsl hsl
      else Throw (InvalidColor color)
  end.

(** The constructor: the attributes are computed first, then the eight
    private fields of the new object are initialised from them. *)
Definition new (color : string) : result ColorAttributes :=
  attributes <- getAttributesFromString color ;;
  Ok {| hexCode := hexCode attributes;
        red := red attributes;
        green := green attributes;
        blue := blue attributes;
        hue := hue attributes;
        saturation := saturation attributes;
        lightness := lightness attributes;
        alpha := alpha attributes |}.

(** *** Methods: computations on the fields of [this] that may throw *)

Definition method (A : Type) : Type :=
  ColorAttributes -> result A * ColorAttributes.

Definition ret {A : Type} (a : A) : method A := fun this => (Ok a, this).

Definition mbind {A B : Type} (m : method A) (f : A -> method B) : method B :=
  fun this =>
    match m this with
    | (Ok a, this') => f a this'
    | (Throw e, this') => (Throw e, this')
    end.

Definition this_ : method ColorAttributes := fun this => (Ok this, this).

Definition call {A : Type} (r : result A) : method A := fun this => (r, this).

Definition assign (f : ColorAttributes -> ColorAttributes) : method unit :=
  fun this => (Ok tt, f this).

Notation "x <~ m ;; k" := (mbind m (fun x => k))
  (at level 61, m at next level, right associativity).
Notation "m ;;; k" := (mbind m (fun _ => k))
  (at level 61, right associativity).

Definition with_hexCode (v : string) (c : ColorAttributes) : ColorAttributes :=
  mkColor v (red c) (green c) (blue c) (hue c) (saturation c) (lightness c) (alpha c).
Definition with_red (v : number) (c : ColorAttributes) : ColorAttributes :=
  mkColor (hexCode c) v (green c) (blue c) (hue c) (saturation c) (lightness c) (alpha c).
Definition with_green (v : number) (c : ColorAttributes) : ColorAttributes :=
  mkColor (hexCode c) (red c) v (blue c) (hue c) (saturation c) (lightness c) (alpha c).
Definition with_blue (v : number) (c : ColorAttributes) : ColorAttributes :=
  mkColor (hexCode c) (red c) (green c) v (hue c) (saturation c) (lightness c) (alpha c).
Definition with_hue (v : number) (c : ColorAttributes) : ColorAttributes :=
  mkColor (hexCode c) (red c) (green c) (blue c) v (saturation c) (lightness c) (alpha c).
Definition with_saturation (v : number) (c : ColorAttributes) : ColorAttributes :=
  mkColor (hexCode c) (red c) (green c) (blue c) (hue c) v (lightness c) (alpha c).
Definition with_lightness (v : number) (c : ColorAttributes) : ColorAttributes :=
  mkColor (hexCode c) (red c) (green c) (blue c) (hue c) (saturation c) v (alpha c).
Definition with_alpha (v : number) (c : ColorAttributes) : ColorAttributes :=
  mkColor (hexCode c) (red c) (green c) (blue c) (hue c) (saturation c) (lightness c) v.

Definition setAttributes (attributes : ColorAttributes) : method unit :=
  assign (with_hexCode (hexCode attributes)) ;;;
  assign (with_red (red attributes)) ;;;
  assign (with_green (green attributes)) ;;;
  assign (with_blue (blue attributes)) ;;;
  assign (with_hue (hue attributes)) ;;;
  assign (with_saturation (saturation attributes)) ;;;
  assign (with_lightness (lightness attributes)) ;;;
  assign (with_alpha (alpha attributes)).

Definition set_red (v : number) : method unit :=
  this <~ this_ ;;
  rgb <~ call (validateRgb v (green this) (blue this) (Some (alpha this))) ;;
  attributes <~ call (getAttributesFromRgb rgb) ;;
  setAttributes attributes.

Definition set_green (v : number) : method unit :=
  this <~ this_ ;;
  rgb <~ call (validateRgb (red this) v (blue this) (Some (alpha this))) ;;
  attributes <~ call (getAttributesFromRgb rgb) ;;
  setAttributes attributes.

Definition set_blue (v : number) : method unit :=
  this <~ this_ ;;
  rgb <~ call (validateRgb (red this) (green this) v (Some (alpha this))) ;;
  attributes <~ call (getAttributesFromRgb rgb) ;;
  setAttributes attributes.

Definition set_hue (v : number) : method unit :=
  this <~ this_ ;;
  hsl <~ call (validateHsl v (saturation this) (lightness this) (Some (alpha this))) ;;
  attributes <~ call (getAttributesFromHsl hsl) ;;
  setAttributes attributes.

Definition set_saturation (v : number) : method unit :=
  this <~ this_ ;;
  hsl <~ call (validateHsl (hue this) v (lightness this) (Some (alpha this))) ;;
  attributes <~ call (getAttributesFromHsl hsl) ;;
  setAttributes attributes.

Definition set_lightness (v : number) : method unit :=
  this <~ this_ ;;
  hsl <~ call (validateHsl (hue this) (saturation this) v (Some (alpha this))) ;;
  attributes <~ call (getAttributesFromHsl hsl) ;;
  setAttributes attributes.

Definition set_alpha (v : number) : method unit :=
  this <~ this_ ;;
  rgb <~ call (validateRgb (red this) (green this) (blue this) (Some v)) ;;
  attributes <~ call (getAttributesFromRgb rgb) ;;
  setAttributes attributes.

(** *** Presets and factories

    The presets [red], [green] and [blue] carry a trailing underscore here,
    the plain names being the field accessors. *)

Definition white : result ColorAttributes := new "#FFF".
Definition black : result ColorAttributes := new "#000".
Definition transparent : result ColorAttributes := new "#00000000".
Definition red_ : result ColorAttributes := new "#F00".
Definition orange : result ColorAttributes := new "#FF8000".
Definition yellow : result ColorAttributes := new "#FF0".
Definition green_ : result ColorAttributes := new "#0F0".
Definition blue_ : result ColorAttributes := new "#00F".
Definition purple : result ColorAttributes := new "#F0F".

(** [color.setAttributes(attributes); return color] on a fresh instance. *)
Definition updated (color : ColorAttributes) (m : method unit)
    : result ColorAttributes :=
  match m color with
  | (Ok _, color') => Ok color'
  | (Throw e, _) => Throw e
  end.

Definition rgb (r g b : number) (a : option number) : result ColorAttributes :=
  rgb <- validateRgb r g b a ;;
  attributes <- getAttributesFromRgb rgb ;;
  color <- white ;;
  updated color (setAttributes attributes).

Definition hsl (h s l : number) (a : option number) : result ColorAttributes :=
  hsl <- validateHsl h s l a ;;
  attributes <- getAttributesFromHsl hsl ;;
  color <- white ;;
  updated color (setAttributes attributes).

(** *** Serialisation *)

Definition toHex (this : ColorAttributes) : string := hexCode this.

Definition toRgb (this : ColorAttributes) : string :=
  "rgba(" ++ Num.show (red this) ++ ", " ++ Num.show (green this) ++ ", "
    ++ Num.show (blue this) ++ ", " ++ Num.show (alpha this) ++ ")".

Definition toHsl (this : ColorAttributes) : string :=
  "hlsa(" ++ Num.show (hue this) ++ ", "
    ++ Num.show (saturation this * ofZ 100)%js ++ "%, "
    ++ Num.show (lightness this * ofZ 100)%js ++ "%, "
    ++ Num.show (alpha this) ++ ")".

Inductive ColorFormat : Type := hex | rgb_ | hsl_.

Definition toString (type : ColorFormat) (this : ColorAttributes) : string :=
  match type with
  | hex => toHex this
  | rgb_ => toRgb this
  | hsl_ => toHsl this
  end.

End Color.

Import Color.

(** * Specification-level notions *)

(** The specification's reading of [round]: the nearest multiple of
    [10^-decimals], a tie going away from zero. *)
Definition round_half_away_from_zero (q : Q) (decimals : nat) : Q :=
  let offset := inject_Z (10 ^ Z.of_nat decimals) in
  (inject_Z (Z.sgn (Qnum q) * Qfloor (Qabs q * offset + (1 # 2))) / offset)%Q.

Definition integer_valued (a : number) : Prop := exists z : Z, a = ofZ z.

Fixpoint all_hex (s : string) : bool :=
  match s with
  | "" => true
  | String c s' => Str.is_hex c && all_hex s'
  end.

(** The input forms of the hex notation that the pattern admits: [#]
    followed by exactly 3, 6 or 8 hexadecimal digits. *)
Definition accepted_hex_form (s : string) : bool :=
  match s with
  | String "#"%char ds =>
      all_hex ds
      && ((String.length ds =? 3)%nat || (String.length ds =? 6)%nat
          || (String.length ds =? 8)%nat)
  | _ => false
  end.

(** What the hex round trip does to an alpha byte: to two decimals and back. *)
Definition requantize (byte : number) : number :=
  Math.round (round (byte / ofZ 255)%js 2 * ofZ 255)%js.

(** Dropping exactly [n] characters of class [p]. *)
Fixpoint strip (p : ascii -> bool) (n : nat) (s : string) : option string :=
  match n with
  | O => Some s
  | S n' =>
      match s with
      | String c s' => if p c then strip p n' s' else None
      | "" => None
      end
  end.

Definition exactly (n : nat) (s : string) : bool :=
  match strip Str.is_hex n s with
  | Some "" => true
  | _ => false
  end.

(** Upper-case hexadecimal digits, and the checks run over all pairs of them. *)
Definition UPPER_HEX : list ascii := list_ascii_of_string "0123456789ABCDEF".

Definition is_upper_hex (c : ascii) : bool :=
  let n := nat_of_ascii c in
  ((48 <=? n)%nat && (n <=? 57)%nat) || ((65 <=? n)%nat && (n <=? 70)%nat).

Definition digits2 (c1 c2 : ascii) : string := String c1 (String c2 "").

Definition number_beq (a b : number) : bool :=
  match a, b with
  | NaN, NaN => true
  | Infinity s, Infinity t => Bool.eqb s t
  | Fin x, Fin y => (Qnum x =? Qnum y) && (Qden x =? Qden y)%positive
  | _, _ => false
  end.

(** A pair of digits decodes to a valid channel that encodes back to it. *)
Definition channel_check (c1 c2 : ascii) : bool :=
  let v := stringToDecimals (digits2 c1 c2) in
  negb (out_of_range v (ofZ 0) (ofZ 255))
  && number_beq (Math.round v) v
  && String.eqb (Str.toUpperCase (hex2 v)) (digits2 c1 c2).

(** A pair of digits decodes to an alpha that validation accepts and that
    [defaultAlpha] leaves as it is. *)
Definition alpha_check (c1 c2 : ascii) : bool :=
  let a := round (stringToDecimals (digits2 c1 c2) / ofZ 255)%js 2 in
  negb (provided_truthy (Some a) && out_of_range a (ofZ 0) (ofZ 1))
  && number_beq (defaultAlpha (Some a)) a.

(** A channel, or an optional alpha, that the range checks let through. *)
Definition in_range (color lo hi : number) : Prop := out_of_range color lo hi = false.

Definition alpha_accepted (alpha : option number) : Prop :=
  provided_truthy alpha && out_of_range (as_number alpha) (ofZ 0) (ofZ 1) = false.

(** ** Mutation and observable states *)

Inductive field : Type := Red | Green | Blue | Hue | Saturation | Lightness | Alpha.

(** The assignment [color.f = v]. *)
Definition set_field (f : field) (v : number) : Color.method unit :=
  match f with
  | Red => Color.set_red v
  | Green => Color.set_green v
  | Blue => Color.set_blue v
  | Hue => Color.set_hue v
  | Saturation => Color.set_saturation v
  | Lightness => Color.set_lightness v
  | Alpha => Color.set_alpha v
  end.

(** The validation a setter runs on the new value together with the current
    values of the fields it does not touch, failing with [e]. *)
Definition fails_validation (f : field) (v : number) (this : ColorAttributes)
    (e : ColorError) : Prop :=
  match f with
  | Red => validateRgb v (green this) (blue this) (Some (alpha this)) = Throw e
  | Green => validateRgb (red this) v (blue this) (Some (alpha this)) = Throw e
  | Blue => validateRgb (red this) (green this) v (Some (alpha this)) = Throw e
  | Hue => validateHsl v (saturation this) (lightness this) (Some (alpha this)) = Throw e
  | Saturation => validateHsl (hue this) v (lightness this) (Some (alpha this)) = Throw e
  | Lightness => validateHsl (hue this) (saturation this) v (Some (alpha this)) = Throw e
  | Alpha => validateRgb (red this) (green this) (blue this) (Some v) = Throw e
  end.

(** The body shared by the setters of red, green, blue and alpha, and the one
    shared by the setters of hue, saturation and lightness. *)
Definition rgb_update (r g b : number) (a : option number) : Color.method unit :=
  rgb <~ Color.call (validateRgb r g b a) ;;
  attributes <~ Color.call (Color.getAttributesFromRgb rgb) ;;
  Color.setAttributes attributes.

Definition hsl_update (h s l : number) (a : option number) : Color.method unit :=
  hsl <~ Color.call (validateHsl h s l a) ;;
  attributes <~ Color.call (Color.getAttributesFromHsl hsl) ;;
  Color.setAttributes attributes.

(** The notation a state was last derived from. *)
Inductive origin : Type := FromHex | FromRgb | FromHsl.

Definition field_origin (f : field) : origin :=
  match f with
  | Red | Green | Blue | Alpha => FromRgb
  | Hue | Saturation | Lightness => FromHsl
  end.

Definition starts_with_hash (s : string) : bool :=
  match Str.at_ s 0 with
  | Some c => Ascii.eqb c "#"
  | None => false
  end.

(** The states a caller can observe: after a constructor or a factory
    returned, and after each assignment, whether it returned or threw. *)
Inductive observable : origin -> ColorAttributes -> Prop :=
| obs_new_hex (s : string) (c : ColorAttributes) :
    starts_with_hash s = true ->
    Color.new s = Ok c -> observable FromHex c
| obs_new_rgb (s : string) (c : ColorAttributes) :
    starts_with_hash s = false -> Str.includes s "rgb" = true ->
    Color.new s = Ok c -> observable FromRgb c
| obs_new_hsl (s : string) (c : ColorAttributes) :
    starts_with_hash s = false -> Str.includes s "rgb" = false ->
    Color.new s = Ok c -> observable FromHsl c
| obs_rgb (r g b : number) (a : option number) (c : ColorAttributes) :
    Color.rgb r g b a = Ok c -> observable FromRgb c
| obs_hsl (h s l : number) (a : option number) (c : ColorAttributes) :
    Color.hsl h s l a = Ok c -> observable FromHsl c
| obs_set (o : origin) (this this' : ColorAttributes) (f : field) (v : number) :
    observable o this ->
    set_field f v this = (Ok tt, this') -> observable (field_origin f) this'
| obs_set_rejected (o : origin) (this this' : ColorAttributes) (f : field)
    (v : number) (e : ColorError) :
    observable o this ->
    set_field f v this = (Throw e, this') -> observable o this'.

Definition rgba_of (c : ColorAttributes) : RGBA.t :=
  RGBA.mk (red c) (green c) (blue c) (alpha c).

Definition hex_of_rgb (c : ColorAttributes) : Prop :=
  rgbToHex (red c) (green c) (blue c) (Some (alpha c)) = Ok (hexCode c).

Definition rgb_of_hex (c : ColorAttributes) : Prop :=
  hexToRgb (hexCode c) = Ok (rgba_of c).

Definition hsl_of_rgb (c : ColorAttributes) : Prop :=
  exists x, rgbToHsl (red c) (green c) (blue c) None = Ok x
    /\ hue c = HSLA.hue x /\ saturation c = HSLA.saturation x
    /\ lightness c = HSLA.lightness x.

Definition rgb_of_hsl (c : ColorAttributes) : Prop :=
  exists x, hslToRgb (hue c) (saturation c) (lightness c) None = Ok x
    /\ red c = RGBA.red x /\ green c = RGBA.green x /\ blue c = RGBA.blue x.

(** How the representations of a state agree, by the notation it came from. *)
Definition consistent (o : origin) (c : ColorAttributes) : Prop :=
  match o with
  | FromHex => rgb_of_hex c /\ hsl_of_rgb c
  | FromRgb => hex_of_rgb c /\ hsl_of_rgb c
  | FromHsl => hex_of_rgb c /\ rgb_of_hsl c
  end.

(** A byte encodes to two upper-case digits that decode back to it. *)
Definition byte_check (n : nat) : bool :=
  match Str.toUpperCase (hex2 (ofZ (Z.of_nat n))) with
  | String c1 (String c2 "") =>
      is_upper_hex c1 && is_upper_hex c2
      && number_beq (stringToDecimals (digits2 c1 c2)) (ofZ (Z.of_nat n))
  | _ => false
  end.

(** A two-decimal alpha [k / 100] passes validation unchanged, encodes to a
    byte, and that byte decodes back to it. *)
Definition alpha_back_check (k : nat) : bool :=
  let a := fin (inject_Z (Z.of_nat k) / inject_Z 100) in
  negb (provided_truthy (Some a) && out_of_range a (ofZ 0) (ofZ 1))
  && number_beq (defaultAlpha (Some a)) a
  && match Math.round (a * ofZ 255)%js with
     | Fin q =>
         (Qden q =? 1)%positive && (0 <=? Qnum q) && (Qnum q <=? 255)
         && number_beq (round (ofZ (Qnum q) / ofZ 255)%js 2) a
     | _ => false
     end.

(** ** Values of finite numbers *)

(** [a] is the finite number whose value is [q]. *)
Definition is_value (a : number) (q : Q) : Prop :=
  exists q', a = Fin q' /\ (q' == q)%Q.

(** Truncation toward zero, as the remainder operator uses it. *)
Definition Qtrunc (q : Q) : Z := Qnum q ÷ Zpos (Qden q).

(** A number that [Math.round] leaves as it is: an integer, [NaN] or an
    infinity. *)
Definition whole (a : number) : Prop := Math.round a = a.

(** The hue check of [validateHsl]: a number in [0, 360). *)
Definition hue_accepted (hue : number) : Prop :=
  (isNaN hue || (hue < ofZ 0) || (hue >= ofZ 360))%js = false.

(** Every stored field is a fixed point of the rounding its validator applies. *)
Definition settled (c : ColorAttributes) : Prop :=
  whole (red c) /\ whole (green c) /\ whole (blue c)
  /\ round (hue c) 0 = hue c
  /\ round (saturation c) 2 = saturation c
  /\ round (lightness c) 2 = lightness c
  /\ round (alpha c) 2 = alpha c.

(** What a successful assignment to field [f] with value [v] leaves in the
    fields of the triple it belongs to, and in alpha. *)
Definition assigned (f : field) (v : number) (this this' : ColorAttributes) : Prop :=
  match f with
  | Red =>
      red this' = Math.round v /\ green this' = green this
      /\ blue this' = blue this /\ alpha this' = alpha this
  | Green =>
      red this' = red this /\ green this' = Math.round v
      /\ blue this' = blue this /\ alpha this' = alpha this
  | Blue =>
      red this' = red this /\ green this' = green this
      /\ blue this' = Math.round v /\ alpha this' = alpha this
  | Alpha =>
      red this' = red this /\ green this' = green this
      /\ blue this' = blue this /\ alpha this' = round v 2
  | Hue =>
      hue this' = round v 0 /\ saturation this' = saturation this
      /\ lightness this' = lightness this /\ alpha this' = alpha this
  | Saturation =>
      hue this' = hue this /\ saturation this' = round v 2
      /\ lightness this' = lightness this /\ alpha this' = alpha this
  | Lightness =>
      hue this' = hue this /\ saturation this' = saturation this
      /\ lightness this' = round v 2 /\ alpha this' = alpha this
  end.

(** ** Matching a rendered string *)

Fixpoint all_chars (p : ascii -> bool) (s : string) : bool :=
  match s with
  | "" => true
  | String c s' => p c && all_chars p s'
  end.

(** The string is empty or starts with a character outside the class. *)
Definition starts_outside (p : ascii -> bool) (s : string) : bool :=
  match s with
  | "" => true
  | String c _ => negb (p c)
  end.

(** The end of [RGB_HEX], from the optional alpha on. *)
Definition RGB_TAIL : Regex.t :=
  Regex.seq
    [ Regex.Opt
        (Regex.seq
           [ Regex.Chr ","; Regex.ws;
             Regex.Grp 4
               (Regex.Seq (Regex.Cls Regex.zero_one)
                  (Regex.Opt
                     (Regex.Seq (Regex.Chr ".") (Regex.Rep Str.is_digit 1 None)))) ]);
      Regex.ws; Regex.Chr ")"; Regex.Eos ].

(** The continuation that ends a match. *)
Definition accept : string -> Regex.captures -> option Regex.captures :=
  fun _ caps => Some caps.

(** A byte prints as one to three decimal digits that read back as it. *)
Definition byte_prints (n : nat) : bool :=
  match Num.show (ofZ (Z.of_nat n)) with
  | String d t =>
      Str.is_digit d && all_chars Str.is_digit t && (String.length t <=? 2)%nat
      && number_beq (Num.ofString (String d t)) (ofZ (Z.of_nat n))
  | "" => false
  end.

(** A two-decimal alpha prints as a string that reads back as it. *)
Definition alpha_prints (k : nat) : bool :=
  let a := fin (inject_Z (Z.of_nat k) / inject_Z 100) in
  number_beq (Num.ofString (Num.show a)) a.

(** * Properties *)

(** ** The repository's unit tests, replayed on the model *)

Example round_pos : round (Fin (5 # 2)) 0 = ofZ 3.
Proof. reflexivity. Qed.
Example round_neg_half : round (Fin (-1 # 2)) 0 = ofZ 0.
Proof. reflexivity. Qed.
Example round_2 : round (Fin (64 # 255)) 2 = Fin (1 # 4).
Proof. reflexivity. Qed.
Example toString_255 : Num.toString 16 (ofZ 255) = "ff".
Proof. reflexivity. Qed.
Example toString_5 : Num.toString 16 (ofZ 5) = "5".
Proof. reflexivity. Qed.
Example show_118 : Num.show (Fin (59 # 50)) = "1.18".
Proof. reflexivity. Qed.
Example show_0 : Num.show (ofZ 0) = "0".
Proof. reflexivity. Qed.
Example show_neg : Num.show (ofZ (-1)) = "-1".
Proof. reflexivity. Qed.
Example parseInt_80 : Num.parseInt16 "80" = ofZ 128.
Proof. reflexivity. Qed.
Example ofString_half : Num.ofString "0.5" = Fin (1 # 2).
Proof. reflexivity. Qed.
Example ofString_255 : Num.ofString "255" = ofZ 255.
Proof. reflexivity. Qed.
Example ofString_word : Num.ofString "rgb(1,2,3)" = NaN.
Proof. reflexivity. Qed.
Example includes_rgb : Str.includes "xrgb(" "rgb" = true /\ Str.includes "rbg(" "rgb" = false.
Proof. split; reflexivity. Qed.
Example parseHex_short : parseHex "#fff" = Ok "#FFFFFFFF".
Proof. reflexivity. Qed.
Example parseHex_4 : parseHex "#FFFF" = Throw (InvalidHexCode "#FFFF").
Proof. reflexivity. Qed.
Example hexToRgb_test :
  hexToRgb "#FF008040" = Ok (RGBA.mk (ofZ 255) (ofZ 0) (ofZ 128) (Fin (1 # 4))).
Proof. reflexivity. Qed.
Example parseRgb_test :
  parseRgb "rgb(255, 255, 255, 0.5)" = Ok (RGBA.mk (ofZ 255) (ofZ 255) (ofZ 255) (Fin (1 # 2))).
Proof. reflexivity. Qed.
Example parseRgb_neg :
  parseRgb "rgb(-1, 0, 0)" = Throw (InvalidRGBCode "rgb(-1, 0, 0)").
Proof. reflexivity. Qed.
Example rgbToHex_test : rgbToHex (ofZ 0) (ofZ 0) (ofZ 0) None = Ok "#000000FF".
Proof. reflexivity. Qed.
Example rgbToHsl_test :
  rgbToHsl (ofZ 255) (ofZ 128) (ofZ 0) None
  = Ok (HSLA.mk (ofZ 30) (ofZ 1) (Fin (1 # 2)) (ofZ 1)).
Proof. reflexivity. Qed.
Example rgbToHex_err :
  rgbToHex (ofZ 0) (ofZ 0) (ofZ 0) (Some (ofZ 2)) = Throw (InvalidRGBCode "rgba(0, 0, 0, 2)").
Proof. reflexivity. Qed.
Example parseHsl_test :
  parseHsl "hsla(0, 100%, 100%, 0.5)" = Ok (HSLA.mk (ofZ 0) (ofZ 1) (ofZ 1) (Fin (1 # 2))).
Proof. reflexivity. Qed.
Example parseHsl_360 :
  parseHsl "hsl(360, 0%, 0%)" = Throw (InvalidHSLCode "hsl(360, 0%, 0%)").
Proof. reflexivity. Qed.
Example hslToRgb_test :
  hslToRgb (ofZ 0) (ofZ 0) (ofZ 1) (Some (Fin (1 # 2)))
  = Ok (RGBA.mk (ofZ 255) (ofZ 255) (ofZ 255) (Fin (1 # 2))).
Proof. reflexivity. Qed.
Example hslToRgb_orange :
  hslToRgb (ofZ 30) (ofZ 1) (Fin (1 # 2)) None
  = Ok (RGBA.mk (ofZ 255) (ofZ 128) (ofZ 0) (ofZ 1)).
Proof. reflexivity. Qed.
Example validateHsl_err :
  validateHsl (ofZ 0) (Fin (3 # 2)) (ofZ 0) None
  = Throw (InvalidHSLCode "hsl(0, 150%, 0%)").
Proof. reflexivity. Qed.
Example white_attrs :
  Color.white
  = Ok (mkColor "#FFFFFFFF" (ofZ 255) (ofZ 255) (ofZ 255) (ofZ 0) (ofZ 0) (ofZ 1) (ofZ 1)).
Proof. reflexivity. Qed.
Example new_rgb_red :
  Color.new "rgb(255, 0, 0)"
  = Ok (mkColor "#FF0000FF" (ofZ 255) (ofZ 0) (ofZ 0) (ofZ 0) (ofZ 1) (Fin (1 # 2)) (ofZ 1)).
Proof. reflexivity. Qed.
Example new_hsl_blue :
  Color.new "hsla(240, 100%, 50%, 1)"
  = Ok (mkColor "#0000FFFF" (ofZ 0) (ofZ 0) (ofZ 255) (ofZ 240) (ofZ 1) (Fin (1 # 2)) (ofZ 1)).
Proof. reflexivity. Qed.
Example new_misspelled : Color.new "rbg(0, 0, 0)" = Throw (InvalidColor "rbg(0, 0, 0)").
Proof. reflexivity. Qed.
Example white_to_gray :
  (c <- Color.white ;; Color.updated c (Color.set_lightness (Fin (1 # 2))))
  = Color.new "#808080".
Proof. reflexivity. Qed.
Example white_to_green :
  (c <- Color.white ;; c <- Color.updated c (Color.set_red (ofZ 0)) ;;
   Color.updated c (Color.set_blue (ofZ 0)))
  = Color.new "#00FF00".
Proof. reflexivity. Qed.
Example rgb_transparent :
  Color.rgb (ofZ 0) (ofZ 0) (ofZ 0) (Some (ofZ 0))
  = Ok (mkColor "#00000000" (ofZ 0) (ofZ 0) (ofZ 0) (ofZ 0) (ofZ 0) (ofZ 0) (ofZ 0)).
Proof. reflexivity. Qed.

(** ** Arithmetic of the number model *)

Section NumberFacts.

Local Open Scope Q_scope.

Lemma Qred_inject_Z (z : Z) : Qred (inject_Z z) = inject_Z z.
Proof.
  unfold Qred, inject_Z.
  generalize (Z.ggcd_gcd z 1) (Z.ggcd_correct_divisors z 1).
  destruct (Z.ggcd z 1) as (g, (a, b)); simpl.
  intros Hg [Ha Hb].
  rewrite Z.gcd_1_r in Hg; subst g.
  rewrite Z.mul_1_l in Ha, Hb; subst a b.
  reflexivity.
Qed.

Lemma fin_ofZ (z : Z) : fin (inject_Z z) = ofZ z.
Proof. unfold fin, ofZ. now rewrite Qred_inject_Z. Qed.

Lemma fin_ext (p q : Q) : p == q -> fin p = fin q.
Proof. intros H; unfold fin; f_equal; now apply Qred_complete. Qed.

Lemma pow10 (d : nat) : (ofZ 10 ** d)%js = ofZ (10 ^ Z.of_nat d).
Proof.
  induction d as [|d IH].
  - reflexivity.
  - change (ofZ 10 ** S d)%js with (JS.mul (ofZ 10 ** d)%js (ofZ 10)).
    rewrite IH.
    rewrite <- (fin_ofZ (10 ^ Z.of_nat (S d))).
    unfold JS.mul, ofZ. apply fin_ext.
    rewrite Nat2Z.inj_succ, Z.pow_succ_r by lia.
    unfold Qeq, Qmult, inject_Z; cbn [Qnum Qden]. lia.
Qed.

Lemma Qzero_pow10 (d : nat) : Qzero (inject_Z (10 ^ Z.of_nat d)) = false.
Proof.
  unfold Qzero; simpl. apply Z.eqb_neq.
  apply Z.pow_nonzero; lia.
Qed.

(** [round] on a finite value, in closed form. *)
Lemma round_fin (q : Q) (d : nat) :
  round (Fin q) d
  = fin (inject_Z (Qfloor (q * inject_Z (10 ^ Z.of_nat d) + (1 # 2)))
         / inject_Z (10 ^ Z.of_nat d)).
Proof.
  unfold round. rewrite pow10.
  unfold JS.mul, ofZ, Math.round, fin.
  rewrite (Qfloor_comp _ (q * inject_Z (10 ^ Z.of_nat d) + (1 # 2))).
  2:{ now rewrite Qred_correct. }
  rewrite Qred_inject_Z.
  unfold JS.div. rewrite Qzero_pow10. reflexivity.
Qed.

Lemma round_guarded_eq (a : number) (d : nat) : round_guarded a d = round a d.
Proof. destruct d; reflexivity. Qed.

Lemma Math_round_fin (q : Q) : Math.round (Fin q) = ofZ (Qfloor (q + (1 # 2))).
Proof. unfold Math.round. apply fin_ofZ. Qed.

End NumberFacts.

(** ** Binary64 rounding *)

Section Binary64.

Local Open Scope Q_scope.

Lemma pow2_pos (e : Z) : 0 < Double.pow2 e.
Proof. apply Qpower_0_lt. reflexivity. Qed.

Lemma pow2_add (a b : Z) : Double.pow2 (a + b) == Double.pow2 a * Double.pow2 b.
Proof. apply Qpower_plus. discriminate. Qed.

Lemma pow2_le (a b : Z) : (a <= b)%Z -> Double.pow2 a <= Double.pow2 b.
Proof. intros H. apply Qpower_le_compat_l; [exact H | discriminate]. Qed.

Lemma pow2_lt_inv (a b : Z) : Double.pow2 a < Double.pow2 b -> (a < b)%Z.
Proof. intros H. apply (Qpower_lt_compat_l_inv 2); [exact H | reflexivity]. Qed.

Lemma pow2_Z (e : Z) : (0 <= e)%Z -> Double.pow2 e == inject_Z (2 ^ e).
Proof. intros H. unfold Double.pow2. now rewrite Zpower_Qpower. Qed.

(** The binade of a non-zero rational. *)
Lemma ilog2_spec (q : Q) :
  ~ q == 0 ->
  Double.pow2 (Double.ilog2 q) <= Qabs q
  /\ Qabs q < Double.pow2 (Double.ilog2 q + 1).
Proof.
  intros Hq. destruct q as [n d].
  assert (Ha : (0 < Z.abs n)%Z).
  { unfold Qeq in Hq. cbn [Qnum Qden] in Hq. lia. }
  destruct (Z.log2_spec _ Ha) as [Ha1 Ha2].
  destruct (Z.log2_spec (Zpos d) eq_refl) as [Hd1 Hd2].
  pose proof (Z.log2_nonneg (Z.abs n)) as Hla.
  pose proof (Z.log2_nonneg (Zpos d)) as Hlb.
  set (la := Z.log2 (Z.abs n)) in *. set (lb := Z.log2 (Zpos d)) in *.
  set (Y := Qabs (n # d)).
  assert (HY : Y * inject_Z (Zpos d) == inject_Z (Z.abs n)).
  { unfold Y, Qabs, Qeq, Qmult, inject_Z. cbn [Qnum Qden]. lia. }
  assert (HD : 0 < inject_Z (Zpos d)) by reflexivity.
  assert (Hlow : Double.pow2 (la - lb - 1) <= Y).
  { pose proof (pow2_pos (la - lb - 1)) as HX.
    assert (E : Double.pow2 (la - lb - 1) * Double.pow2 (lb + 1) == inject_Z (2 ^ la)).
    { rewrite <- pow2_add, <- pow2_Z by lia. now replace (la - lb - 1 + (lb + 1))%Z with la by lia. }
    assert (H1 : inject_Z (2 ^ la) <= inject_Z (Z.abs n)) by (rewrite <- Zle_Qle; lia).
    assert (H2 : inject_Z (Zpos d) <= Double.pow2 (lb + 1)).
    { rewrite pow2_Z by lia. rewrite <- Zle_Qle. unfold Z.succ in Hd2. lia. }
    nra. }
  assert (Hup : Y < Double.pow2 (la - lb + 1)).
  { pose proof (pow2_pos (la - lb + 1)) as HX.
    assert (E : Double.pow2 (la - lb + 1) * Double.pow2 lb == inject_Z (2 ^ (la + 1))).
    { rewrite <- pow2_add, <- pow2_Z by lia. now replace (la - lb + 1 + lb)%Z with (la + 1)%Z by lia. }
    assert (H1 : inject_Z (Z.abs n) < inject_Z (2 ^ (la + 1))).
    { rewrite <- Zlt_Qlt. unfold Z.succ in Ha2. lia. }
    assert (H2 : Double.pow2 lb <= inject_Z (Zpos d)).
    { rewrite pow2_Z by lia. rewrite <- Zle_Qle. lia. }
    pose proof (pow2_pos lb).
    nra. }
  unfold Double.ilog2. cbn [Qnum Qden]. fold la lb. fold Y.
  destruct (Qle_bool (Double.pow2 (la - lb)) Y) eqn:T.
  - apply Qle_bool_iff in T. split; [exact T | exact Hup].
  - split; [exact Hlow|].
    replace (la - lb - 1 + 1)%Z with (la - lb)%Z by lia.
    apply Qnot_le_lt. intros H. apply Qle_bool_iff in H. congruence.
Qed.

Lemma nearest_even_Z (q : Q) (z : Z) : q == inject_Z z -> Double.nearest_even q = z.
Proof.
  intros E. unfold Double.nearest_even.
  rewrite (Qfloor_comp _ _ E), Qfloor_Z.
  assert (H : q - inject_Z z < 1 # 2) by (rewrite E; lra).
  destruct (Qcompare_spec (q - inject_Z z) (1 # 2)) as [C | C | C];
    [rewrite C in H; discriminate | reflexivity | lra].
Qed.

Lemma Qzero_iff (q : Q) : Qzero q = true <-> q == 0.
Proof.
  unfold Qzero, Qeq. cbn [Qnum Qden]. rewrite Z.eqb_eq. lia.
Qed.

Lemma fin_zero (q : Q) : q == 0 -> fin q = Fin 0.
Proof. intros E. unfold fin. now rewrite (Qred_complete _ _ E). Qed.

(** A rational [m * 2^e] with a 53-bit [m] and an exponent in range is a
    double: rounding leaves it alone. *)
Lemma rn_representable (q : Q) (m e : Z) :
  q == inject_Z m * Double.pow2 e ->
  (Z.abs m < 2 ^ 53)%Z -> (-1074 <= e <= 971)%Z ->
  Double.rn q = fin q.
Proof.
  intros Eq Hm He. unfold Double.rn.
  destruct (Qzero q) eqn:Z0.
  { apply Qzero_iff in Z0. now rewrite fin_zero. }
  assert (Hq : ~ q == 0).
  { intros H. apply Qzero_iff in H. congruence. }
  destruct (ilog2_spec q Hq) as [Hlo _].
  assert (Habs : Qabs q == inject_Z (Z.abs m) * Double.pow2 e).
  { rewrite Eq, Qabs_Qmult, (Qabs_pos (Double.pow2 e)) by (apply Qlt_le_weak, pow2_pos).
    apply Qmult_comp; [|reflexivity].
    unfold Qabs, inject_Z. reflexivity. }
  assert (Hlt : Qabs q < Double.pow2 (53 + e)).
  { rewrite Habs, pow2_add, (pow2_Z 53) by lia.
    apply Qmult_lt_compat_r; [apply pow2_pos|].
    rewrite <- Zlt_Qlt. exact Hm. }
  assert (HL : (Double.ilog2 q < 53 + e)%Z).
  { apply pow2_lt_inv. eapply Qle_lt_trans; eauto. }
  set (E := Z.max (Double.ilog2 q - 52) (-1074)).
  assert (HE : (E <= e)%Z) by (unfold E; lia).
  assert (Hint : q / Double.pow2 E == inject_Z (m * 2 ^ (e - E))).
  { rewrite Eq. replace e with ((e - E) + E)%Z at 1 by lia.
    rewrite pow2_add, (pow2_Z (e - E)) by lia.
    rewrite inject_Z_mult. field.
    pose proof (pow2_pos E). lra. }
  rewrite (nearest_even_Z _ _ Hint).
  assert (Ev : inject_Z (m * 2 ^ (e - E)) * Double.pow2 E == q).
  { rewrite <- Hint. field. pose proof (pow2_pos E). lra. }
  assert (Hov : Qle_bool (Double.pow2 1024) (Qabs (inject_Z (m * 2 ^ (e - E)) * Double.pow2 E))
                = false).
  { destruct (Qle_bool _ _) eqn:T; [|reflexivity].
    apply Qle_bool_iff in T. rewrite Ev in T.
    pose proof (pow2_le (53 + e) 1024 ltac:(lia)). lra. }
  rewrite Hov. unfold fin. now rewrite (Qred_complete _ _ Ev).
Qed.

(** A double is an integer or lies strictly between [-2^52] and [2^52]. *)
Lemma double_cases (q : Q) :
  Double.rn q = Fin q ->
  Qabs q < Double.pow2 52 \/ exists N : Z, q == inject_Z N.
Proof.
  unfold Double.rn. destruct (Qzero q) eqn:Z0.
  { intros _. left. apply Qzero_iff in Z0. rewrite Z0. apply pow2_pos. }
  assert (Hq : ~ q == 0).
  { intros H. apply Qzero_iff in H. congruence. }
  destruct (ilog2_spec q Hq) as [_ Hup].
  set (E := Z.max (Double.ilog2 q - 52) (-1074)).
  set (m := Double.nearest_even (q / Double.pow2 E)).
  destruct (Qle_bool _ _); [discriminate|].
  intros H0.
  assert (H : Qred (inject_Z m * Double.pow2 E) = q) by (unfold fin in H0; congruence).
  assert (Ev : q == inject_Z m * Double.pow2 E).
  { rewrite <- H at 1. apply Qred_correct. }
  destruct (Z_lt_le_dec E 0) as [Hneg | Hpos].
  - left. eapply Qlt_le_trans; [exact Hup|]. apply pow2_le. unfold E in Hneg. lia.
  - right. exists (m * 2 ^ E)%Z. rewrite Ev, inject_Z_mult, pow2_Z by lia. reflexivity.
Qed.

Lemma double_canonical (q : Q) : Double.rn q = Fin q -> Qred q = q.
Proof.
  unfold Double.rn. destruct (Qzero q) eqn:Z0.
  { intros [= <-]. reflexivity. }
  set (v := inject_Z _ * _).
  destruct (Qle_bool _ _); [discriminate|].
  intros H0.
  assert (H : Qred v = q) by (unfold fin in H0; congruence).
  rewrite <- H. apply Qred_complete, Qred_correct.
Qed.

(** [Math.round] of a double is a double. *)
Lemma Math_round_double (q : Q) :
  Double.rn q = Fin q ->
  Double.rn (inject_Z (Qfloor (q + (1 # 2)))) = Fin (inject_Z (Qfloor (q + (1 # 2)))).
Proof.
  intros Hd. destruct (double_cases q Hd) as [Hsmall | [N HN]].
  - rewrite (rn_representable _ (Qfloor (q + (1 # 2))) 0); try lia.
    + unfold fin. now rewrite Qred_inject_Z.
    + change (Double.pow2 0) with 1. ring.
    + change (Double.pow2 52) with (inject_Z (2 ^ 52)) in Hsmall.
      apply Qabs_Qlt_condition in Hsmall as [H1 H2].
      pose proof (Qfloor_le (q + (1 # 2))) as Hlo.
      pose proof (Qlt_floor (q + (1 # 2))) as Hhi.
      assert (B1 : inject_Z (Qfloor (q + (1 # 2))) < inject_Z (2 ^ 52 + 1)).
      { rewrite inject_Z_plus. change (inject_Z 1) with 1. lra. }
      assert (B2 : inject_Z (- 2 ^ 52) < inject_Z (Qfloor (q + (1 # 2)) + 1)).
      { change (inject_Z (- 2 ^ 52)) with (- inject_Z (2 ^ 52)). lra. }
      rewrite <- Zlt_Qlt in B1, B2. lia.
  - assert (F : Qfloor (q + (1 # 2)) = N).
    { rewrite (Qfloor_comp _ (inject_Z N + (1 # 2))) by (now rewrite HN).
      pose proof (Qfloor_le (inject_Z N + (1 # 2))) as Hlo.
      pose proof (Qlt_floor (inject_Z N + (1 # 2))) as Hhi.
      set (f := Qfloor (inject_Z N + (1 # 2))) in *.
      assert (B1 : inject_Z f < inject_Z (N + 1)).
      { rewrite inject_Z_plus. change (inject_Z 1) with 1. lra. }
      assert (B2 : inject_Z N < inject_Z (f + 1)) by lra.
      rewrite <- Zlt_Qlt in B1, B2. lia. }
    rewrite F.
    assert (Eq : q = inject_Z N).
    { rewrite <- (double_canonical q Hd), <- (Qred_inject_Z N). now apply Qred_complete. }
    now rewrite <- Eq.
Qed.

(** With the decimals omitted, [round] is [Math.round] on every double. *)
Lemma round_0_double (a : number) :
  Double.rounded a = a -> Double.round a 0 = Math.round a.
Proof.
  destruct a as [| s | q]; [reflexivity | now destruct s |].
  cbn [Double.rounded]. intros Hd.
  unfold Double.round.
  change (Double.pow (ofZ 10) 0) with (Fin 1).
  assert (E1 : Double.mul (Fin q) (Fin 1) = Fin q).
  { unfold Double.mul. cbn [JS.mul Double.rounded]. unfold fin.
    rewrite (Qred_complete (q * 1) q) by ring.
    now rewrite (double_canonical q Hd). }
  rewrite E1. cbn [Math.round]. unfold fin at 1. rewrite Qred_inject_Z.
  unfold Double.div. cbn [JS.div]. change (Qzero 1) with false. cbv iota.
  cbn [Double.rounded]. unfold fin.
  rewrite (Qred_complete (inject_Z (Qfloor (q + (1 # 2))) / 1) (inject_Z (Qfloor (q + (1 # 2)))))
    by field.
  rewrite !Qred_inject_Z. now apply Math_round_double.
Qed.

Lemma ilog2_unique (q : Q) (l : Z) :
  Double.pow2 l <= Qabs q -> Qabs q < Double.pow2 (l + 1) -> Double.ilog2 q = l.
Proof.
  intros Hlo Hup.
  assert (Hq : ~ q == 0).
  { intros H. rewrite H in Hlo. pose proof (pow2_pos l). change (Qabs 0) with 0 in Hlo. lra. }
  destruct (ilog2_spec q Hq) as [Hlo' Hup'].
  assert (H1 : (Double.ilog2 q < l + 1)%Z).
  { apply pow2_lt_inv. eapply Qle_lt_trans; eauto. }
  assert (H2 : (l < Double.ilog2 q + 1)%Z).
  { apply pow2_lt_inv. eapply Qle_lt_trans; eauto. }
  lia.
Qed.

Lemma Qneg_comp (q q' : Q) : q == q' -> Qneg q = Qneg q'.
Proof.
  unfold Qneg, Qeq. intros H.
  destruct (Z.ltb_spec (Qnum q) 0), (Z.ltb_spec (Qnum q') 0); trivial; nia.
Qed.

(** Rounding depends on the value only, not on the fraction that carries it. *)
Lemma rn_comp (q q' : Q) : q == q' -> Double.rn q = Double.rn q'.
Proof.
  intros E. unfold Double.rn.
  destruct (Qzero q) eqn:Z0, (Qzero q') eqn:Z0'; trivial.
  - apply Qzero_iff in Z0. rewrite E in Z0. apply Qzero_iff in Z0. congruence.
  - apply Qzero_iff in Z0'. rewrite <- E in Z0'. apply Qzero_iff in Z0'. congruence.
  - assert (Hq : ~ q == 0).
    { intros H. apply Qzero_iff in H. congruence. }
    destruct (ilog2_spec q Hq) as [Hlo Hup].
    assert (EL : Double.ilog2 q' = Double.ilog2 q).
    { apply ilog2_unique; now rewrite <- E. }
    rewrite EL.
    set (e := Z.max (Double.ilog2 q - 52) (-1074)).
    assert (EN : Double.nearest_even (q' / Double.pow2 e)
                 = Double.nearest_even (q / Double.pow2 e)).
    { unfold Double.nearest_even.
      assert (Ed : q' / Double.pow2 e == q / Double.pow2 e) by (now rewrite E).
      rewrite (Qfloor_comp _ _ Ed).
      now rewrite (Qcompare_comp _ _ (Qminus_comp _ _ Ed _ _ (Qeq_refl _)) _ _ (Qeq_refl (1 # 2))). }
    rewrite EN, (Qneg_comp _ _ E). reflexivity.
Qed.

Lemma rounded_fin (q : Q) : Double.rounded (fin q) = Double.rn q.
Proof. cbn [Double.rounded fin]. unfold fin. apply rn_comp, Qred_correct. Qed.

(** [10 ** d] is exact up to [d = 22]. *)
Lemma pow10_double (d : nat) :
  (d <= 22)%nat -> Double.pow (ofZ 10) d = ofZ (10 ^ Z.of_nat d).
Proof.
  intros H.
  do 23 (destruct d as [|d]; [vm_compute; reflexivity|]).
  lia.
Qed.

End Binary64.

(** ** Numeric helpers *)

Section Rounding.

Local Open Scope Q_scope.

Lemma floor_half_bounds (x : Q) :
  inject_Z (Qfloor (x + (1 # 2))) - (1 # 2) <= x
  /\ x < inject_Z (Qfloor (x + (1 # 2))) + (1 # 2).
Proof.
  pose proof (Qfloor_le (x + (1 # 2))) as Hlo.
  pose proof (Qlt_floor (x + (1 # 2))) as Hhi.
  rewrite inject_Z_plus in Hhi.
  change (inject_Z 1) with 1 in Hhi.
  split; lra.
Qed.

Lemma half_away_nonneg (q : Q) (d : nat) :
  0 <= q ->
  round_half_away_from_zero q d
  == inject_Z (Qfloor (q * inject_Z (10 ^ Z.of_nat d) + (1 # 2)))
     / inject_Z (10 ^ Z.of_nat d).
Proof.
  intros Hq. unfold round_half_away_from_zero.
  rewrite (Qfloor_comp (Qabs q * _ + _) (q * inject_Z (10 ^ Z.of_nat d) + (1 # 2))).
  2:{ now rewrite Qabs_pos. }
  assert (Hn : (0 <= Qnum q)%Z).
  { unfold Qle in Hq; simpl in Hq. lia. }
  destruct (Z.eq_dec (Qnum q) 0) as [H0 | Hpos].
  - assert (Hq0 : q == 0) by (unfold Qeq; simpl; lia).
    rewrite H0. cbn [Z.sgn Z.mul].
    rewrite (Qfloor_comp (q * _ + _) (1 # 2)).
    2:{ rewrite Hq0. ring. }
    reflexivity.
  - rewrite (Z.sgn_pos (Qnum q)) by lia.
    now rewrite Z.mul_1_l.
Qed.

Lemma Qneg_pow10 (d : nat) : Qneg (inject_Z (10 ^ Z.of_nat d)) = false.
Proof.
  unfold Qneg; simpl. apply Z.ltb_ge. apply Z.pow_nonneg. lia.
Qed.

Lemma pow10_not_zero (d : nat) : Qzero (inject_Z (10 ^ Z.of_nat d)) = false.
Proof.
  unfold Qzero, inject_Z. cbn [Qnum]. apply Z.eqb_neq.
  pose proof (Z.pow_pos_nonneg 10 (Z.of_nat d)). lia.
Qed.

Lemma half_away_0 (q : Q) :
  0 <= q -> fin (round_half_away_from_zero q 0) = ofZ (Qfloor (q + (1 # 2))).
Proof.
  intros Hq. rewrite <- fin_ofZ. apply fin_ext.
  rewrite (half_away_nonneg q 0 Hq).
  change (inject_Z (10 ^ Z.of_nat 0)) with 1.
  rewrite (Qfloor_comp (q * 1 + (1 # 2)) (q + (1 # 2))) by ring.
  field.
Qed.

(** C10 (amended).  [round(value, decimals)] is
    [Math.round(value * 10 ** decimals) / 10 ** decimals] in double
    arithmetic.  For a double [value] and [decimals <= 22] (where
    [10 ** decimals] is exact): when the double product
    [value * 10 ** decimals] is finite, the result is the double nearest to
    [n / 10 ** decimals], where [n] is the integer nearest to that product, a
    tie going toward +Infinity; when the product overflows, the result is
    that infinity.  With [decimals = 0] nothing is rounded off along the way:
    the result is exactly the integer nearest to the value, a tie going
    toward +Infinity, so it is integer-valued, and for a non-negative value
    it is the value rounded half away from zero. *)
Theorem round_half_up (q : Q) (decimals : nat) :
  Double.rn q = Fin q -> (decimals <= 22)%nat ->
  (forall p : Q,
     Double.mul (Fin q) (ofZ (10 ^ Z.of_nat decimals)) = Fin p ->
     exists n : Z,
       (inject_Z n - (1 # 2) <= p /\ p < inject_Z n + (1 # 2))
       /\ Double.round (Fin q) decimals
          = Double.rn (inject_Z n / inject_Z (10 ^ Z.of_nat decimals)))
  /\ (forall s : bool,
        Double.mul (Fin q) (ofZ (10 ^ Z.of_nat decimals)) = Infinity s ->
        Double.round (Fin q) decimals = Infinity s)
  /\ (exists n : Z,
        (inject_Z n - (1 # 2) <= q /\ q < inject_Z n + (1 # 2))
        /\ Double.round (Fin q) 0 = ofZ n)
  /\ integer_valued (Double.round (Fin q) 0)
  /\ (0 <= q -> Double.round (Fin q) 0 = fin (round_half_away_from_zero q 0)).
Proof.
  intros Hd Hdec.
  assert (H0 : Double.round (Fin q) 0 = ofZ (Qfloor (q + (1 # 2)))).
  { rewrite (round_0_double (Fin q) Hd). cbn [Math.round]. apply fin_ofZ. }
  split; [|split; [|split; [|split]]].
  - intros p Hp. exists (Qfloor (p + (1 # 2))).
    split; [apply floor_half_bounds|].
    unfold Double.round. rewrite (pow10_double decimals Hdec), Hp.
    cbn [Math.round]. rewrite fin_ofZ. unfold Double.div, ofZ. cbn [JS.div].
    rewrite pow10_not_zero, rounded_fin.
    reflexivity.
  - intros s Hs. unfold Double.round. rewrite (pow10_double decimals Hdec), Hs.
    cbn [Math.round]. unfold Double.div, ofZ. cbn [JS.div Double.rounded].
    now rewrite Qneg_pow10, xorb_false_r.
  - exists (Qfloor (q + (1 # 2))). split; [apply floor_half_bounds | exact H0].
  - exists (Qfloor (q + (1 # 2))). exact H0.
  - intros Hq. rewrite H0. symmetry. now apply half_away_0.
Qed.

Lemma round_half_up_witness :
  Double.round (Fin (5 # 2)) 0 = fin (round_half_away_from_zero (5 # 2) 0).
Proof.
  assert (Hd : Double.rn (5 # 2) = Fin (5 # 2)) by (vm_compute; reflexivity).
  assert (Hdec : (0 <= 22)%nat) by lia.
  assert (Hq : 0 <= 5 # 2) by (unfold Qle; simpl; lia).
  exact (proj2 (proj2 (proj2 (proj2 (round_half_up (5 # 2) 0 Hd Hdec)))) Hq).
Defined.

(** C10 (as stated) fails in two ways.  A tie does not go away from zero:
    [round(-0.5)] is [0], where rounding half away from zero gives [-1].
    And with decimals the result need not be the multiple nearest to the
    value: the double written [0.015] lies below [3/200], so its nearest
    hundredth is [0.01] under any tie rule, yet its product with [100] is
    the double [1.5] and [round(0.015, 2)] is [0.02]. *)
Lemma round_minus_half_counterexample :
  (Double.rn (-1 # 2) = Fin (-1 # 2)
   /\ Double.round (Fin (-1 # 2)) 0 = ofZ 0
   /\ fin (round_half_away_from_zero (-1 # 2) 0) = ofZ (-1)
   /\ Double.round (Fin (-1 # 2)) 0 <> fin (round_half_away_from_zero (-1 # 2) 0))
  /\ (Double.rn (15 # 1000) = Fin (1080863910568919 # 72057594037927936)
      /\ 1080863910568919 # 72057594037927936 < 15 # 1000
      /\ Double.mul (Fin (1080863910568919 # 72057594037927936)) (ofZ 100) = Fin (3 # 2)
      /\ Double.round (Fin (1080863910568919 # 72057594037927936)) 2 = Double.rn (2 # 100)
      /\ fin (round_half_away_from_zero (1080863910568919 # 72057594037927936) 2)
         = Fin (1 # 100)).
Proof.
  split.
  - split; [vm_compute; reflexivity|]. split; [vm_compute; reflexivity|].
    split; [reflexivity|]. intros H. vm_compute in H. discriminate.
  - repeat split; vm_compute; reflexivity.
Qed.

(** Further values of [round] with two decimals: a negative tie goes up,
    [1.005] (a double below [201/200]) goes down, and a product beyond the
    double range gives an infinity. *)
Example round_two_decimals :
  Double.round (Double.rn (-125 # 1000)) 2 = Double.rn (-12 # 100)
  /\ Double.round (Double.rn (1005 # 1000)) 2 = ofZ 1
  /\ Double.round (Double.rn (inject_Z (10 ^ 308))) 2 = Infinity false.
Proof. repeat split; vm_compute; reflexivity. Qed.

End Rounding.

(** ** Validation and the byte-level codec *)

Lemma forallb_below (f : nat -> bool) (N : nat) :
  forallb f (List.seq 0 N) = true -> forall k, (k < N)%nat -> f k = true.
Proof.
  intros H k Hk. rewrite forallb_forall in H.
  apply H, in_seq. lia.
Qed.

Lemma toUpperCase_app (s t : string) :
  Str.toUpperCase (s ++ t) = Str.toUpperCase s ++ Str.toUpperCase t.
Proof. induction s as [|c s IH]; simpl; [reflexivity | now rewrite IH]. Qed.

Lemma string_app_nil (s : string) : s ++ "" = s.
Proof. induction s as [|c s IH]; simpl; [reflexivity | now rewrite IH]. Qed.

Lemma string_app_assoc (s t u : string) : (s ++ t) ++ u = s ++ (t ++ u).
Proof. induction s as [|c s IH]; simpl; [reflexivity | now rewrite IH]. Qed.

Lemma string_app_length (s t : string) :
  String.length (s ++ t) = (String.length s + String.length t)%nat.
Proof. induction s as [|c s IH]; simpl; [reflexivity | now rewrite IH]. Qed.

Lemma validateRgb_ok (r g b : number) (a : option number) :
  in_range r (ofZ 0) (ofZ 255) -> in_range g (ofZ 0) (ofZ 255) ->
  in_range b (ofZ 0) (ofZ 255) -> alpha_accepted a ->
  validateRgb r g b a
  = Ok (RGBA.mk (Math.round r) (Math.round g) (Math.round b) (defaultAlpha a)).
Proof.
  unfold in_range, alpha_accepted, validateRgb. intros Hr Hg Hb Ha.
  cbn [check_each]. rewrite Hr, Hg, Hb, Ha. reflexivity.
Qed.

Lemma validateRgb_inv (r g b : number) (a : option number) (x : RGBA.t) :
  validateRgb r g b a = Ok x ->
  in_range r (ofZ 0) (ofZ 255) /\ in_range g (ofZ 0) (ofZ 255)
  /\ in_range b (ofZ 0) (ofZ 255) /\ alpha_accepted a
  /\ x = RGBA.mk (Math.round r) (Math.round g) (Math.round b) (defaultAlpha a).
Proof.
  unfold in_range, alpha_accepted, validateRgb. cbn [check_each].
  destruct (out_of_range r _ _); [discriminate|].
  destruct (out_of_range g _ _); [discriminate|].
  destruct (out_of_range b _ _); [discriminate|].
  destruct (provided_truthy a && _); [discriminate|].
  cbn. intros [= <-]. repeat split.
Qed.

Lemma validateRgb_throws (r g b : number) (a : option number) (e : ColorError) :
  validateRgb r g b a = Throw e -> exists w, e = InvalidRGBCode w.
Proof.
  unfold validateRgb. cbn [check_each].
  destruct (out_of_range r _ _); [cbn; intros [= <-]; eauto|].
  destruct (out_of_range g _ _); [cbn; intros [= <-]; eauto|].
  destruct (out_of_range b _ _); [cbn; intros [= <-]; eauto|].
  destruct (provided_truthy a && _); [cbn; intros [= <-]; eauto|].
  discriminate.
Qed.

Lemma validateHsl_inv (h s l : number) (a : option number) (x : HSLA.t) :
  validateHsl h s l a = Ok x ->
  x = HSLA.mk (round h 0) (round s 2) (round l 2) (defaultAlpha a).
Proof.
  unfold validateHsl.
  destruct (isNaN h || _ || _)%js; [discriminate|].
  destruct (out_of_range s _ _); [discriminate|].
  destruct (out_of_range l _ _); [discriminate|].
  destruct (provided_truthy a && _); [discriminate|].
  cbn. now intros [= <-].
Qed.

Lemma validateHsl_throws (h s l : number) (a : option number) (e : ColorError) :
  validateHsl h s l a = Throw e -> exists w, e = InvalidHSLCode w.
Proof.
  unfold validateHsl.
  destruct (isNaN h || _ || _)%js; [cbn; intros [= <-]; eauto|].
  destruct (out_of_range s _ _); [cbn; intros [= <-]; eauto|].
  destruct (out_of_range l _ _); [cbn; intros [= <-]; eauto|].
  destruct (provided_truthy a && _); [cbn; intros [= <-]; eauto|].
  discriminate.
Qed.

(** A validated channel is an integer between 0 and 255. *)
Lemma channel_round (r : number) :
  in_range r (ofZ 0) (ofZ 255) ->
  exists n : Z, 0 <= n <= 255 /\ Math.round r = ofZ n.
Proof.
  unfold in_range, out_of_range. destruct r as [| s | q]; try discriminate.
  - destruct s; discriminate.
  - cbn [isNaN orb JS.ltb JS.gtb ofZ]. intros H.
    apply orb_false_iff in H as [H0 H255].
    apply negb_false_iff, Qle_bool_iff in H0, H255.
    change (inject_Z 0) with 0%Q in H0. change (inject_Z 255) with 255%Q in H255.
    exists (Qfloor (q + (1 # 2))). split; [|apply Math_round_fin].
    destruct (floor_half_bounds q) as [Hlo Hhi].
    split.
    + change 0 with (Qfloor 0). apply Qfloor_resp_le. lra.
    + assert (Hlt : (inject_Z (Qfloor (q + (1 # 2))) < inject_Z 256)%Q).
      { change (inject_Z 256) with 256%Q. lra. }
      rewrite <- Zlt_Qlt in Hlt. lia.
Qed.

Lemma channel_ofZ (n : Z) :
  0 <= n <= 255 ->
  in_range (ofZ n) (ofZ 0) (ofZ 255) /\ Math.round (ofZ n) = ofZ n.
Proof.
  intros Hn. split.
  - unfold in_range, out_of_range, ofZ. cbn [isNaN orb JS.ltb JS.gtb].
    apply orb_false_iff; split; apply negb_false_iff, Qle_bool_iff;
      rewrite <- Zle_Qle; lia.
  - unfold ofZ at 1. rewrite Math_round_fin. f_equal.
    rewrite <- (Qfloor_Z n) at 2.
    apply Z.le_antisymm.
    + assert (H : (inject_Z (Qfloor (inject_Z n + (1 # 2))) < inject_Z (n + 1))%Q).
      { pose proof (Qfloor_le (inject_Z n + (1 # 2))).
        rewrite inject_Z_plus. change (inject_Z 1) with 1%Q. lra. }
      rewrite <- Zlt_Qlt in H. rewrite Qfloor_Z. lia.
    + apply Qfloor_resp_le. lra.
Qed.

Lemma hex2_length (n : Z) :
  0 <= n <= 255 -> String.length (Str.toUpperCase (hex2 (ofZ n))) = 2%nat.
Proof.
  intros Hn.
  assert (H : forall k, (k < 256)%nat ->
            (String.length (Str.toUpperCase (hex2 (ofZ (Z.of_nat k)))) =? 2)%nat = true).
  { apply forallb_below. vm_compute. reflexivity. }
  specialize (H (Z.to_nat n) ltac:(lia)).
  rewrite Z2Nat.id in H by lia. now apply Nat.eqb_eq.
Qed.

Lemma rgbToHex_ok (r g b : number) (a : option number) (x : RGBA.t) :
  validateRgb r g b a = Ok x ->
  rgbToHex r g b a
  = Ok ("#" ++ Str.toUpperCase (hex2 (RGBA.red x))
            ++ Str.toUpperCase (hex2 (RGBA.green x))
            ++ Str.toUpperCase (hex2 (RGBA.blue x))
            ++ Str.toUpperCase (hex2 (Math.round (RGBA.alpha x * ofZ 255)%js))).
Proof.
  intros H. unfold rgbToHex. rewrite H. cbn [bind map Str.join fold_right].
  rewrite !toUpperCase_app. cbn [Str.toUpperCase]. now rewrite string_app_nil.
Qed.

Lemma rgbToHex_inv (r g b : number) (a : option number) (w : string) :
  rgbToHex r g b a = Ok w -> exists x, validateRgb r g b a = Ok x.
Proof.
  unfold rgbToHex. destruct (validateRgb r g b a) as [x|e]; [eauto|discriminate].
Qed.

(** Once validation passes, [rgbToHsl] returns; only the returned alpha
    depends on the alpha passed in. *)
Lemma rgbToHsl_ok (r g b : number) (a : option number) (x : RGBA.t) :
  validateRgb r g b a = Ok x ->
  exists h s l,
    rgbToHsl r g b a = Ok (HSLA.mk h s l (RGBA.alpha x))
    /\ rgbToHsl r g b None = Ok (HSLA.mk h s l (ofZ 1)).
Proof.
  intros H. apply validateRgb_inv in H as (Hr & Hg & Hb & Ha & ->).
  unfold rgbToHsl.
  rewrite (validateRgb_ok r g b a Hr Hg Hb Ha).
  rewrite (validateRgb_ok r g b None Hr Hg Hb eq_refl).
  cbn [bind RGBA.red RGBA.green RGBA.blue RGBA.alpha].
  do 3 eexists. split; reflexivity.
Qed.

Lemma setAttributes_run (attributes this : ColorAttributes) :
  Color.setAttributes attributes this = (Ok tt, attributes).
Proof. destruct attributes; reflexivity. Qed.

Lemma updated_setAttributes (attributes this : ColorAttributes) :
  Color.updated this (Color.setAttributes attributes) = Ok attributes.
Proof. unfold Color.updated. now rewrite setAttributes_run. Qed.

Lemma getAttributesFromRgb_inv (x : RGBA.t) (c : ColorAttributes) :
  Color.getAttributesFromRgb x = Ok c ->
  exists h w,
    rgbToHsl (RGBA.red x) (RGBA.green x) (RGBA.blue x) (Some (RGBA.alpha x)) = Ok h
    /\ rgbToHex (RGBA.red x) (RGBA.green x) (RGBA.blue x) (Some (RGBA.alpha x)) = Ok w
    /\ c = mkColor w (RGBA.red x) (RGBA.green x) (RGBA.blue x)
             (HSLA.hue h) (HSLA.saturation h) (HSLA.lightness h) (RGBA.alpha x).
Proof.
  destruct x as [r g b a]. unfold Color.getAttributesFromRgb.
  cbn [RGBA.red RGBA.green RGBA.blue RGBA.alpha].
  destruct (rgbToHsl r g b (Some a)) as [h|e]; [|discriminate].
  destruct (rgbToHex r g b (Some a)) as [w|e]; [|discriminate].
  cbn. intros [= <-]. eauto.
Qed.

Lemma getAttributesFromHsl_inv (x : HSLA.t) (c : ColorAttributes) :
  Color.getAttributesFromHsl x = Ok c ->
  exists y w,
    hslToRgb (HSLA.hue x) (HSLA.saturation x) (HSLA.lightness x) None = Ok y
    /\ rgbToHex (RGBA.red y) (RGBA.green y) (RGBA.blue y) (Some (HSLA.alpha x)) = Ok w
    /\ c = mkColor w (RGBA.red y) (RGBA.green y) (RGBA.blue y)
             (HSLA.hue x) (HSLA.saturation x) (HSLA.lightness x) (HSLA.alpha x).
Proof.
  destruct x as [h s l a]. unfold Color.getAttributesFromHsl.
  cbn [HSLA.hue HSLA.saturation HSLA.lightness HSLA.alpha].
  destruct (hslToRgb h s l None) as [y|e]; [|discriminate].
  cbn [bind].
  destruct (rgbToHex _ _ _ (Some a)) as [w|e] eqn:Hw; [|discriminate].
  cbn. intros [= <-]. exists y, w. repeat split; assumption || reflexivity.
Qed.

Lemma getAttributesFromHex_inv (color : string) (c : ColorAttributes) :
  Color.getAttributesFromHex color = Ok c ->
  exists x h,
    parseHex color = Ok (hexCode c)
    /\ hexToRgb (hexCode c) = Ok x
    /\ rgbToHsl (RGBA.red x) (RGBA.green x) (RGBA.blue x) None = Ok h
    /\ c = mkColor (hexCode c) (RGBA.red x) (RGBA.green x) (RGBA.blue x)
             (HSLA.hue h) (HSLA.saturation h) (HSLA.lightness h) (RGBA.alpha x).
Proof.
  unfold Color.getAttributesFromHex.
  destruct (parseHex color) as [w|e]; [|discriminate]. cbn [bind].
  destruct (hexToRgb w) as [x|e] eqn:Hx; [|discriminate]. cbn [bind].
  destruct (rgbToHsl _ _ _ None) as [h|e] eqn:Hh; [|discriminate].
  cbn. intros [= <-]. cbn [hexCode].
  exists x, h. repeat split; assumption || reflexivity.
Qed.

(** ** Alpha defaulting *)

Lemma alpha_zero_accepted : alpha_accepted (Some (ofZ 0)).
Proof. reflexivity. Qed.

Lemma defaultAlpha_zero : defaultAlpha (Some (ofZ 0)) = ofZ 0.
Proof. reflexivity. Qed.

Lemma alpha_zero_byte :
  Str.toUpperCase (hex2 (Math.round (ofZ 0 * ofZ 255)%js)) = "00".
Proof. reflexivity. Qed.

(** C9.  [defaultAlpha] rounds a provided alpha to two decimals, a provided
    [0] included (it yields [0], not [1]), and returns [1] when alpha is
    omitted; hence [Color.rgb(r, g, b, 0)] with valid channels returns a
    colour whose alpha is [0] and whose hex code ends in [00]. *)
Theorem defaultAlpha_zero_is_provided :
  (forall a, defaultAlpha (Some a) = round a 2)
  /\ defaultAlpha (Some (ofZ 0)) = ofZ 0
  /\ defaultAlpha None = ofZ 1
  /\ (forall r g b,
        in_range r (ofZ 0) (ofZ 255) ->
        in_range g (ofZ 0) (ofZ 255) ->
        in_range b (ofZ 0) (ofZ 255) ->
        exists c rgbhex,
          Color.rgb r g b (Some (ofZ 0)) = Ok c
          /\ alpha c = ofZ 0
          /\ hexCode c = "#" ++ rgbhex ++ "00"
          /\ String.length rgbhex = 6%nat).
Proof.
  split; [reflexivity|]. split; [reflexivity|]. split; [reflexivity|].
  intros r g b Hr Hg Hb.
  destruct (channel_round r Hr) as (nr & Hnr & Er).
  destruct (channel_round g Hg) as (ng & Hng & Eg).
  destruct (channel_round b Hb) as (nb & Hnb & Eb).
  destruct (channel_ofZ nr Hnr) as [Hr' Er'].
  destruct (channel_ofZ ng Hng) as [Hg' Eg'].
  destruct (channel_ofZ nb Hnb) as [Hb' Eb'].
  pose proof (validateRgb_ok _ _ _ _ Hr' Hg' Hb' alpha_zero_accepted) as Hv.
  rewrite Er', Eg', Eb', defaultAlpha_zero in Hv.
  destruct (rgbToHsl_ok _ _ _ _ _ Hv) as (h & s & l & Hhsl & _).
  pose proof (rgbToHex_ok _ _ _ _ _ Hv) as Hhex.
  cbn [RGBA.red RGBA.green RGBA.blue RGBA.alpha] in Hhsl, Hhex.
  rewrite alpha_zero_byte in Hhex.
  eexists. exists (Str.toUpperCase (hex2 (ofZ nr)) ++ Str.toUpperCase (hex2 (ofZ ng))
                    ++ Str.toUpperCase (hex2 (ofZ nb))).
  split.
  - unfold Color.rgb.
    rewrite (validateRgb_ok _ _ _ _ Hr Hg Hb alpha_zero_accepted).
    rewrite Er, Eg, Eb, defaultAlpha_zero. cbn [bind].
    unfold Color.getAttributesFromRgb. rewrite Hhsl, Hhex. cbn [bind].
    rewrite white_attrs. cbn [bind].
    apply updated_setAttributes.
  - cbn [alpha hexCode]. split; [reflexivity|]. split.
    + now rewrite !string_app_assoc.
    + rewrite !string_app_length, !hex2_length by assumption. reflexivity.
Qed.

Lemma defaultAlpha_zero_is_provided_witness :
  exists c rgbhex,
    Color.rgb (ofZ 255) (ofZ 128) (ofZ 0) (Some (ofZ 0)) = Ok c
    /\ alpha c = ofZ 0
    /\ hexCode c = "#" ++ rgbhex ++ "00"
    /\ String.length rgbhex = 6%nat.
Proof.
  apply defaultAlpha_zero_is_provided; reflexivity.
Defined.

(** ** Where the code departs from its own documentation and tests *)

(** C6, evaluated on the code.  A provided [NaN] alpha is falsy, so the guard
    [alpha && (isNaN(alpha) || ...)] never inspects it: both validators
    return it, and [Color.rgb] commits it. *)
Theorem validate_accepts_NaN_alpha :
  validateRgb (ofZ 0) (ofZ 0) (ofZ 0) (Some NaN)
  = Ok (RGBA.mk (ofZ 0) (ofZ 0) (ofZ 0) NaN)
  /\ validateHsl (ofZ 0) (ofZ 0) (ofZ 0) (Some NaN)
     = Ok (HSLA.mk (ofZ 0) (ofZ 0) (ofZ 0) NaN)
  /\ Color.rgb (ofZ 0) (ofZ 0) (ofZ 0) (Some NaN)
     = Ok (mkColor "#000000NAN" (ofZ 0) (ofZ 0) (ofZ 0) (ofZ 0) (ofZ 0) (ofZ 0) NaN).
Proof. repeat split; reflexivity. Qed.

(** The part of C6 the code does implement: a provided finite alpha outside
    [0, 1] is rejected by both validators. *)
Lemma finite_alpha_out_of_range_rejected (r g b : number) (q : Q) :
  (q < 0 \/ 1 < q)%Q ->
  (exists w, validateRgb r g b (Some (Fin q)) = Throw (InvalidRGBCode w))
  /\ (exists w, validateHsl r g b (Some (Fin q)) = Throw (InvalidHSLCode w)).
Proof.
  intros Hq.
  assert (Hbad : provided_truthy (Some (Fin q))
                 && out_of_range (as_number (Some (Fin q))) (ofZ 0) (ofZ 1) = true).
  { unfold provided_truthy, truthy, Qzero, out_of_range, as_number, ofZ.
    cbn [isNaN orb JS.ltb JS.gtb].
    apply andb_true_iff; split.
    - apply negb_true_iff, Z.eqb_neq. intros H0.
      assert (q == 0)%Q by (unfold Qeq; simpl; lia).
      destruct Hq; lra.
    - apply orb_true_iff. destruct Hq as [Hq | Hq]; [left | right];
        apply negb_true_iff; apply not_true_iff_false;
        rewrite Qle_bool_iff;
        [change (inject_Z 0) with 0%Q | change (inject_Z 1) with 1%Q]; lra. }
  split.
  - destruct (validateRgb r g b (Some (Fin q))) as [x|e] eqn:E.
    + apply validateRgb_inv in E as (_ & _ & _ & Ha & _).
      unfold alpha_accepted in Ha. congruence.
    + destruct (validateRgb_throws _ _ _ _ _ E) as [w ->]. eauto.
  - destruct (validateHsl r g b (Some (Fin q))) as [x|e] eqn:E.
    + exfalso. revert E. unfold validateHsl. rewrite Hbad.
      destruct (isNaN r || _ || _)%js; [discriminate|].
      destruct (out_of_range g _ _); [discriminate|].
      destruct (out_of_range b _ _); discriminate.
    + destruct (validateHsl_throws _ _ _ _ _ E) as [w ->]. eauto.
Qed.

(** C4, evaluated on the code.  The saturation formula divides by
    [1 - |2 * lightness - 1|] with the lightness already rounded to two
    decimals: for (255, 255, 254) the rounded lightness is 1 and the divisor
    is 0; for (255, 249, 249) the divisor is too small and the saturation
    is 1.18. *)
Theorem rgbToHsl_saturation_out_of_range :
  rgbToHsl (ofZ 255) (ofZ 255) (ofZ 254) None
  = Ok (HSLA.mk (ofZ 60) (Infinity false) (ofZ 1) (ofZ 1))
  /\ rgbToHsl (ofZ 255) (ofZ 249) (ofZ 249) None
     = Ok (HSLA.mk (ofZ 0) (Fin (59 # 50)) (Fin (99 # 100)) (ofZ 1)).
Proof. split; reflexivity. Qed.

(** C5, evaluated on the code.  A string that does not match the pattern at
    all makes [parseRgb] throw [InvalidRGBCode] and [parseHsl] throw
    [InvalidHSLCode]; only the [Color] constructor reports [InvalidColor]. *)
Theorem parse_misspelled_keyword :
  parseRgb "rbg(0,0,0)" = Throw (InvalidRGBCode "rbg(0,0,0)")
  /\ parseHsl "hls(0,0,0)" = Throw (InvalidHSLCode "hls(0,0,0)")
  /\ Color.new "rbg(0,0,0)" = Throw (InvalidColor "rbg(0,0,0)")
  /\ Color.new "hls(0,0,0)" = Throw (InvalidColor "hls(0,0,0)").
Proof. repeat split; reflexivity. Qed.

(** Neither parser can throw [InvalidColor], whatever the input. *)
Lemma parsers_never_throw_InvalidColor (s w : string) :
  parseRgb s <> Throw (InvalidColor w) /\ parseHsl s <> Throw (InvalidColor w).
Proof.
  split; intros H.
  - unfold parseRgb in H. destruct (Regex.match_ RGB_HEX 4 s); [|discriminate].
    apply validateRgb_throws in H as [? ?]. discriminate.
  - unfold parseHsl in H. destruct (Regex.match_ HSL_REGEX 4 s); [|discriminate].
    apply validateHsl_throws in H as [? ?]. discriminate.
Qed.

(** C8, evaluated on the code.  The template of [toHsl] starts with the
    keyword [hlsa], so no instance renders a string that begins with [hsla];
    the README's example colour renders as [hlsa(120, 100%, 50%, 1)]. *)
Theorem toHsl_keyword :
  (forall c : ColorAttributes, exists rest, Color.toHsl c = "hlsa(" ++ rest)
  /\ (forall (c : ColorAttributes) (rest : string), Color.toHsl c <> "hsla" ++ rest)
  /\ (c <- Color.new "#0F0" ;; Ok (Color.toHsl c)) = Ok "hlsa(120, 100%, 50%, 1)".
Proof.
  split; [|split].
  - intros c. eexists. reflexivity.
  - intros c rest. unfold Color.toHsl. cbn [String.append]. discriminate.
  - reflexivity.
Qed.

(** ** The hex pattern *)

Section HexPattern.

Lemma rep_exact (p : ascii -> bool) (n : nat) (s : string)
    (k : string -> option Regex.captures) :
  Regex.rep p n (Some n) s k
  = match strip p n s with Some rest => k rest | None => None end.
Proof.
  revert s; induction n as [|n IH]; intros [|c s]; cbn [Regex.rep strip].
  - reflexivity.
  - now rewrite andb_false_r.
  - reflexivity.
  - cbn [option_map Nat.pred]. rewrite andb_true_r.
    destruct (p c); [|reflexivity].
    rewrite IH. destruct (strip p n s) as [rest|]; [|reflexivity].
    now destruct (k rest).
Qed.

Lemma exactly_spec (n : nat) (s : string) :
  exactly n s = all_hex s && (String.length s =? n)%nat.
Proof.
  unfold exactly. revert s; induction n as [|n IH]; intros [|c s]; cbn.
  - reflexivity.
  - now rewrite andb_false_r.
  - reflexivity.
  - destruct (Str.is_hex c); [apply IH | reflexivity].
Qed.

Lemma HEX_REGEX_test (s : string) : Regex.test HEX_REGEX s = accepted_hex_form s.
Proof.
  destruct s as [|c ds]; [reflexivity|].
  unfold Regex.test, HEX_REGEX, accepted_hex_form.
  cbn [Regex.seq Regex.run].
  destruct (Ascii.eqb "#" c) eqn:Ec.
  2:{ destruct c as [[] [] [] [] [] [] [] []]; try reflexivity; discriminate. }
  apply Ascii.eqb_eq in Ec; subst c.
  rewrite !rep_exact.
  transitivity (exactly 3 ds || exactly 6 ds || exactly 8 ds).
  - unfold exactly.
    destruct (strip Str.is_hex 3 ds) as [[|? ?]|];
      destruct (strip Str.is_hex 6 ds) as [[|? ?]|];
      destruct (strip Str.is_hex 8 ds) as [[|? ?]|]; reflexivity.
  - rewrite !exactly_spec. now destruct (all_hex ds).
Qed.

End HexPattern.

(** ** parseHex *)

Lemma parseHex_rejects (s : string) :
  accepted_hex_form s = false -> parseHex s = Throw (InvalidHexCode s).
Proof. intros H. unfold parseHex. now rewrite HEX_REGEX_test, H. Qed.

Lemma parseHex_3 (a b c : ascii) :
  all_hex (String a (String b (String c ""))) = true ->
  parseHex (String "#" (String a (String b (String c ""))))
  = Ok (String "#"
          (Str.toUpperCase
             (String a (String a (String b (String b (String c (String c "")))))) ++ "FF")).
Proof.
  intros H. unfold parseHex. rewrite HEX_REGEX_test.
  unfold accepted_hex_form. rewrite H. reflexivity.
Qed.

Lemma parseHex_6 (ds : string) :
  all_hex ds = true -> String.length ds = 6%nat ->
  parseHex (String "#" ds) = Ok (String "#" (Str.toUpperCase ds ++ "FF")).
Proof.
  intros H L. unfold parseHex. rewrite HEX_REGEX_test.
  unfold accepted_hex_form. rewrite H, L. cbn [String.length]. rewrite L.
  cbn [Nat.eqb andb orb negb String.append Str.toUpperCase].
  now rewrite toUpperCase_app.
Qed.

Lemma parseHex_8 (ds : string) :
  all_hex ds = true -> String.length ds = 8%nat ->
  parseHex (String "#" ds) = Ok (String "#" (Str.toUpperCase ds)).
Proof.
  intros H L. unfold parseHex. rewrite HEX_REGEX_test.
  unfold accepted_hex_form. rewrite H, L. cbn [String.length]. rewrite L.
  reflexivity.
Qed.

Lemma accepted_hex_form_inv (s : string) :
  accepted_hex_form s = true ->
  exists ds, s = String "#" ds /\ all_hex ds = true
    /\ (String.length ds = 3 \/ String.length ds = 6 \/ String.length ds = 8)%nat.
Proof.
  destruct s as [|c ds]; [discriminate|].
  unfold accepted_hex_form.
  destruct c as [[] [] [] [] [] [] [] []]; try discriminate.
  intros H. apply andb_true_iff in H as [Hh Hl].
  exists ds. repeat split; [assumption|].
  apply orb_true_iff in Hl as [Hl | Hl];
    [apply orb_true_iff in Hl as [Hl | Hl]|]; apply Nat.eqb_eq in Hl; auto.
Qed.

Lemma toUpperCase_length (s : string) :
  String.length (Str.toUpperCase s) = String.length s.
Proof. induction s as [|c s IH]; simpl; [reflexivity | now rewrite IH]. Qed.

(** C7 (amended).  [parseHex] accepts exactly [#] followed by 3, 6 or 8
    hexadecimal digits in either case, and throws [InvalidHexCode] on every
    other string, a 4-digit [#RGBA] included; a 3-digit form is expanded by
    doubling each digit and appending [FF], a 6-digit form gets [FF]
    appended, and the result is upper case, [#] plus eight digits. *)
Theorem parseHex_accepted_forms :
  (forall s, accepted_hex_form s = false -> parseHex s = Throw (InvalidHexCode s))
  /\ (forall s, accepted_hex_form s = true ->
        exists N, parseHex s = Ok N /\ String.length N = 9%nat)
  /\ (forall a b c,
        all_hex (String a (String b (String c ""))) = true ->
        parseHex (String "#" (String a (String b (String c ""))))
        = Ok (String "#"
                (Str.toUpperCase
                   (String a (String a (String b (String b (String c (String c ""))))))
                 ++ "FF")))
  /\ (forall ds, all_hex ds = true -> String.length ds = 6%nat ->
        parseHex (String "#" ds) = Ok (String "#" (Str.toUpperCase ds ++ "FF")))
  /\ (forall ds, all_hex ds = true -> String.length ds = 8%nat ->
        parseHex (String "#" ds) = Ok (String "#" (Str.toUpperCase ds)))
  /\ (forall ds, String.length ds = 4%nat ->
        parseHex (String "#" ds) = Throw (InvalidHexCode (String "#" ds))).
Proof.
  split; [exact parseHex_rejects|].
  split.
  { intros s H. apply accepted_hex_form_inv in H as (ds & -> & Hh & [L | [L | L]]).
    - destruct ds as [|a [|b [|c [|? ?]]]]; try discriminate.
      rewrite (parseHex_3 _ _ _ Hh). eexists; split; reflexivity.
    - rewrite (parseHex_6 _ Hh L). eexists; split; [reflexivity|].
      cbn [String.length]. now rewrite string_app_length, toUpperCase_length, L.
    - rewrite (parseHex_8 _ Hh L). eexists; split; [reflexivity|].
      cbn [String.length]. now rewrite toUpperCase_length, L. }
  split; [exact parseHex_3|].
  split; [exact parseHex_6|].
  split; [exact parseHex_8|].
  intros ds L. apply parseHex_rejects.
  unfold accepted_hex_form. rewrite L. apply andb_false_r.
Qed.

Lemma parseHex_accepted_forms_witness :
  parseHex "#a1f" = Ok "#AA11FFFF"
  /\ parseHex "#FFFF" = Throw (InvalidHexCode "#FFFF")
  /\ parseHex "FFFFFF" = Throw (InvalidHexCode "FFFFFF").
Proof.
  destruct parseHex_accepted_forms as (Hrej & _ & H3 & _ & _ & H4).
  split; [|split].
  - apply (H3 "a" "1" "f")%char. reflexivity.
  - apply (H4 "FFFF"). reflexivity.
  - apply (Hrej "FFFFFF"). reflexivity.
Defined.

(** C7 (as stated) fails on the 4-digit shorthand: [#FFFF] is made of valid
    hexadecimal digits and is rejected. *)
Lemma parseHex_4_digit_counterexample :
  all_hex "FFFF" = true
  /\ parseHex "#FFFF" = Throw (InvalidHexCode "#FFFF")
  /\ parseHex "#FFFF" <> Ok "#FFFFFFFF".
Proof. split; [reflexivity|]. split; [reflexivity|discriminate]. Qed.

(** ** The hex round trip *)

Lemma number_beq_eq (a b : number) : number_beq a b = true -> a = b.
Proof.
  destruct a as [| s | [xn xd]], b as [| t | [yn yd]]; cbn; try discriminate.
  - reflexivity.
  - intros H. apply Bool.eqb_prop in H. now subst.
  - intros H. apply andb_true_iff in H as [Hn Hd].
    apply Z.eqb_eq in Hn. apply Pos.eqb_eq in Hd. now subst.
Qed.

Lemma is_hex_upper (c : ascii) :
  Str.is_hex c = true -> is_upper_hex (Str.upper_char c) = true.
Proof.
  destruct c as [[] [] [] [] [] [] [] []]; vm_compute; intros H; exact H || reflexivity.
Qed.

Lemma is_upper_hex_In (c : ascii) : is_upper_hex c = true -> In c UPPER_HEX.
Proof.
  destruct c as [[] [] [] [] [] [] [] []]; vm_compute; intros H;
    try discriminate H; repeat (first [left; reflexivity | right]).
Qed.

Lemma pairs_checked :
  forallb (fun c1 => forallb (fun c2 => channel_check c1 c2 && alpha_check c1 c2)
                       UPPER_HEX) UPPER_HEX = true.
Proof. vm_compute. reflexivity. Qed.

Lemma pair_checked (c1 c2 : ascii) :
  is_upper_hex c1 = true -> is_upper_hex c2 = true ->
  channel_check c1 c2 = true /\ alpha_check c1 c2 = true.
Proof.
  intros H1 H2. apply is_upper_hex_In in H1, H2.
  pose proof pairs_checked as H. rewrite forallb_forall in H.
  specialize (H c1 H1). rewrite forallb_forall in H.
  specialize (H c2 H2). now apply andb_true_iff in H.
Qed.

Lemma channel_checked (c1 c2 : ascii) :
  is_upper_hex c1 = true -> is_upper_hex c2 = true ->
  let v := stringToDecimals (digits2 c1 c2) in
  in_range v (ofZ 0) (ofZ 255) /\ Math.round v = v
  /\ Str.toUpperCase (hex2 v) = digits2 c1 c2.
Proof.
  intros H1 H2 v. destruct (pair_checked c1 c2 H1 H2) as [H _].
  unfold channel_check in H. fold v in H.
  apply andb_true_iff in H as [H He]. apply andb_true_iff in H as [Hr Hm].
  split; [now apply negb_true_iff in Hr|].
  split; [now apply number_beq_eq | now apply String.eqb_eq].
Qed.

Lemma alpha_checked (c1 c2 : ascii) :
  is_upper_hex c1 = true -> is_upper_hex c2 = true ->
  let a := round (stringToDecimals (digits2 c1 c2) / ofZ 255)%js 2 in
  alpha_accepted (Some a) /\ defaultAlpha (Some a) = a.
Proof.
  intros H1 H2 a. destruct (pair_checked c1 c2 H1 H2) as [_ H].
  unfold alpha_check in H. fold a in H.
  apply andb_true_iff in H as [Hr Hd].
  split; [now apply negb_true_iff in Hr | now apply number_beq_eq].
Qed.

Ltac split_all_hex H :=
  cbn [all_hex] in H;
  repeat (let Hc := fresh "Hc" in apply andb_true_iff in H as [Hc H];
          apply is_hex_upper in Hc).

(** What [parseHex] returns: [#] and eight upper-case digits, the last two
    being [FF] unless the input had eight digits itself. *)
Lemma parseHex_shape (H N : string) :
  parseHex H = Ok N ->
  exists c1 c2 c3 c4 c5 c6 c7 c8,
    N = String "#" (digits2 c1 c2 ++ digits2 c3 c4 ++ digits2 c5 c6 ++ digits2 c7 c8)
    /\ (is_upper_hex c1 = true /\ is_upper_hex c2 = true)
    /\ (is_upper_hex c3 = true /\ is_upper_hex c4 = true)
    /\ (is_upper_hex c5 = true /\ is_upper_hex c6 = true)
    /\ (is_upper_hex c7 = true /\ is_upper_hex c8 = true)
    /\ (String.length H <> 9%nat -> digits2 c7 c8 = "FF").
Proof.
  intros Hp. destruct (accepted_hex_form H) eqn:E.
  2:{ rewrite (parseHex_rejects _ E) in Hp. discriminate. }
  apply accepted_hex_form_inv in E as (ds & -> & Hh & [L | [L | L]]).
  - destruct ds as [|a [|b [|c [|? ?]]]]; try discriminate.
    rewrite (parseHex_3 _ _ _ Hh) in Hp. injection Hp as <-.
    split_all_hex Hh.
    exists (Str.upper_char a), (Str.upper_char a), (Str.upper_char b),
      (Str.upper_char b), (Str.upper_char c), (Str.upper_char c), "F"%char, "F"%char.
    repeat split; assumption || reflexivity.
  - destruct ds as [|a [|b [|c [|d [|e [|f [|? ?]]]]]]]; try discriminate.
    rewrite (parseHex_6 _ Hh L) in Hp. injection Hp as <-.
    split_all_hex Hh.
    exists (Str.upper_char a), (Str.upper_char b), (Str.upper_char c),
      (Str.upper_char d), (Str.upper_char e), (Str.upper_char f), "F"%char, "F"%char.
    repeat split; assumption || reflexivity.
  - destruct ds as [|a [|b [|c [|d [|e [|f [|g [|h [|? ?]]]]]]]]]; try discriminate.
    rewrite (parseHex_8 _ Hh L) in Hp. injection Hp as <-.
    split_all_hex Hh.
    exists (Str.upper_char a), (Str.upper_char b), (Str.upper_char c),
      (Str.upper_char d), (Str.upper_char e), (Str.upper_char f),
      (Str.upper_char g), (Str.upper_char h).
    repeat split; try assumption || reflexivity.
    intros Hlen. now contradiction Hlen.
Qed.

Lemma parseHex_normal (c1 c2 c3 c4 c5 c6 c7 c8 : ascii) :
  is_upper_hex c1 = true -> is_upper_hex c2 = true ->
  is_upper_hex c3 = true -> is_upper_hex c4 = true ->
  is_upper_hex c5 = true -> is_upper_hex c6 = true ->
  is_upper_hex c7 = true -> is_upper_hex c8 = true ->
  let N := String "#" (digits2 c1 c2 ++ digits2 c3 c4 ++ digits2 c5 c6 ++ digits2 c7 c8) in
  parseHex N = Ok N.
Proof.
  intros H1 H2 H3 H4 H5 H6 H7 H8 N.
  assert (Hfix : forall c, is_upper_hex c = true ->
                   Str.is_hex c = true /\ Str.upper_char c = c).
  { intros c. destruct c as [[] [] [] [] [] [] [] []]; vm_compute; intros H;
      try discriminate H; split; reflexivity. }
  destruct (Hfix _ H1) as [A1 U1], (Hfix _ H2) as [A2 U2], (Hfix _ H3) as [A3 U3],
    (Hfix _ H4) as [A4 U4], (Hfix _ H5) as [A5 U5], (Hfix _ H6) as [A6 U6],
    (Hfix _ H7) as [A7 U7], (Hfix _ H8) as [A8 U8].
  unfold N, digits2. cbn [String.append].
  rewrite parseHex_8.
  - cbn [Str.toUpperCase]. now rewrite U1, U2, U3, U4, U5, U6, U7, U8.
  - cbn [all_hex]. now rewrite A1, A2, A3, A4, A5, A6, A7, A8.
  - reflexivity.
Qed.

Lemma hexToRgb_digits (H : string) (c1 c2 c3 c4 c5 c6 c7 c8 : ascii) :
  parseHex H
  = Ok (String "#" (digits2 c1 c2 ++ digits2 c3 c4 ++ digits2 c5 c6 ++ digits2 c7 c8)) ->
  hexToRgb H
  = Ok (RGBA.mk (stringToDecimals (digits2 c1 c2))
          (stringToDecimals (digits2 c3 c4))
          (stringToDecimals (digits2 c5 c6))
          (round (stringToDecimals (digits2 c7 c8) / ofZ 255)%js 2)).
Proof. intros Hp. unfold hexToRgb. rewrite Hp. reflexivity. Qed.

Lemma requantize_FF : requantize (stringToDecimals "FF") = stringToDecimals "FF".
Proof. reflexivity. Qed.

(** C1 (amended).  For every hex string [H] that [parseHex] accepts,
    [hexToRgb] followed by [rgbToHex] returns the [#] and the six colour
    digits of [parseHex(H)] followed by the encoding of the alpha byte taken
    to two decimals and back, [round(round(a / 255, 2) * 255)].  The result
    is exactly [parseHex(H)] whenever the alpha byte survives that
    requantisation, in particular for every 3- and 6-digit input (alpha
    [FF]). *)
Theorem hex_round_trip (H N : string) :
  parseHex H = Ok N ->
  exists c,
    hexToRgb H = Ok c
    /\ rgbToHex (RGBA.red c) (RGBA.green c) (RGBA.blue c) (Some (RGBA.alpha c))
       = Ok (substring 0 7 N
             ++ Str.toUpperCase
                  (hex2 (requantize (stringToDecimals (substring 7 2 N)))))
    /\ (requantize (stringToDecimals (substring 7 2 N))
        = stringToDecimals (substring 7 2 N) ->
        rgbToHex (RGBA.red c) (RGBA.green c) (RGBA.blue c) (Some (RGBA.alpha c)) = Ok N)
    /\ (String.length H <> 9%nat ->
        rgbToHex (RGBA.red c) (RGBA.green c) (RGBA.blue c) (Some (RGBA.alpha c)) = Ok N).
Proof.
  intros Hp.
  destruct (parseHex_shape _ _ Hp)
    as (c1 & c2 & c3 & c4 & c5 & c6 & c7 & c8 & -> & [H1 H2] & [H3 H4] & [H5 H6]
        & [H7 H8] & Hshort).
  destruct (channel_checked c1 c2 H1 H2) as (R1 & M1 & E1).
  destruct (channel_checked c3 c4 H3 H4) as (R2 & M2 & E2).
  destruct (channel_checked c5 c6 H5 H6) as (R3 & M3 & E3).
  destruct (channel_checked c7 c8 H7 H8) as (_ & M4 & E4).
  destruct (alpha_checked c7 c8 H7 H8) as (Ra & Da).
  eexists. split; [apply hexToRgb_digits, Hp|].
  cbn [RGBA.red RGBA.green RGBA.blue RGBA.alpha].
  pose proof (validateRgb_ok _ _ _ _ R1 R2 R3 Ra) as Hv.
  rewrite M1, M2, M3, Da in Hv.
  pose proof (rgbToHex_ok _ _ _ _ _ Hv) as Hx.
  cbn [RGBA.red RGBA.green RGBA.blue RGBA.alpha] in Hx.
  rewrite E1, E2, E3 in Hx. fold (requantize (stringToDecimals (digits2 c7 c8))) in Hx.
  change (substring 7 2 (String "#" (digits2 c1 c2 ++ digits2 c3 c4 ++ digits2 c5 c6
                                       ++ digits2 c7 c8)))
    with (digits2 c7 c8).
  assert (Hfix : requantize (stringToDecimals (digits2 c7 c8))
                 = stringToDecimals (digits2 c7 c8) ->
                 rgbToHex (stringToDecimals (digits2 c1 c2))
                   (stringToDecimals (digits2 c3 c4))
                   (stringToDecimals (digits2 c5 c6))
                   (Some (round (stringToDecimals (digits2 c7 c8) / ofZ 255)%js 2))
                 = Ok (String "#" (digits2 c1 c2 ++ digits2 c3 c4 ++ digits2 c5 c6
                                     ++ digits2 c7 c8))).
  { intros Hq. rewrite Hx, Hq, E4. reflexivity. }
  split; [|split].
  - rewrite Hx. reflexivity.
  - exact Hfix.
  - intros Hlen. apply Hfix. rewrite (Hshort Hlen). apply requantize_FF.
Qed.

Lemma hex_round_trip_witness :
  exists c,
    hexToRgb "#ff8000" = Ok c
    /\ rgbToHex (RGBA.red c) (RGBA.green c) (RGBA.blue c) (Some (RGBA.alpha c))
       = Ok "#FF8000FF".
Proof.
  destruct (hex_round_trip "#ff8000" "#FF8000FF" eq_refl) as (c & Hc & _ & _ & Hn).
  exists c. split; [exact Hc|]. apply Hn. discriminate.
Defined.

(** C1 (as stated) fails when the alpha byte does not survive two-decimal
    rounding: [#00000001] decodes to alpha 0 and encodes back as
    [#00000000]. *)
Lemma hex_round_trip_counterexample :
  parseHex "#00000001" = Ok "#00000001"
  /\ hexToRgb "#00000001" = Ok (RGBA.mk (ofZ 0) (ofZ 0) (ofZ 0) (ofZ 0))
  /\ rgbToHex (ofZ 0) (ofZ 0) (ofZ 0) (Some (ofZ 0)) = Ok "#00000000".
Proof. repeat split; reflexivity. Qed.

(** ** Mutation is all-or-nothing *)

Lemma rgb_update_run (r g b : number) (a : option number) (this : ColorAttributes) :
  rgb_update r g b a this
  = match validateRgb r g b a with
    | Throw e => (Throw e, this)
    | Ok x =>
        match Color.getAttributesFromRgb x with
        | Throw e => (Throw e, this)
        | Ok attributes => (Ok tt, attributes)
        end
    end.
Proof.
  unfold rgb_update, Color.mbind, Color.call.
  destruct (validateRgb r g b a) as [x|e]; [|reflexivity].
  destruct (Color.getAttributesFromRgb x) as [attributes|e]; [|reflexivity].
  apply setAttributes_run.
Qed.

Lemma hsl_update_run (h s l : number) (a : option number) (this : ColorAttributes) :
  hsl_update h s l a this
  = match validateHsl h s l a with
    | Throw e => (Throw e, this)
    | Ok x =>
        match Color.getAttributesFromHsl x with
        | Throw e => (Throw e, this)
        | Ok attributes => (Ok tt, attributes)
        end
    end.
Proof.
  unfold hsl_update, Color.mbind, Color.call.
  destruct (validateHsl h s l a) as [x|e]; [|reflexivity].
  destruct (Color.getAttributesFromHsl x) as [attributes|e]; [|reflexivity].
  apply setAttributes_run.
Qed.

(** Each setter reads the untouched fields of [this] and runs the shared body. *)
Lemma set_field_unfold (f : field) (v : number) (this : ColorAttributes) :
  set_field f v this
  = match f with
    | Red => rgb_update v (green this) (blue this) (Some (alpha this)) this
    | Green => rgb_update (red this) v (blue this) (Some (alpha this)) this
    | Blue => rgb_update (red this) (green this) v (Some (alpha this)) this
    | Hue => hsl_update v (saturation this) (lightness this) (Some (alpha this)) this
    | Saturation => hsl_update (hue this) v (lightness this) (Some (alpha this)) this
    | Lightness => hsl_update (hue this) (saturation this) v (Some (alpha this)) this
    | Alpha => rgb_update (red this) (green this) (blue this) (Some v) this
    end.
Proof. destruct f; reflexivity. Qed.

(** A setter that throws leaves every field as it was. *)
Lemma set_field_throw_unchanged (f : field) (v : number)
    (this this' : ColorAttributes) (e : ColorError) :
  set_field f v this = (Throw e, this') -> this' = this.
Proof.
  rewrite set_field_unfold.
  destruct f; rewrite ?rgb_update_run, ?hsl_update_run;
    repeat match goal with
           | |- context [match ?r with Ok _ => _ | Throw _ => _ end] => destruct r
           end; congruence.
Qed.

(** C3.  For every instance and every single-field assignment whose new
    value fails validation against the current values of the untouched
    fields, the assignment throws that validation error and the instance is
    left exactly as it was: hexCode, red, green, blue, hue, saturation,
    lightness and alpha all keep their prior values. *)
Theorem rejected_mutation_keeps_state (f : field) (v : number)
    (this : ColorAttributes) (e : ColorError) :
  fails_validation f v this e ->
  set_field f v this = (Throw e, this).
Proof.
  intros H. rewrite set_field_unfold.
  destruct f; cbn [fails_validation] in H;
    rewrite ?rgb_update_run, ?hsl_update_run, H; reflexivity.
Qed.

Lemma rejected_mutation_keeps_state_witness :
  fails_validation Red (ofZ 256)
    (mkColor "#FFFFFFFF" (ofZ 255) (ofZ 255) (ofZ 255) (ofZ 0) (ofZ 0) (ofZ 1) (ofZ 1))
    (InvalidRGBCode "rgba(256, 255, 255, 1)")
  /\ set_field Red (ofZ 256)
       (mkColor "#FFFFFFFF" (ofZ 255) (ofZ 255) (ofZ 255) (ofZ 0) (ofZ 0) (ofZ 1) (ofZ 1))
     = (Throw (InvalidRGBCode "rgba(256, 255, 255, 1)"),
        mkColor "#FFFFFFFF" (ofZ 255) (ofZ 255) (ofZ 255) (ofZ 0) (ofZ 0) (ofZ 1) (ofZ 1)).
Proof.
  split; [reflexivity|].
  apply (rejected_mutation_keeps_state Red). reflexivity.
Defined.

(** ** The representations of an observable state *)

Lemma getAttributesFromRgb_consistent (x : RGBA.t) (c : ColorAttributes) :
  Color.getAttributesFromRgb x = Ok c -> consistent FromRgb c.
Proof.
  intros H. apply getAttributesFromRgb_inv in H as (h0 & w & Hh & Hw & ->).
  split.
  - exact Hw.
  - unfold hsl_of_rgb. cbn [red green blue hue saturation lightness].
    destruct (rgbToHex_inv _ _ _ _ _ Hw) as [y Hy].
    destruct (rgbToHsl_ok _ _ _ _ _ Hy) as (h & s & l & Hsome & Hnone).
    rewrite Hh in Hsome. injection Hsome as ->.
    eexists. split; [exact Hnone|]. repeat split.
Qed.

Lemma getAttributesFromHsl_consistent (x : HSLA.t) (c : ColorAttributes) :
  Color.getAttributesFromHsl x = Ok c -> consistent FromHsl c.
Proof.
  intros H. apply getAttributesFromHsl_inv in H as (y & w & Hy & Hw & ->).
  split.
  - exact Hw.
  - exists y. repeat split. exact Hy.
Qed.

Lemma getAttributesFromHex_consistent (color : string) (c : ColorAttributes) :
  Color.getAttributesFromHex color = Ok c -> consistent FromHex c.
Proof.
  intros H. apply getAttributesFromHex_inv in H as (x & h & _ & Hx & Hh & Hc).
  rewrite Hc. split.
  - unfold rgb_of_hex, rgba_of. cbn [hexCode red green blue alpha].
    rewrite Hx. now destruct x.
  - exists h. repeat split. exact Hh.
Qed.

Lemma new_attributes (s : string) : Color.new s = Color.getAttributesFromString s.
Proof.
  unfold Color.new.
  destruct (Color.getAttributesFromString s) as [[]|]; reflexivity.
Qed.

Lemma getAttributesFromString_route (s : string) :
  Color.getAttributesFromString s
  = if starts_with_hash s then Color.getAttributesFromHex s
    else if Str.includes s "rgb" then
      rgb <- parseRgb s ;; Color.getAttributesFromRgb rgb
    else if Str.includes s "hsl" then
      hsl <- parseHsl s ;; Color.getAttributesFromHsl hsl
    else Throw (InvalidColor s).
Proof.
  unfold Color.getAttributesFromString, starts_with_hash.
  destruct (Str.at_ s 0) as [c|]; [|reflexivity].
  destruct c as [[] [] [] [] [] [] [] []]; reflexivity.
Qed.

Lemma set_field_consistent (f : field) (v : number) (this this' : ColorAttributes) :
  set_field f v this = (Ok tt, this') -> consistent (field_origin f) this'.
Proof.
  rewrite set_field_unfold.
  destruct f; rewrite ?rgb_update_run, ?hsl_update_run; cbn [field_origin];
    match goal with
    | |- context [validateRgb ?r ?g ?b ?a] =>
        destruct (validateRgb r g b a) as [x|]; [|discriminate];
        destruct (Color.getAttributesFromRgb x) as [c|] eqn:E; [|discriminate];
        intros [= <-]; exact (getAttributesFromRgb_consistent _ _ E)
    | |- context [validateHsl ?h ?s ?l ?a] =>
        destruct (validateHsl h s l a) as [x|]; [|discriminate];
        destruct (Color.getAttributesFromHsl x) as [c|] eqn:E; [|discriminate];
        intros [= <-]; exact (getAttributesFromHsl_consistent _ _ E)
    end.
Qed.

(** Every observable state is consistent in the sense of its origin. *)
Lemma observable_representations (o : origin) (c : ColorAttributes) :
  observable o c -> consistent o c.
Proof.
  induction 1 as [s c Hh Hn | s c Hh Hr Hn | s c Hh Hr Hn | r g b a c Hc
                  | h s l a c Hc | o this this' f v _ _ Hs
                  | o this this' f v e _ IH Hs].
  - rewrite new_attributes, getAttributesFromString_route, Hh in Hn.
    exact (getAttributesFromHex_consistent _ _ Hn).
  - rewrite new_attributes, getAttributesFromString_route, Hh, Hr in Hn.
    destruct (parseRgb s) as [x|]; [|discriminate].
    exact (getAttributesFromRgb_consistent _ _ Hn).
  - rewrite new_attributes, getAttributesFromString_route, Hh, Hr in Hn.
    destruct (Str.includes s "hsl"); [|discriminate].
    destruct (parseHsl s) as [x|]; [|discriminate].
    exact (getAttributesFromHsl_consistent _ _ Hn).
  - unfold Color.rgb in Hc.
    destruct (validateRgb r g b a) as [x|]; [|discriminate]. cbn [bind] in Hc.
    destruct (Color.getAttributesFromRgb x) as [attributes|] eqn:E; [|discriminate].
    cbn [bind] in Hc. rewrite white_attrs in Hc. cbn [bind] in Hc.
    rewrite updated_setAttributes in Hc. injection Hc as <-.
    exact (getAttributesFromRgb_consistent _ _ E).
  - unfold Color.hsl in Hc.
    destruct (validateHsl h s l a) as [x|]; [|discriminate]. cbn [bind] in Hc.
    destruct (Color.getAttributesFromHsl x) as [attributes|] eqn:E; [|discriminate].
    cbn [bind] in Hc. rewrite white_attrs in Hc. cbn [bind] in Hc.
    rewrite updated_setAttributes in Hc. injection Hc as <-.
    exact (getAttributesFromHsl_consistent _ _ E).
  - exact (set_field_consistent _ _ _ _ Hs).
  - apply set_field_throw_unchanged in Hs. now subst.
Qed.

(** ** Decoding the stored hex code *)

Lemma byte_checked (n : Z) :
  0 <= n <= 255 ->
  exists c1 c2,
    Str.toUpperCase (hex2 (ofZ n)) = digits2 c1 c2
    /\ is_upper_hex c1 = true /\ is_upper_hex c2 = true
    /\ stringToDecimals (digits2 c1 c2) = ofZ n.
Proof.
  intros Hn.
  assert (H : forall k, (k < 256)%nat -> byte_check k = true).
  { apply forallb_below. vm_compute. reflexivity. }
  specialize (H (Z.to_nat n) ltac:(lia)).
  unfold byte_check in H. rewrite Z2Nat.id in H by lia.
  destruct (Str.toUpperCase (hex2 (ofZ n))) as [|c1 [|c2 [|? ?]]]; try discriminate.
  apply andb_true_iff in H as [H H3]. apply andb_true_iff in H as [H1 H2].
  exists c1, c2. repeat split; try assumption. now apply number_beq_eq.
Qed.

Lemma alpha_back_checked (k : Z) :
  0 <= k <= 100 ->
  let a := fin (inject_Z k / inject_Z 100) in
  alpha_accepted (Some a) /\ defaultAlpha (Some a) = a
  /\ exists m, 0 <= m <= 255
       /\ Math.round (a * ofZ 255)%js = ofZ m
       /\ round (ofZ m / ofZ 255)%js 2 = a.
Proof.
  intros Hk a.
  assert (H : forall j, (j < 101)%nat -> alpha_back_check j = true).
  { apply forallb_below. vm_compute. reflexivity. }
  specialize (H (Z.to_nat k) ltac:(lia)).
  unfold alpha_back_check in H. rewrite Z2Nat.id in H by lia. fold a in H.
  apply andb_true_iff in H as [H Hb]. apply andb_true_iff in H as [Ha Hd].
  split; [now apply negb_true_iff in Ha|].
  split; [now apply number_beq_eq|].
  destruct (Math.round (a * ofZ 255)%js) as [| | [m d]]; try discriminate.
  cbn [Qnum Qden] in Hb.
  apply andb_true_iff in Hb as [Hb Hr]. apply andb_true_iff in Hb as [Hb Hhi].
  apply andb_true_iff in Hb as [Hden Hlo].
  apply Pos.eqb_eq in Hden; subst d.
  exists m. split; [lia|]. split; [reflexivity | now apply number_beq_eq].
Qed.

(** An accepted alpha is stored as [NaN] or as [k / 100] with [0 <= k <= 100]. *)
Lemma defaultAlpha_form (a : option number) :
  alpha_accepted a -> isNaN (defaultAlpha a) = false ->
  exists k, 0 <= k <= 100 /\ defaultAlpha a = fin (inject_Z k / inject_Z 100).
Proof.
  destruct a as [[| s | q]|]; intros Ha Hn.
  - discriminate.
  - destruct s; discriminate.
  - unfold defaultAlpha. rewrite round_fin.
    change (inject_Z (10 ^ Z.of_nat 2)) with (inject_Z 100).
    exists (Qfloor (q * inject_Z 100 + (1 # 2))). split; [|reflexivity].
    unfold alpha_accepted, provided_truthy, truthy, Qzero, as_number in Ha.
    destruct (floor_half_bounds (q * inject_Z 100)) as [Hlo Hhi].
    change (inject_Z 100) with 100%Q in *.
    destruct (Qnum q =? 0) eqn:E0.
    + apply Z.eqb_eq in E0.
      assert (Hq : (q == 0)%Q) by (unfold Qeq; simpl; lia).
      rewrite (Qfloor_comp _ (1 # 2)) by (rewrite Hq; ring).
      cbn. lia.
    + cbn [negb andb] in Ha. unfold out_of_range, ofZ in Ha.
      cbn [isNaN orb JS.ltb JS.gtb] in Ha.
      apply orb_false_iff in Ha as [H0 H1].
      apply negb_false_iff, Qle_bool_iff in H0, H1.
      change (inject_Z 0) with 0%Q in H0. change (inject_Z 1) with 1%Q in H1.
      split.
      * change 0 with (Qfloor 0). apply Qfloor_resp_le. lra.
      * assert (Hlt : (inject_Z (Qfloor (q * 100 + (1 # 2))) < inject_Z 101)%Q).
        { change (inject_Z 101) with 101%Q. lra. }
        rewrite <- Zlt_Qlt in Hlt. lia.
  - exists 100. split; [lia | reflexivity].
Qed.

(** Integer channels and a two-decimal alpha encode to a hex code that
    [hexToRgb] decodes to the same four values. *)
Lemma rgbToHex_decodes (nr ng nb k : Z) (w : string) :
  0 <= nr <= 255 -> 0 <= ng <= 255 -> 0 <= nb <= 255 -> 0 <= k <= 100 ->
  rgbToHex (ofZ nr) (ofZ ng) (ofZ nb) (Some (fin (inject_Z k / inject_Z 100))) = Ok w ->
  hexToRgb w
  = Ok (RGBA.mk (ofZ nr) (ofZ ng) (ofZ nb) (fin (inject_Z k / inject_Z 100))).
Proof.
  intros Hr Hg Hb Hk Hw.
  destruct (channel_ofZ nr Hr) as [Rr Mr], (channel_ofZ ng Hg) as [Rg Mg],
    (channel_ofZ nb Hb) as [Rb Mb].
  destruct (alpha_back_checked k Hk) as (Ra & Da & m & Hm & Em & Eback).
  pose proof (validateRgb_ok _ _ _ _ Rr Rg Rb Ra) as Hv.
  rewrite Mr, Mg, Mb, Da in Hv.
  rewrite (rgbToHex_ok _ _ _ _ _ Hv) in Hw.
  cbn [RGBA.red RGBA.green RGBA.blue RGBA.alpha] in Hw. rewrite Em in Hw.
  destruct (byte_checked nr Hr) as (c1 & c2 & E1 & U1 & U2 & D1).
  destruct (byte_checked ng Hg) as (c3 & c4 & E2 & U3 & U4 & D2).
  destruct (byte_checked nb Hb) as (c5 & c6 & E3 & U5 & U6 & D3).
  destruct (byte_checked m Hm) as (c7 & c8 & E4 & U7 & U8 & D4).
  rewrite E1, E2, E3, E4 in Hw. injection Hw as <-.
  rewrite (hexToRgb_digits _ c1 c2 c3 c4 c5 c6 c7 c8).
  - now rewrite D1, D2, D3, D4, Eback.
  - now apply parseHex_normal.
Qed.

Lemma validateHsl_alpha (h s l : number) (a : option number) (x : HSLA.t) :
  validateHsl h s l a = Ok x -> alpha_accepted a.
Proof.
  unfold validateHsl, alpha_accepted.
  destruct (isNaN h || _ || _)%js; [discriminate|].
  destruct (out_of_range s _ _); [discriminate|].
  destruct (out_of_range l _ _); [discriminate|].
  destruct (provided_truthy a && _); [discriminate|reflexivity].
Qed.

Lemma hslToRgb_inv (h s l : number) (a : option number) (y : RGBA.t) :
  hslToRgb h s l a = Ok y ->
  exists e1 e2 e3,
    RGBA.red y = round e1 0 /\ RGBA.green y = round e2 0 /\ RGBA.blue y = round e3 0.
Proof.
  unfold hslToRgb. destruct (validateHsl h s l a) as [x|]; [|discriminate].
  cbn [bind]. destruct (huePrimeToRGB _ _ _) as [[rp gp] bp].
  intros [= <-]. cbn [RGBA.red RGBA.green RGBA.blue].
  do 3 eexists. repeat split.
Qed.

Lemma in_range_ofZ (n : Z) : in_range (ofZ n) (ofZ 0) (ofZ 255) -> 0 <= n <= 255.
Proof.
  unfold in_range, out_of_range, ofZ. cbn [isNaN orb JS.ltb JS.gtb]. intros H.
  apply orb_false_iff in H as [H0 H1].
  apply negb_false_iff, Qle_bool_iff in H0, H1.
  rewrite <- Zle_Qle in H0, H1. lia.
Qed.

(** A channel produced by [round(_, 0)] that passes the range check is an
    integer between 0 and 255. *)
Lemma round0_channel (e : number) :
  in_range (round e 0) (ofZ 0) (ofZ 255) ->
  exists n, 0 <= n <= 255 /\ round e 0 = ofZ n.
Proof.
  destruct e as [| s | q].
  - discriminate.
  - destruct s; discriminate.
  - intros H.
    assert (E : round (Fin q) 0 = ofZ (Qfloor (q + (1 # 2)))).
    { rewrite round_fin, <- fin_ofZ. apply fin_ext.
      change (inject_Z (10 ^ Z.of_nat 0)) with 1%Q.
      rewrite (Qfloor_comp (q * 1 + (1 # 2)) (q + (1 # 2)))%Q by ring.
      field. }
    rewrite E in H. apply in_range_ofZ in H. eauto.
Qed.

Lemma parseRgb_inv (s : string) (x : RGBA.t) :
  parseRgb s = Ok x -> exists r g b a, validateRgb r g b a = Ok x.
Proof.
  unfold parseRgb. destruct (Regex.match_ RGB_HEX 4 s); [eauto|discriminate].
Qed.

Lemma parseHsl_inv (s : string) (x : HSLA.t) :
  parseHsl s = Ok x -> exists h sa l a, validateHsl h sa l a = Ok x.
Proof.
  unfold parseHsl. destruct (Regex.match_ HSL_REGEX 4 s); [eauto|discriminate].
Qed.

Lemma validated_rgb_decodes (r g b : number) (a : option number)
    (x : RGBA.t) (c : ColorAttributes) :
  validateRgb r g b a = Ok x -> Color.getAttributesFromRgb x = Ok c ->
  isNaN (alpha c) = false -> rgb_of_hex c.
Proof.
  intros Hv Hc Hn.
  apply validateRgb_inv in Hv as (Hr & Hg & Hb & Ha & ->).
  apply getAttributesFromRgb_inv in Hc as (h0 & w & _ & Hw & ->).
  cbn [RGBA.red RGBA.green RGBA.blue RGBA.alpha alpha] in *.
  destruct (channel_round r Hr) as (nr & Hnr & Er).
  destruct (channel_round g Hg) as (ng & Hng & Eg).
  destruct (channel_round b Hb) as (nb & Hnb & Eb).
  destruct (defaultAlpha_form a Ha Hn) as (k & Hk & Ek).
  rewrite Er, Eg, Eb, Ek in *.
  unfold rgb_of_hex, rgba_of. cbn [hexCode red green blue alpha].
  now apply rgbToHex_decodes.
Qed.

Lemma validated_hsl_decodes (h s l : number) (a : option number)
    (x : HSLA.t) (c : ColorAttributes) :
  validateHsl h s l a = Ok x -> Color.getAttributesFromHsl x = Ok c ->
  isNaN (alpha c) = false -> rgb_of_hex c.
Proof.
  intros Hv Hc Hn.
  pose proof (validateHsl_alpha _ _ _ _ _ Hv) as Ha.
  apply validateHsl_inv in Hv as ->.
  apply getAttributesFromHsl_inv in Hc as (y & w & Hy & Hw & ->).
  cbn [HSLA.hue HSLA.saturation HSLA.lightness HSLA.alpha alpha] in *.
  destruct (rgbToHex_inv _ _ _ _ _ Hw) as [z Hz].
  apply validateRgb_inv in Hz as (Hr & Hg & Hb & _ & _).
  apply hslToRgb_inv in Hy as (e1 & e2 & e3 & E1 & E2 & E3).
  rewrite E1 in Hr; rewrite E2 in Hg; rewrite E3 in Hb.
  destruct (round0_channel e1 Hr) as (nr & Hnr & Er).
  destruct (round0_channel e2 Hg) as (ng & Hng & Eg).
  destruct (round0_channel e3 Hb) as (nb & Hnb & Eb).
  destruct (defaultAlpha_form a Ha Hn) as (k & Hk & Ek).
  rewrite E1, E2, E3, Er, Eg, Eb, Ek in *.
  unfold rgb_of_hex, rgba_of. cbn [hexCode red green blue alpha].
  now apply rgbToHex_decodes.
Qed.

(** In every observable state whose alpha is a number, the stored hex code
    decodes to the stored red, green, blue and alpha. *)
Lemma observable_hex_decodes (o : origin) (c : ColorAttributes) :
  observable o c -> isNaN (alpha c) = false -> rgb_of_hex c.
Proof.
  induction 1 as [s c Hh Hn | s c Hh Hr Hn | s c Hh Hr Hn | r g b a c Hc
                  | h s l a c Hc | o this this' f v _ _ Hs
                  | o this this' f v e _ IH Hs].
  - intros _. rewrite new_attributes, getAttributesFromString_route, Hh in Hn.
    apply (getAttributesFromHex_consistent _ _ Hn).
  - rewrite new_attributes, getAttributesFromString_route, Hh, Hr in Hn.
    destruct (parseRgb s) as [x|] eqn:Ep; [|discriminate].
    apply parseRgb_inv in Ep as (r & g & b & a & Hv).
    exact (validated_rgb_decodes _ _ _ _ _ _ Hv Hn).
  - rewrite new_attributes, getAttributesFromString_route, Hh, Hr in Hn.
    destruct (Str.includes s "hsl"); [|discriminate].
    destruct (parseHsl s) as [x|] eqn:Ep; [|discriminate].
    apply parseHsl_inv in Ep as (h & sa & l & a & Hv).
    exact (validated_hsl_decodes _ _ _ _ _ _ Hv Hn).
  - unfold Color.rgb in Hc.
    destruct (validateRgb r g b a) as [x|] eqn:Hv; [|discriminate]. cbn [bind] in Hc.
    destruct (Color.getAttributesFromRgb x) as [attributes|] eqn:E; [|discriminate].
    cbn [bind] in Hc. rewrite white_attrs in Hc. cbn [bind] in Hc.
    rewrite updated_setAttributes in Hc. injection Hc as <-.
    exact (validated_rgb_decodes _ _ _ _ _ _ Hv E).
  - unfold Color.hsl in Hc.
    destruct (validateHsl h s l a) as [x|] eqn:Hv; [|discriminate]. cbn [bind] in Hc.
    destruct (Color.getAttributesFromHsl x) as [attributes|] eqn:E; [|discriminate].
    cbn [bind] in Hc. rewrite white_attrs in Hc. cbn [bind] in Hc.
    rewrite updated_setAttributes in Hc. injection Hc as <-.
    exact (validated_hsl_decodes _ _ _ _ _ _ Hv E).
  - revert Hs. rewrite set_field_unfold.
    destruct f; rewrite ?rgb_update_run, ?hsl_update_run;
      match goal with
      | |- context [validateRgb ?r ?g ?b ?a] =>
          destruct (validateRgb r g b a) as [x|] eqn:Hv; [|discriminate];
          destruct (Color.getAttributesFromRgb x) as [c|] eqn:E; [|discriminate];
          intros [= <-]; exact (validated_rgb_decodes _ _ _ _ _ _ Hv E)
      | |- context [validateHsl ?h ?s ?l ?a] =>
          destruct (validateHsl h s l a) as [x|] eqn:Hv; [|discriminate];
          destruct (Color.getAttributesFromHsl x) as [c|] eqn:E; [|discriminate];
          intros [= <-]; exact (validated_hsl_decodes _ _ _ _ _ _ Hv E)
      end.
  - apply set_field_throw_unchanged in Hs. now subst.
Qed.

(** C2 (amended).  In every observable state the representations are tied
    together by the codecs, according to the notation the state was last
    derived from.  From a hex string: (red, green, blue, alpha) is
    [hexToRgb(hexCode)] and (hue, saturation, lightness) is
    [rgbToHsl(red, green, blue)].  From an rgb string, [Color.rgb] or an
    assignment to red, green, blue or alpha: hexCode is
    [rgbToHex(red, green, blue, alpha)] and (hue, saturation, lightness) is
    [rgbToHsl(red, green, blue)].  From an hsl string, [Color.hsl] or an
    assignment to hue, saturation or lightness: hexCode is
    [rgbToHex(red, green, blue, alpha)] and (red, green, blue) is
    [hslToRgb(hue, saturation, lightness)].  Whatever the origin, when the
    stored alpha is a number the stored hex code decodes, by [hexToRgb], to
    the stored red, green, blue and alpha. *)
Theorem observable_consistent (o : origin) (c : ColorAttributes) :
  observable o c ->
  consistent o c /\ (isNaN (alpha c) = false -> rgb_of_hex c).
Proof.
  intros H. split.
  - exact (observable_representations o c H).
  - exact (observable_hex_decodes o c H).
Qed.

Lemma observable_consistent_witness :
  consistent FromHsl
    (mkColor "#808080FF" (ofZ 128) (ofZ 128) (ofZ 128) (ofZ 0) (ofZ 0) (Fin (1 # 2)) (ofZ 1))
  /\ rgb_of_hex
       (mkColor "#808080FF" (ofZ 128) (ofZ 128) (ofZ 128) (ofZ 0) (ofZ 0) (Fin (1 # 2)) (ofZ 1)).
Proof.
  assert (Hobs : observable FromHsl
            (mkColor "#808080FF" (ofZ 128) (ofZ 128) (ofZ 128)
               (ofZ 0) (ofZ 0) (Fin (1 # 2)) (ofZ 1))).
  { apply (obs_set FromHex
             (mkColor "#FFFFFFFF" (ofZ 255) (ofZ 255) (ofZ 255)
                (ofZ 0) (ofZ 0) (ofZ 1) (ofZ 1))
             _ Lightness (Fin (1 # 2))).
    - apply (obs_new_hex "#FFF"); reflexivity.
    - reflexivity. }
  destruct (observable_consistent _ _ Hobs) as [Hc Hd].
  split; [exact Hc | apply Hd; reflexivity].
Defined.

(** C2 (as stated) fails.  A colour built from [#00000001] keeps that hex
    code while its alpha is 0, so [rgbToHex(red, green, blue, alpha)] is
    [#00000000]; a colour built from [hsl(120, 0%, 50%)] keeps hue 120 while
    [rgbToHsl] of its grey channels gives hue 0. *)
Lemma observable_consistent_counterexample :
  Color.new "#00000001"
  = Ok (mkColor "#00000001" (ofZ 0) (ofZ 0) (ofZ 0) (ofZ 0) (ofZ 0) (ofZ 0) (ofZ 0))
  /\ rgbToHex (ofZ 0) (ofZ 0) (ofZ 0) (Some (ofZ 0)) = Ok "#00000000"
  /\ Color.new "hsl(120, 0%, 50%)"
     = Ok (mkColor "#808080FF" (ofZ 128) (ofZ 128) (ofZ 128)
             (ofZ 120) (ofZ 0) (Fin (1 # 2)) (ofZ 1))
  /\ rgbToHsl (ofZ 128) (ofZ 128) (ofZ 128) None
     = Ok (HSLA.mk (ofZ 0) (ofZ 0) (Fin (1 # 2)) (ofZ 1)).
Proof. repeat split; vm_compute; reflexivity. Qed.

(** * Further properties of the code *)

(** ** Rounding

    First in exact arithmetic, where rounding twice is rounding once; the
    stored fields of a colour are fixed points of it.  Then in double
    arithmetic. *)

Section RoundingTwice.

Local Open Scope Q_scope.

Lemma round_NaN (d : nat) : round NaN d = NaN.
Proof. reflexivity. Qed.

Lemma round_Infinity (s : bool) (d : nat) : round (Infinity s) d = Infinity s.
Proof.
  unfold round. rewrite pow10. unfold JS.mul, ofZ.
  rewrite Qzero_pow10, Qneg_pow10, xorb_false_r.
  cbn [Math.round JS.div]. now rewrite Qneg_pow10, xorb_false_r.
Qed.

Lemma floor_whole (n : Z) : Qfloor (inject_Z n + (1 # 2)) = n.
Proof.
  apply Z.le_antisymm.
  - assert (H : (inject_Z (Qfloor (inject_Z n + (1 # 2))) < inject_Z (n + 1))).
    { pose proof (Qfloor_le (inject_Z n + (1 # 2))).
      rewrite inject_Z_plus. change (inject_Z 1) with 1. lra. }
    rewrite <- Zlt_Qlt in H. lia.
  - rewrite <- (Qfloor_Z n) at 1. apply Qfloor_resp_le. lra.
Qed.

Lemma pow10_nonzero (d : nat) : ~ inject_Z (10 ^ Z.of_nat d) == 0.
Proof.
  intros H. unfold Qeq in H; simpl in H.
  pose proof (Z.pow_pos_nonneg 10 (Z.of_nat d)). lia.
Qed.

Lemma round_round (a : number) (d : nat) : round (round a d) d = round a d.
Proof.
  destruct a as [| s | q].
  - reflexivity.
  - now rewrite !round_Infinity.
  - rewrite (round_fin q d). unfold fin at 1. rewrite round_fin.
    apply fin_ext.
    set (P := inject_Z (10 ^ Z.of_nat d)).
    set (n := Qfloor (q * P + (1 # 2))).
    assert (HP : ~ P == 0) by apply pow10_nonzero.
    rewrite (Qfloor_comp _ (inject_Z n + (1 # 2))).
    + now rewrite floor_whole.
    + rewrite Qred_correct. field. exact HP.
Qed.

Lemma round_0_Math_round (a : number) : round a 0 = Math.round a.
Proof.
  destruct a as [| s | q].
  - reflexivity.
  - apply round_Infinity.
  - rewrite round_fin, Math_round_fin, <- fin_ofZ. apply fin_ext.
    change (inject_Z (10 ^ Z.of_nat 0)) with 1.
    rewrite (Qfloor_comp (q * 1 + (1 # 2)) (q + (1 # 2))) by ring.
    field.
Qed.

Lemma Math_round_whole (a : number) : whole (Math.round a).
Proof.
  unfold whole. rewrite <- !round_0_Math_round. apply round_round.
Qed.

(** X1.  In double arithmetic, with the decimals omitted [round] is
    [Math.round] on every double, [NaN] and the infinities included, and is
    idempotent; the two copies of the helper compute the same function for
    every decimal count.  With decimals [round] is not idempotent:
    [round(36341400920650.086, 2)] is [36341400920650.09], and rounding that
    again gives [36341400920650.1]. *)
Theorem round_idempotence :
  (forall a : number,
     Double.rounded a = a ->
     Double.round a 0 = Math.round a
     /\ Double.round (Double.round a 0) 0 = Double.round a 0)
  /\ (forall (a : number) (d : nat), Double.round_guarded a d = Double.round a d)
  /\ (Double.rn (36341400920650086 # 1000) = Fin (4651699317843211 # 128)
      /\ Double.round (Fin (4651699317843211 # 128)) 2 = Fin (1162924829460803 # 32)
      /\ Double.rn (3634140092065009 # 100) = Fin (1162924829460803 # 32)
      /\ Double.round (Fin (1162924829460803 # 32)) 2 = Fin (4651699317843213 # 128)
      /\ Double.rn (363414009206501 # 10) = Fin (4651699317843213 # 128)).
Proof.
  split; [|split].
  - intros a Ha. pose proof (round_0_double a Ha) as E. split; [exact E|].
    rewrite E. rewrite round_0_double.
    + apply Math_round_whole.
    + destruct a as [| s | q]; [reflexivity | reflexivity |].
      cbn [Math.round]. unfold fin. rewrite Qred_inject_Z.
      cbn [Double.rounded]. now apply Math_round_double.
  - intros a [|d]; reflexivity.
  - repeat split; vm_compute; reflexivity.
Qed.

Lemma round_idempotence_witness :
  Double.round (Fin (5 # 2)) 0 = ofZ 3
  /\ Double.round (Double.round (Fin (5 # 2)) 0) 0 = Double.round (Fin (5 # 2)) 0.
Proof.
  assert (Hd : Double.rounded (Fin (5 # 2)) = Fin (5 # 2)) by (vm_compute; reflexivity).
  exact (proj1 round_idempotence (Fin (5 # 2)) Hd).
Defined.

End RoundingTwice.

(** ** What the validators return *)

Lemma isNaN_true (a : number) : isNaN a = true -> a = NaN.
Proof. destruct a; [reflexivity | discriminate | discriminate]. Qed.

Lemma defaultAlpha_settled (a : option number) :
  round (defaultAlpha a) 2 = defaultAlpha a.
Proof. destruct a as [a|]; [apply round_round | reflexivity]. Qed.

Lemma defaultAlpha_accepted (a : option number) :
  alpha_accepted a -> alpha_accepted (Some (defaultAlpha a)).
Proof.
  intros Ha. destruct (isNaN (defaultAlpha a)) eqn:En.
  - apply isNaN_true in En. now rewrite En.
  - destruct (defaultAlpha_form a Ha En) as (k & Hk & ->).
    apply (alpha_back_checked k Hk).
Qed.

Lemma validateRgb_again (r g b : number) (a : option number) (x : RGBA.t) :
  validateRgb r g b a = Ok x ->
  validateRgb (RGBA.red x) (RGBA.green x) (RGBA.blue x) (Some (RGBA.alpha x)) = Ok x.
Proof.
  intros H. apply validateRgb_inv in H as (Hr & Hg & Hb & Ha & ->).
  cbn [RGBA.red RGBA.green RGBA.blue RGBA.alpha].
  destruct (channel_round r Hr) as (nr & Hnr & Er).
  destruct (channel_round g Hg) as (ng & Hng & Eg).
  destruct (channel_round b Hb) as (nb & Hnb & Eb).
  rewrite Er, Eg, Eb.
  destruct (channel_ofZ nr Hnr) as [Rr Mr], (channel_ofZ ng Hng) as [Rg Mg],
    (channel_ofZ nb Hnb) as [Rb Mb].
  rewrite (validateRgb_ok _ _ _ _ Rr Rg Rb (defaultAlpha_accepted a Ha)).
  rewrite Mr, Mg, Mb. unfold defaultAlpha at 1. now rewrite defaultAlpha_settled.
Qed.

(** X2.  Whatever [validateRgb] returns is normalised: red, green and blue
    are integers between 0 and 255, alpha is [k / 100] for an integer
    [0 <= k <= 100] or else [NaN], and validating the returned values again
    returns them unchanged. *)
Theorem validateRgb_normalises (r g b : number) (a : option number) (x : RGBA.t) :
  validateRgb r g b a = Ok x ->
  (exists nr ng nb,
     (0 <= nr <= 255 /\ 0 <= ng <= 255 /\ 0 <= nb <= 255)
     /\ RGBA.red x = ofZ nr /\ RGBA.green x = ofZ ng /\ RGBA.blue x = ofZ nb)
  /\ (RGBA.alpha x = NaN
      \/ exists k, 0 <= k <= 100 /\ RGBA.alpha x = fin (inject_Z k / inject_Z 100))
  /\ validateRgb (RGBA.red x) (RGBA.green x) (RGBA.blue x) (Some (RGBA.alpha x)) = Ok x.
Proof.
  intros H. split; [|split].
  - apply validateRgb_inv in H as (Hr & Hg & Hb & _ & ->).
    destruct (channel_round r Hr) as (nr & Hnr & Er).
    destruct (channel_round g Hg) as (ng & Hng & Eg).
    destruct (channel_round b Hb) as (nb & Hnb & Eb).
    exists nr, ng, nb. cbn [RGBA.red RGBA.green RGBA.blue]. auto.
  - apply validateRgb_inv in H as (_ & _ & _ & Ha & ->).
    cbn [RGBA.alpha]. destruct (isNaN (defaultAlpha a)) eqn:En.
    + left. now apply isNaN_true.
    + right. exact (defaultAlpha_form a Ha En).
  - exact (validateRgb_again _ _ _ _ _ H).
Qed.

Lemma validateRgb_normalises_witness :
  validateRgb (Fin (1273 # 5)) (Fin (2 # 5)) (ofZ 0) (Some (Fin (1 # 3)))
  = Ok (RGBA.mk (ofZ 255) (ofZ 0) (ofZ 0) (Fin (33 # 100)))
  /\ validateRgb (ofZ 255) (ofZ 0) (ofZ 0) (Some (Fin (33 # 100)))
     = Ok (RGBA.mk (ofZ 255) (ofZ 0) (ofZ 0) (Fin (33 # 100))).
Proof.
  split; [reflexivity|].
  exact (proj2 (proj2 (validateRgb_normalises
                         (Fin (1273 # 5)) (Fin (2 # 5)) (ofZ 0) (Some (Fin (1 # 3)))
                         _ eq_refl))).
Defined.

Section HslValidation.

Local Open Scope Q_scope.

Lemma validateHsl_ok (h s l : number) (a : option number) :
  hue_accepted h -> in_range s (ofZ 0) (ofZ 1) -> in_range l (ofZ 0) (ofZ 1) ->
  alpha_accepted a ->
  validateHsl h s l a
  = Ok (HSLA.mk (round h 0) (round s 2) (round l 2) (defaultAlpha a)).
Proof.
  unfold hue_accepted, in_range, alpha_accepted, validateHsl.
  intros Hh Hs Hl Ha. rewrite Hh, Hs, Hl, Ha. reflexivity.
Qed.

Lemma validateHsl_checks (h s l : number) (a : option number) (x : HSLA.t) :
  validateHsl h s l a = Ok x ->
  hue_accepted h /\ in_range s (ofZ 0) (ofZ 1) /\ in_range l (ofZ 0) (ofZ 1)
  /\ alpha_accepted a.
Proof.
  unfold hue_accepted, in_range, alpha_accepted, validateHsl.
  destruct (isNaN h || _ || _)%js; [discriminate|].
  destruct (out_of_range s _ _); [discriminate|].
  destruct (out_of_range l _ _); [discriminate|].
  destruct (provided_truthy a && _); [discriminate|].
  intros _. repeat split.
Qed.

Lemma in_range_inv (a : number) (lo hi : Z) :
  in_range a (ofZ lo) (ofZ hi) ->
  exists q, a = Fin q /\ inject_Z lo <= q <= inject_Z hi.
Proof.
  unfold in_range, out_of_range, ofZ. destruct a as [| s | q]; try discriminate.
  - destruct s; discriminate.
  - cbn [isNaN orb JS.ltb JS.gtb]. intros H.
    apply orb_false_iff in H as [H0 H1].
    apply negb_false_iff, Qle_bool_iff in H0, H1. eauto.
Qed.

Lemma in_range_intro (q : Q) (lo hi : Z) :
  inject_Z lo <= q <= inject_Z hi -> in_range (Fin q) (ofZ lo) (ofZ hi).
Proof.
  intros [H0 H1]. unfold in_range, out_of_range, ofZ.
  cbn [isNaN orb JS.ltb JS.gtb].
  apply orb_false_iff; split; apply negb_false_iff, Qle_bool_iff; assumption.
Qed.

Lemma hue_accepted_inv (h : number) :
  hue_accepted h -> exists q, h = Fin q /\ 0 <= q < 360.
Proof.
  unfold hue_accepted, ofZ. destruct h as [| s | q]; try discriminate.
  - destruct s; discriminate.
  - cbn [isNaN orb JS.ltb JS.geb JS.leb]. intros H.
    apply orb_false_iff in H as [H0 H1].
    apply negb_false_iff, Qle_bool_iff in H0.
    apply not_true_iff_false in H1. rewrite Qle_bool_iff in H1.
    change (inject_Z 0) with 0 in H0. change (inject_Z 360) with 360 in H1.
    exists q. split; [reflexivity|]. split; [assumption|].
    apply Qnot_le_lt. exact H1.
Qed.

Lemma hue_accepted_ofZ (n : Z) : hue_accepted (ofZ n) <-> (0 <= n < 360)%Z.
Proof.
  unfold hue_accepted, ofZ. cbn [isNaN orb JS.ltb JS.geb JS.leb].
  rewrite orb_false_iff, negb_false_iff, Qle_bool_iff, <- not_true_iff_false,
    Qle_bool_iff, <- !Zle_Qle. lia.
Qed.

(** Rounding a value of the unit interval to two decimals gives [i / 100]. *)
Lemma round2_unit (q : Q) :
  0 <= q <= 1 ->
  exists i, (0 <= i <= 100)%Z /\ round (Fin q) 2 = fin (inject_Z i / inject_Z 100).
Proof.
  intros [H0 H1]. rewrite round_fin.
  change (inject_Z (10 ^ Z.of_nat 2)) with (inject_Z 100).
  exists (Qfloor (q * inject_Z 100 + (1 # 2))). split; [|reflexivity].
  destruct (floor_half_bounds (q * inject_Z 100)) as [Hlo Hhi].
  change (inject_Z 100) with 100 in *.
  split.
  - change 0%Z with (Qfloor 0). apply Qfloor_resp_le. lra.
  - assert (Hlt : inject_Z (Qfloor (q * 100 + (1 # 2))) < inject_Z 101).
    { change (inject_Z 101) with 101. lra. }
    rewrite <- Zlt_Qlt in Hlt. lia.
Qed.

Lemma unit_fraction_in_range (i : Z) :
  (0 <= i <= 100)%Z -> in_range (fin (inject_Z i / inject_Z 100)) (ofZ 0) (ofZ 1).
Proof.
  intros Hi. apply in_range_intro. rewrite Qred_correct.
  change (inject_Z 0) with 0. change (inject_Z 1) with 1.
  assert (H0 : inject_Z 0 <= inject_Z i) by (rewrite <- Zle_Qle; lia).
  assert (H1 : inject_Z i <= inject_Z 100) by (rewrite <- Zle_Qle; lia).
  change (inject_Z 0) with 0 in H0. change (inject_Z 100) with 100 in *.
  split.
  - apply Qle_shift_div_l; lra.
  - apply Qle_shift_div_r; lra.
Qed.

Lemma round_hue (q : Q) :
  0 <= q < 360 ->
  exists n, (0 <= n <= 360)%Z /\ round (Fin q) 0 = ofZ n
            /\ (q < 719 # 2 -> (n <= 359)%Z) /\ (719 # 2 <= q -> n = 360%Z).
Proof.
  intros [H0 H1]. rewrite round_0_Math_round, Math_round_fin.
  exists (Qfloor (q + (1 # 2))). destruct (floor_half_bounds q) as [Hlo Hhi].
  assert (Hge : (0 <= Qfloor (q + (1 # 2)))%Z).
  { change 0%Z with (Qfloor 0). apply Qfloor_resp_le. lra. }
  assert (Hle : (Qfloor (q + (1 # 2)) <= 360)%Z).
  { assert (Hlt : inject_Z (Qfloor (q + (1 # 2))) < inject_Z 361).
    { change (inject_Z 361) with 361. lra. }
    rewrite <- Zlt_Qlt in Hlt. lia. }
  repeat split; try assumption.
  - intros Hq.
    assert (Hlt : inject_Z (Qfloor (q + (1 # 2))) < inject_Z 360).
    { change (inject_Z 360) with 360. lra. }
    rewrite <- Zlt_Qlt in Hlt. lia.
  - intros Hq. apply Z.le_antisymm; [assumption|].
    change 360%Z with (Qfloor 360). apply Qfloor_resp_le. lra.
Qed.

End HslValidation.

Lemma validateHsl_again (h s l : number) (a : option number) (x : HSLA.t) :
  validateHsl h s l a = Ok x ->
  hue_accepted (HSLA.hue x) ->
  validateHsl (HSLA.hue x) (HSLA.saturation x) (HSLA.lightness x)
    (Some (HSLA.alpha x)) = Ok x.
Proof.
  intros H Hh. pose proof (validateHsl_checks _ _ _ _ _ H) as (_ & Hs & Hl & Ha).
  apply validateHsl_inv in H as ->.
  cbn [HSLA.hue HSLA.saturation HSLA.lightness HSLA.alpha] in *.
  apply in_range_inv in Hs as (qs & -> & Hqs).
  apply in_range_inv in Hl as (ql & -> & Hql).
  destruct (round2_unit qs Hqs) as (i & Hi & Ei).
  destruct (round2_unit ql Hql) as (j & Hj & Ej).
  rewrite validateHsl_ok.
  - rewrite !round_round. unfold defaultAlpha at 1.
    now rewrite defaultAlpha_settled.
  - exact Hh.
  - rewrite Ei. now apply unit_fraction_in_range.
  - rewrite Ej. now apply unit_fraction_in_range.
  - now apply defaultAlpha_accepted.
Qed.

(** X3.  Whatever [validateHsl] returns has an integer hue between 0 and 360
    inclusive, saturation and lightness of the form [i / 100] within [0, 1],
    and alpha [k / 100] within [0, 1] or else [NaN].  The hue 360 is reached
    (from a hue of 359.5 or more), and it is the one case in which
    validating the returned values again throws [InvalidHSLCode]; in every
    other case validating again returns them unchanged. *)
Theorem validateHsl_normalises (h s l : number) (a : option number) (x : HSLA.t) :
  validateHsl h s l a = Ok x ->
  (exists n, 0 <= n <= 360 /\ HSLA.hue x = ofZ n)
  /\ (exists i, 0 <= i <= 100 /\ HSLA.saturation x = fin (inject_Z i / inject_Z 100))
  /\ (exists j, 0 <= j <= 100 /\ HSLA.lightness x = fin (inject_Z j / inject_Z 100))
  /\ (HSLA.alpha x = NaN
      \/ exists k, 0 <= k <= 100 /\ HSLA.alpha x = fin (inject_Z k / inject_Z 100))
  /\ (HSLA.hue x <> ofZ 360 ->
      validateHsl (HSLA.hue x) (HSLA.saturation x) (HSLA.lightness x)
        (Some (HSLA.alpha x)) = Ok x)
  /\ (HSLA.hue x = ofZ 360 ->
      exists w,
        validateHsl (HSLA.hue x) (HSLA.saturation x) (HSLA.lightness x)
          (Some (HSLA.alpha x)) = Throw (InvalidHSLCode w)).
Proof.
  intros H.
  pose proof (validateHsl_checks _ _ _ _ _ H) as (Hh & Hs & Hl & Ha).
  pose proof (validateHsl_inv _ _ _ _ _ H) as Ex.
  apply hue_accepted_inv in Hh as (qh & Eh & Hqh).
  apply in_range_inv in Hs as (qs & Es & Hqs).
  apply in_range_inv in Hl as (ql & El & Hql).
  destruct (round_hue qh Hqh) as (n & Hn & En & _ & _).
  destruct (round2_unit qs Hqs) as (i & Hi & Ei).
  destruct (round2_unit ql Hql) as (j & Hj & Ej).
  assert (Hhue : HSLA.hue x = ofZ n) by (rewrite Ex, Eh; exact En).
  split; [eauto|]. split; [exists i; rewrite Ex, Es; auto|].
  split; [exists j; rewrite Ex, El; auto|].
  split.
  { rewrite Ex. cbn [HSLA.alpha]. destruct (isNaN (defaultAlpha a)) eqn:E.
    - left. now apply isNaN_true.
    - right. exact (defaultAlpha_form a Ha E). }
  split.
  - intros Hne. apply (validateHsl_again _ _ _ _ _ H).
    rewrite Hhue. apply hue_accepted_ofZ.
    assert (n <> 360) by (intros ->; now apply Hne). lia.
  - intros H360.
    destruct (validateHsl (HSLA.hue x) (HSLA.saturation x) (HSLA.lightness x)
                (Some (HSLA.alpha x))) as [y|e] eqn:E.
    + apply validateHsl_checks in E as (Hbad & _). rewrite H360 in Hbad.
      apply hue_accepted_ofZ in Hbad. lia.
    + destruct (validateHsl_throws _ _ _ _ _ E) as [w ->]. eauto.
Qed.

Lemma validateHsl_normalises_witness :
  validateHsl (Fin (719 # 2)) (ofZ 1) (Fin (1 # 2)) None
  = Ok (HSLA.mk (ofZ 360) (ofZ 1) (Fin (1 # 2)) (ofZ 1))
  /\ exists w,
       validateHsl (ofZ 360) (ofZ 1) (Fin (1 # 2)) (Some (ofZ 1))
       = Throw (InvalidHSLCode w).
Proof.
  split; [reflexivity|].
  exact (proj2 (proj2 (proj2 (proj2 (proj2
           (validateHsl_normalises (Fin (719 # 2)) (ofZ 1) (Fin (1 # 2)) None
              _ eq_refl))))) eq_refl).
Defined.

(** ** The kind of error each codec function throws *)

Lemma parseHex_throws (s : string) (e : ColorError) :
  parseHex s = Throw e -> e = InvalidHexCode s.
Proof.
  unfold parseHex. destruct (negb (Regex.test HEX_REGEX s)).
  - now intros [= <-].
  - destruct (String.length s =? 4)%nat; [discriminate|].
    destruct (String.length s =? 7)%nat; discriminate.
Qed.

Lemma hexToRgb_throws (s : string) (e : ColorError) :
  hexToRgb s = Throw e -> e = InvalidHexCode s.
Proof.
  unfold hexToRgb. destruct (parseHex s) as [N|e'] eqn:E; [discriminate|].
  cbn [bind]. intros [= <-]. exact (parseHex_throws _ _ E).
Qed.

Lemma rgbToHex_throws (r g b : number) (a : option number) (e : ColorError) :
  rgbToHex r g b a = Throw e -> exists w, e = InvalidRGBCode w.
Proof.
  unfold rgbToHex. destruct (validateRgb r g b a) as [x|e'] eqn:E; [discriminate|].
  cbn [bind]. intros [= <-]. exact (validateRgb_throws _ _ _ _ _ E).
Qed.

Lemma rgbToHsl_throws (r g b : number) (a : option number) (e : ColorError) :
  rgbToHsl r g b a = Throw e -> exists w, e = InvalidRGBCode w.
Proof.
  unfold rgbToHsl. destruct (validateRgb r g b a) as [x|e'] eqn:E; [discriminate|].
  cbn [bind]. intros [= <-]. exact (validateRgb_throws _ _ _ _ _ E).
Qed.

Lemma hslToRgb_throws (h s l : number) (a : option number) (e : ColorError) :
  hslToRgb h s l a = Throw e -> exists w, e = InvalidHSLCode w.
Proof.
  unfold hslToRgb. destruct (validateHsl h s l a) as [x|e'] eqn:E.
  - cbn [bind]. destruct (huePrimeToRGB _ _ _) as [[? ?] ?]. discriminate.
  - cbn [bind]. intros [= <-]. exact (validateHsl_throws _ _ _ _ _ E).
Qed.

Lemma parseRgb_throws (s : string) (e : ColorError) :
  parseRgb s = Throw e -> exists w, e = InvalidRGBCode w.
Proof.
  unfold parseRgb. destruct (Regex.match_ RGB_HEX 4 s).
  - apply validateRgb_throws.
  - intros [= <-]. eauto.
Qed.

Lemma parseHsl_throws (s : string) (e : ColorError) :
  parseHsl s = Throw e -> exists w, e = InvalidHSLCode w.
Proof.
  unfold parseHsl. destruct (Regex.match_ HSL_REGEX 4 s).
  - apply validateHsl_throws.
  - intros [= <-]. eauto.
Qed.

(** X4.  Each codec throws one kind of error only, whatever the input:
    [parseHex] and [hexToRgb] throw [InvalidHexCode] carrying the input
    string; [validateRgb], [parseRgb], [rgbToHex] and [rgbToHsl] throw
    [InvalidRGBCode]; [validateHsl], [parseHsl] and [hslToRgb] throw
    [InvalidHSLCode]. *)
Theorem codec_error_kinds (e : ColorError) :
  (forall s, parseHex s = Throw e \/ hexToRgb s = Throw e -> e = InvalidHexCode s)
  /\ (forall r g b a,
        validateRgb r g b a = Throw e \/ rgbToHex r g b a = Throw e
        \/ rgbToHsl r g b a = Throw e ->
        exists w, e = InvalidRGBCode w)
  /\ (forall s, parseRgb s = Throw e -> exists w, e = InvalidRGBCode w)
  /\ (forall h s l a,
        validateHsl h s l a = Throw e \/ hslToRgb h s l a = Throw e ->
        exists w, e = InvalidHSLCode w)
  /\ (forall s, parseHsl s = Throw e -> exists w, e = InvalidHSLCode w).
Proof.
  split; [|split; [|split; [|split]]].
  - intros s [H | H]; [exact (parseHex_throws _ _ H) | exact (hexToRgb_throws _ _ H)].
  - intros r g b a [H | [H | H]];
      [exact (validateRgb_throws _ _ _ _ _ H) | exact (rgbToHex_throws _ _ _ _ _ H)
       | exact (rgbToHsl_throws _ _ _ _ _ H)].
  - exact (fun s => parseRgb_throws s e).
  - intros h s l a [H | H];
      [exact (validateHsl_throws _ _ _ _ _ H) | exact (hslToRgb_throws _ _ _ _ _ H)].
  - exact (fun s => parseHsl_throws s e).
Qed.

Lemma codec_error_kinds_witness :
  InvalidHexCode "#12" = InvalidHexCode "#12"
  /\ exists w, InvalidRGBCode "rgb(300, 0, 0)" = InvalidRGBCode w.
Proof.
  split.
  - apply (proj1 (codec_error_kinds (InvalidHexCode "#12")) "#12").
    right. reflexivity.
  - apply (proj1 (proj2 (proj2 (codec_error_kinds (InvalidRGBCode "rgb(300, 0, 0)"))))
             "rgb(300, 0, 0)").
    reflexivity.
Defined.

(** ** Decoding a hex string *)

Section HexDecoding.

Local Open Scope Q_scope.

Lemma byte_alpha (m : Z) :
  (0 <= m <= 255)%Z ->
  exists k, (0 <= k <= 100)%Z
    /\ round (ofZ m / ofZ 255)%js 2 = fin (inject_Z k / inject_Z 100).
Proof.
  intros Hm. unfold JS.div, ofZ. change (Qzero (inject_Z 255)) with false.
  cbv iota. unfold fin at 1. apply round2_unit.
  rewrite Qred_correct.
  assert (H0 : inject_Z 0 <= inject_Z m) by (rewrite <- Zle_Qle; lia).
  assert (H1 : inject_Z m <= inject_Z 255) by (rewrite <- Zle_Qle; lia).
  change (inject_Z 0) with 0 in H0. change (inject_Z 255) with 255 in *.
  split.
  - apply Qle_shift_div_l; lra.
  - apply Qle_shift_div_r; lra.
Qed.

Lemma digits_channel (c1 c2 : ascii) :
  is_upper_hex c1 = true -> is_upper_hex c2 = true ->
  exists n, (0 <= n <= 255)%Z /\ stringToDecimals (digits2 c1 c2) = ofZ n.
Proof.
  intros H1 H2. destruct (channel_checked c1 c2 H1 H2) as (R & M & _).
  destruct (channel_round _ R) as (n & Hn & E). rewrite M in E. eauto.
Qed.

End HexDecoding.

(** X5.  Whatever [hexToRgb] returns has integer red, green and blue between
    0 and 255 and an alpha of the form [k / 100] with [0 <= k <= 100]; for a
    3- or 6-digit input the alpha is 1. *)
Theorem hexToRgb_ranges (H : string) (c : RGBA.t) :
  hexToRgb H = Ok c ->
  (exists nr ng nb k,
     (0 <= nr <= 255 /\ 0 <= ng <= 255 /\ 0 <= nb <= 255 /\ 0 <= k <= 100)
     /\ c = RGBA.mk (ofZ nr) (ofZ ng) (ofZ nb) (fin (inject_Z k / inject_Z 100)))
  /\ (String.length H <> 9%nat -> RGBA.alpha c = ofZ 1).
Proof.
  intros Hc. destruct (parseHex H) as [N|e] eqn:Hp.
  2:{ unfold hexToRgb in Hc. rewrite Hp in Hc. discriminate. }
  destruct (parseHex_shape _ _ Hp)
    as (c1 & c2 & c3 & c4 & c5 & c6 & c7 & c8 & -> & [H1 H2] & [H3 H4] & [H5 H6]
        & [H7 H8] & Hshort).
  rewrite (hexToRgb_digits _ _ _ _ _ _ _ _ _ Hp) in Hc. injection Hc as <-.
  destruct (digits_channel c1 c2 H1 H2) as (nr & Hnr & ->).
  destruct (digits_channel c3 c4 H3 H4) as (ng & Hng & ->).
  destruct (digits_channel c5 c6 H5 H6) as (nb & Hnb & ->).
  split.
  - destruct (digits_channel c7 c8 H7 H8) as (m & Hm & ->).
    destruct (byte_alpha m Hm) as (k & Hk & ->).
    exists nr, ng, nb, k. auto.
  - intros Hlen. cbn [RGBA.alpha]. now rewrite (Hshort Hlen).
Qed.

Lemma hexToRgb_ranges_witness :
  RGBA.alpha (RGBA.mk (ofZ 255) (ofZ 128) (ofZ 0) (ofZ 1)) = ofZ 1.
Proof.
  apply (proj2 (hexToRgb_ranges "#ff8000" _ eq_refl)). discriminate.
Defined.

(** ** Normal forms of hex strings *)

Lemma upper_char_twice (c : ascii) : Str.upper_char (Str.upper_char c) = Str.upper_char c.
Proof. destruct c as [[] [] [] [] [] [] [] []]; reflexivity. Qed.

Lemma is_hex_upper_char (c : ascii) : Str.is_hex (Str.upper_char c) = Str.is_hex c.
Proof. destruct c as [[] [] [] [] [] [] [] []]; reflexivity. Qed.

Lemma toUpperCase_twice (s : string) :
  Str.toUpperCase (Str.toUpperCase s) = Str.toUpperCase s.
Proof.
  induction s as [|c s IH]; simpl; [reflexivity|].
  now rewrite upper_char_twice, IH.
Qed.

Lemma all_hex_toUpperCase (s : string) : all_hex (Str.toUpperCase s) = all_hex s.
Proof.
  induction s as [|c s IH]; simpl; [reflexivity|].
  now rewrite is_hex_upper_char, IH.
Qed.

Lemma accepted_toUpperCase (s : string) :
  accepted_hex_form (Str.toUpperCase s) = accepted_hex_form s.
Proof.
  destruct s as [|c ds]; [reflexivity|].
  cbn [Str.toUpperCase accepted_hex_form].
  rewrite all_hex_toUpperCase, toUpperCase_length.
  destruct c as [[] [] [] [] [] [] [] []]; reflexivity.
Qed.

Lemma parseHex_upper_output (H N : string) :
  parseHex H = Ok N -> Str.toUpperCase N = N.
Proof.
  unfold parseHex. destruct (negb (Regex.test HEX_REGEX H)); [discriminate|].
  destruct (String.length H =? 4)%nat; [|destruct (String.length H =? 7)%nat];
    intros E;
    apply (f_equal (fun r => match r with Ok w => w | Throw _ => N end)) in E;
    cbv beta iota in E; subst N; apply toUpperCase_twice.
Qed.

Lemma parseHex_toUpperCase (H N : string) :
  parseHex H = Ok N -> parseHex (Str.toUpperCase H) = Ok N.
Proof.
  intros Hp. destruct (accepted_hex_form H) eqn:E.
  2:{ rewrite (parseHex_rejects _ E) in Hp. discriminate. }
  apply accepted_hex_form_inv in E as (ds & -> & Hh & [L | [L | L]]).
  - destruct ds as [|a [|b [|c [|? ?]]]]; try discriminate.
    rewrite (parseHex_3 _ _ _ Hh) in Hp. injection Hp as <-.
    cbn [Str.toUpperCase]. change (Str.upper_char "#") with "#"%char.
    rewrite parseHex_3.
    + cbn [Str.toUpperCase]. now rewrite !upper_char_twice.
    + rewrite <- Hh. cbn [all_hex]. now rewrite !is_hex_upper_char.
  - rewrite (parseHex_6 _ Hh L) in Hp. injection Hp as <-.
    cbn [Str.toUpperCase]. change (Str.upper_char "#") with "#"%char.
    rewrite parseHex_6.
    + now rewrite toUpperCase_twice.
    + now rewrite all_hex_toUpperCase.
    + now rewrite toUpperCase_length.
  - rewrite (parseHex_8 _ Hh L) in Hp. injection Hp as <-.
    cbn [Str.toUpperCase]. change (Str.upper_char "#") with "#"%char.
    rewrite parseHex_8.
    + now rewrite toUpperCase_twice.
    + now rewrite all_hex_toUpperCase.
    + now rewrite toUpperCase_length.
Qed.

Lemma parseHex_output_fixed (H N : string) : parseHex H = Ok N -> parseHex N = Ok N.
Proof.
  intros Hp.
  destruct (parseHex_shape _ _ Hp)
    as (c1 & c2 & c3 & c4 & c5 & c6 & c7 & c8 & -> & [H1 H2] & [H3 H4] & [H5 H6]
        & [H7 H8] & _).
  now apply parseHex_normal.
Qed.

(** X6.  [parseHex] normalises: its result is [#] plus eight characters, is
    already upper case, is accepted again and returned unchanged
    (idempotence), and does not depend on the letter case of the input. *)
Theorem parseHex_normal_form (H N : string) :
  parseHex H = Ok N ->
  String.length N = 9%nat
  /\ Str.toUpperCase N = N
  /\ parseHex N = Ok N
  /\ parseHex (Str.toUpperCase H) = Ok N.
Proof.
  intros Hp. split; [|split; [|split]].
  - destruct (parseHex_shape _ _ Hp)
      as (c1 & c2 & c3 & c4 & c5 & c6 & c7 & c8 & -> & _). reflexivity.
  - exact (parseHex_upper_output _ _ Hp).
  - exact (parseHex_output_fixed _ _ Hp).
  - exact (parseHex_toUpperCase _ _ Hp).
Qed.

Lemma parseHex_normal_form_witness :
  parseHex "#AbC" = Ok "#AABBCCFF"
  /\ parseHex "#AABBCCFF" = Ok "#AABBCCFF"
  /\ parseHex "#ABC" = Ok "#AABBCCFF".
Proof.
  destruct (parseHex_normal_form "#AbC" "#AABBCCFF" eq_refl) as (_ & _ & Hfix & Hup).
  split; [reflexivity|]. split; [exact Hfix | exact Hup].
Defined.

(** ** Constructing colours *)

Lemma getAttributesFromRgb_returns (r g b : number) (a : option number) (x : RGBA.t) :
  validateRgb r g b a = Ok x ->
  exists w h s l,
    Color.getAttributesFromRgb x
    = Ok (mkColor w (RGBA.red x) (RGBA.green x) (RGBA.blue x) h s l (RGBA.alpha x)).
Proof.
  intros H. apply validateRgb_again in H.
  destruct (rgbToHsl_ok _ _ _ _ _ H) as (h & s & l & Hhsl & _).
  pose proof (rgbToHex_ok _ _ _ _ _ H) as Hhex.
  destruct x as [xr xg xb xa]. cbn [RGBA.red RGBA.green RGBA.blue RGBA.alpha] in *.
  unfold Color.getAttributesFromRgb. rewrite Hhsl, Hhex. cbn [bind].
  do 4 eexists. reflexivity.
Qed.

(** X7.  [Color.rgb] returns exactly when [validateRgb] accepts its
    arguments: the new colour then holds the rounded channels and the
    defaulted alpha that [validateRgb] returned; when [validateRgb] throws,
    [Color.rgb] throws the same error. *)
Theorem Color_rgb_returns (r g b : number) (a : option number) :
  (forall x, validateRgb r g b a = Ok x ->
     exists c, Color.rgb r g b a = Ok c
       /\ red c = RGBA.red x /\ green c = RGBA.green x
       /\ blue c = RGBA.blue x /\ alpha c = RGBA.alpha x)
  /\ (forall e, validateRgb r g b a = Throw e -> Color.rgb r g b a = Throw e).
Proof.
  split.
  - intros x Hx. destruct (getAttributesFromRgb_returns _ _ _ _ _ Hx)
      as (w & h & s & l & Hc).
    eexists. split.
    + unfold Color.rgb. rewrite Hx. cbn [bind]. rewrite Hc. cbn [bind].
      rewrite white_attrs. cbn [bind]. apply updated_setAttributes.
    + repeat split.
  - intros e He. unfold Color.rgb. now rewrite He.
Qed.

Lemma Color_rgb_returns_witness :
  (exists c, Color.rgb (Fin (1 # 2)) (ofZ 0) (ofZ 0) None = Ok c
     /\ red c = ofZ 1 /\ green c = ofZ 0 /\ blue c = ofZ 0 /\ alpha c = ofZ 1)
  /\ Color.rgb (ofZ 256) (ofZ 0) (ofZ 0) None
     = Throw (InvalidRGBCode "rgb(256, 0, 0)").
Proof.
  split.
  - exact (proj1 (Color_rgb_returns (Fin (1 # 2)) (ofZ 0) (ofZ 0) None)
             (RGBA.mk (ofZ 1) (ofZ 0) (ofZ 0) (ofZ 1)) eq_refl).
  - exact (proj2 (Color_rgb_returns (ofZ 256) (ofZ 0) (ofZ 0) None) _ eq_refl).
Defined.

Lemma accepted_starts_with_hash (s : string) :
  accepted_hex_form s = true -> starts_with_hash s = true.
Proof.
  intros H. apply accepted_hex_form_inv in H as (ds & -> & _). reflexivity.
Qed.

Lemma getAttributesFromHex_returns (H N : string) :
  parseHex H = Ok N ->
  exists x h s l,
    hexToRgb N = Ok x
    /\ Color.getAttributesFromHex H
       = Ok (mkColor N (RGBA.red x) (RGBA.green x) (RGBA.blue x) h s l (RGBA.alpha x)).
Proof.
  intros Hp. pose proof (parseHex_output_fixed _ _ Hp) as HN.
  destruct (parseHex_shape _ _ Hp)
    as (c1 & c2 & c3 & c4 & c5 & c6 & c7 & c8 & EN & [H1 H2] & [H3 H4] & [H5 H6]
        & _).
  rewrite EN in HN. pose proof (hexToRgb_digits _ _ _ _ _ _ _ _ _ HN) as Hx.
  rewrite <- EN in Hx.
  destruct (channel_checked c1 c2 H1 H2) as (R1 & _ & _).
  destruct (channel_checked c3 c4 H3 H4) as (R2 & _ & _).
  destruct (channel_checked c5 c6 H5 H6) as (R3 & _ & _).
  pose proof (validateRgb_ok _ _ _ None R1 R2 R3 eq_refl) as Hv.
  destruct (rgbToHsl_ok _ _ _ _ _ Hv) as (h & s & l & Hhsl & _).
  eexists. exists h, s, l. split; [exact Hx|].
  unfold Color.getAttributesFromHex. rewrite Hp. cbn [bind]. rewrite Hx.
  cbn [bind RGBA.red RGBA.green RGBA.blue RGBA.alpha]. rewrite Hhsl. reflexivity.
Qed.

(** X8.  The constructor accepts every hex string that [parseHex] accepts:
    the new colour's hex code is the normalised string and its red, green,
    blue and alpha are [hexToRgb] of it.  A string that starts with [#] and
    that [parseHex] rejects makes the constructor throw [InvalidHexCode]
    carrying that string, even when it contains [rgb] or [hsl]. *)
Theorem new_from_hex (H : string) :
  (forall N, parseHex H = Ok N ->
     exists c, Color.new H = Ok c /\ hexCode c = N
       /\ hexToRgb N = Ok (RGBA.mk (red c) (green c) (blue c) (alpha c)))
  /\ (starts_with_hash H = true -> accepted_hex_form H = false ->
      Color.new H = Throw (InvalidHexCode H)).
Proof.
  split.
  - intros N Hp.
    destruct (getAttributesFromHex_returns _ _ Hp) as (x & h & s & l & Hx & Hc).
    eexists. split; [|split].
    + rewrite new_attributes, getAttributesFromString_route.
      rewrite accepted_starts_with_hash; [exact Hc|].
      destruct (accepted_hex_form H) eqn:E; [reflexivity|].
      rewrite (parseHex_rejects _ E) in Hp. discriminate.
    + reflexivity.
    + cbn [red green blue alpha]. rewrite Hx. now destruct x.
  - intros Hh Hrej.
    rewrite new_attributes, getAttributesFromString_route, Hh.
    unfold Color.getAttributesFromHex. now rewrite (parseHex_rejects _ Hrej).
Qed.

Lemma new_from_hex_witness :
  (exists c, Color.new "#0f0" = Ok c /\ hexCode c = "#00FF00FF"
     /\ hexToRgb "#00FF00FF" = Ok (RGBA.mk (red c) (green c) (blue c) (alpha c)))
  /\ Color.new "#rgb(1,2,3)" = Throw (InvalidHexCode "#rgb(1,2,3)").
Proof.
  split.
  - exact (proj1 (new_from_hex "#0f0") "#00FF00FF" eq_refl).
  - exact (proj2 (new_from_hex "#rgb(1,2,3)") eq_refl eq_refl).
Defined.

(** ** What an assignment changes *)

Lemma Math_round_ofZ (n : Z) : Math.round (ofZ n) = ofZ n.
Proof. unfold ofZ at 1. now rewrite Math_round_fin, floor_whole. Qed.

Lemma whole_round0 (a : number) : whole a <-> round a 0 = a.
Proof. unfold whole. now rewrite round_0_Math_round. Qed.

Lemma whole_ofZ (n : Z) : whole (ofZ n).
Proof. apply Math_round_ofZ. Qed.

Lemma whole_fin (q : Q) : whole (Fin q) -> exists n, Fin q = ofZ n.
Proof. unfold whole. rewrite Math_round_fin. intros <-. eauto. Qed.

Lemma whole_plus (a : number) (n : Z) : whole a -> whole (a + ofZ n)%js.
Proof.
  destruct a as [| s | q]; intros H.
  - reflexivity.
  - reflexivity.
  - destruct (whole_fin q H) as [m ->].
    unfold JS.add, ofZ.
    assert (E : fin (inject_Z m + inject_Z n) = ofZ (m + n)).
    { rewrite <- fin_ofZ. apply fin_ext. now rewrite inject_Z_plus. }
    rewrite E. apply whole_ofZ.
Qed.

Lemma whole_parseInt16 (s : string) : whole (Num.parseInt16 s).
Proof.
  unfold Num.parseInt16. destruct (Num.hex_prefix None s);
    [apply whole_ofZ | reflexivity].
Qed.

Lemma rgbToHsl_settled (r g b : number) (a : option number) (x : HSLA.t) :
  rgbToHsl r g b a = Ok x ->
  round (HSLA.hue x) 0 = HSLA.hue x
  /\ round (HSLA.saturation x) 2 = HSLA.saturation x
  /\ round (HSLA.lightness x) 2 = HSLA.lightness x.
Proof.
  unfold rgbToHsl. destruct (validateRgb r g b a) as [y|]; [|discriminate].
  cbn [bind]. intros E.
  apply (f_equal (fun res => match res with Ok w => w | Throw _ => x end)) in E.
  cbv beta iota in E. subst x.
  cbn [HSLA.hue HSLA.saturation HSLA.lightness].
  split; [|split].
  - apply whole_round0.
    match goal with
    | |- whole (if ?c then _ else _) => destruct c
    end; [apply whole_plus|]; apply Math_round_whole.
  - match goal with
    | |- context [if ?c then _ else _] => destruct c
    end; [reflexivity | apply round_round].
  - apply round_round.
Qed.

Lemma validated_rgb_settled (r g b : number) (a : option number)
    (x : RGBA.t) (c : ColorAttributes) :
  validateRgb r g b a = Ok x -> Color.getAttributesFromRgb x = Ok c -> settled c.
Proof.
  intros Hv Hc. apply validateRgb_inv in Hv as (_ & _ & _ & _ & ->).
  apply getAttributesFromRgb_inv in Hc as (h & w & Hh & _ & ->).
  destruct (rgbToHsl_settled _ _ _ _ _ Hh) as (S1 & S2 & S3).
  unfold settled.
  cbn [red green blue hue saturation lightness alpha
       RGBA.red RGBA.green RGBA.blue RGBA.alpha].
  repeat split; try apply Math_round_whole; try assumption.
  apply defaultAlpha_settled.
Qed.

Lemma validated_hsl_settled (h s l : number) (a : option number)
    (x : HSLA.t) (c : ColorAttributes) :
  validateHsl h s l a = Ok x -> Color.getAttributesFromHsl x = Ok c -> settled c.
Proof.
  intros Hv Hc. apply validateHsl_inv in Hv as ->.
  apply getAttributesFromHsl_inv in Hc as (y & w & Hy & _ & ->).
  apply hslToRgb_inv in Hy as (e1 & e2 & e3 & E1 & E2 & E3).
  unfold settled.
  cbn [red green blue hue saturation lightness alpha
       HSLA.hue HSLA.saturation HSLA.lightness HSLA.alpha].
  rewrite E1, E2, E3.
  repeat split; try (rewrite round_0_Math_round; apply Math_round_whole);
    try apply round_round.
  apply defaultAlpha_settled.
Qed.

Lemma hex_settled (color : string) (c : ColorAttributes) :
  Color.getAttributesFromHex color = Ok c -> settled c.
Proof.
  intros H. apply getAttributesFromHex_inv in H as (x & h & _ & Hx & Hh & ->).
  destruct (rgbToHsl_settled _ _ _ _ _ Hh) as (S1 & S2 & S3).
  unfold hexToRgb in Hx. destruct (parseHex _) as [N|]; [|discriminate].
  cbn [bind] in Hx.
  apply (f_equal (fun res => match res with Ok w => w | Throw _ => x end)) in Hx.
  cbv beta iota in Hx. subst x.
  unfold settled.
  cbn [red green blue hue saturation lightness alpha
       RGBA.red RGBA.green RGBA.blue RGBA.alpha].
  repeat split; try apply whole_parseInt16; try assumption.
  apply round_round.
Qed.

(** Every observable state is settled. *)
Lemma observable_settled (o : origin) (c : ColorAttributes) :
  observable o c -> settled c.
Proof.
  induction 1 as [s c Hh Hn | s c Hh Hr Hn | s c Hh Hr Hn | r g b a c Hc
                  | h s l a c Hc | o this this' f v _ _ Hs
                  | o this this' f v e _ IH Hs].
  - rewrite new_attributes, getAttributesFromString_route, Hh in Hn.
    exact (hex_settled _ _ Hn).
  - rewrite new_attributes, getAttributesFromString_route, Hh, Hr in Hn.
    destruct (parseRgb s) as [x|] eqn:Ep; [|discriminate].
    apply parseRgb_inv in Ep as (r & g & b & a & Hv).
    exact (validated_rgb_settled _ _ _ _ _ _ Hv Hn).
  - rewrite new_attributes, getAttributesFromString_route, Hh, Hr in Hn.
    destruct (Str.includes s "hsl"); [|discriminate].
    destruct (parseHsl s) as [x|] eqn:Ep; [|discriminate].
    apply parseHsl_inv in Ep as (h & sa & l & a & Hv).
    exact (validated_hsl_settled _ _ _ _ _ _ Hv Hn).
  - unfold Color.rgb in Hc.
    destruct (validateRgb r g b a) as [x|] eqn:Hv; [|discriminate]. cbn [bind] in Hc.
    destruct (Color.getAttributesFromRgb x) as [attributes|] eqn:E; [|discriminate].
    cbn [bind] in Hc. rewrite white_attrs in Hc. cbn [bind] in Hc.
    rewrite updated_setAttributes in Hc. injection Hc as <-.
    exact (validated_rgb_settled _ _ _ _ _ _ Hv E).
  - unfold Color.hsl in Hc.
    destruct (validateHsl h s l a) as [x|] eqn:Hv; [|discriminate]. cbn [bind] in Hc.
    destruct (Color.getAttributesFromHsl x) as [attributes|] eqn:E; [|discriminate].
    cbn [bind] in Hc. rewrite white_attrs in Hc. cbn [bind] in Hc.
    rewrite updated_setAttributes in Hc. injection Hc as <-.
    exact (validated_hsl_settled _ _ _ _ _ _ Hv E).
  - revert Hs. rewrite set_field_unfold.
    destruct f; rewrite ?rgb_update_run, ?hsl_update_run;
      match goal with
      | |- context [validateRgb ?r ?g ?b ?a] =>
          destruct (validateRgb r g b a) as [x|] eqn:Hv; [|discriminate];
          destruct (Color.getAttributesFromRgb x) as [c|] eqn:E; [|discriminate];
          intros [= <-]; exact (validated_rgb_settled _ _ _ _ _ _ Hv E)
      | |- context [validateHsl ?h ?s ?l ?a] =>
          destruct (validateHsl h s l a) as [x|] eqn:Hv; [|discriminate];
          destruct (Color.getAttributesFromHsl x) as [c|] eqn:E; [|discriminate];
          intros [= <-]; exact (validated_hsl_settled _ _ _ _ _ _ Hv E)
      end.
  - apply set_field_throw_unchanged in Hs. now subst.
Qed.

Lemma rgb_update_fields (r g b a : number) (this this' : ColorAttributes) :
  rgb_update r g b (Some a) this = (Ok tt, this') ->
  red this' = Math.round r /\ green this' = Math.round g
  /\ blue this' = Math.round b /\ alpha this' = round a 2.
Proof.
  rewrite rgb_update_run.
  destruct (validateRgb r g b (Some a)) as [x|] eqn:Hv; [|discriminate].
  destruct (Color.getAttributesFromRgb x) as [c|] eqn:E; [|discriminate].
  intros [= <-]. apply validateRgb_inv in Hv as (_ & _ & _ & _ & ->).
  apply getAttributesFromRgb_inv in E as (h & w & _ & _ & ->).
  repeat split.
Qed.

Lemma hsl_update_fields (h s l a : number) (this this' : ColorAttributes) :
  hsl_update h s l (Some a) this = (Ok tt, this') ->
  hue this' = round h 0 /\ saturation this' = round s 2
  /\ lightness this' = round l 2 /\ alpha this' = round a 2.
Proof.
  rewrite hsl_update_run.
  destruct (validateHsl h s l (Some a)) as [x|] eqn:Hv; [|discriminate].
  destruct (Color.getAttributesFromHsl x) as [c|] eqn:E; [|discriminate].
  intros [= <-]. apply validateHsl_inv in Hv as ->.
  apply getAttributesFromHsl_inv in E as (y & w & _ & _ & ->).
  repeat split.
Qed.

(** X9.  A successful assignment to one field of an observable colour
    stores the rounded new value ([Math.round] for red, green and blue,
    [round(v)] for hue, [round(v, 2)] for saturation, lightness and alpha)
    and leaves the other fields of the same triple, and alpha, exactly as
    they were. *)
Theorem assignment_keeps_other_fields (o : origin) (f : field) (v : number)
    (this this' : ColorAttributes) :
  observable o this ->
  set_field f v this = (Ok tt, this') ->
  assigned f v this this'.
Proof.
  intros Hobs. apply observable_settled in Hobs as (Wr & Wg & Wb & Sh & Ss & Sl & Sa).
  unfold whole in Wr, Wg, Wb.
  rewrite set_field_unfold.
  destruct f; intros Hs;
    first [apply rgb_update_fields in Hs | apply hsl_update_fields in Hs];
    destruct Hs as (F1 & F2 & F3 & F4); cbn [assigned];
    rewrite F1, F2, F3, F4; repeat split; assumption.
Qed.

Lemma assignment_keeps_other_fields_witness :
  assigned Red (Fin (1 # 3))
    (mkColor "#FFFFFFFF" (ofZ 255) (ofZ 255) (ofZ 255) (ofZ 0) (ofZ 0) (ofZ 1) (ofZ 1))
    (mkColor "#00FFFFFF" (ofZ 0) (ofZ 255) (ofZ 255) (ofZ 180) (ofZ 1) (Fin (1 # 2)) (ofZ 1)).
Proof.
  apply (assignment_keeps_other_fields FromHex).
  - apply (obs_new_hex "#FFF"); reflexivity.
  - vm_compute. reflexivity.
Defined.

(** ** Arithmetic on finite values *)

Section ValueFacts.

Local Open Scope Q_scope.

Lemma is_value_Fin (q : Q) : is_value (Fin q) q.
Proof. exists q. split; reflexivity. Qed.

Lemma is_value_fin (q : Q) : is_value (fin q) q.
Proof. exists (Qred q). split; [reflexivity | apply Qred_correct]. Qed.

Lemma is_value_ofZ (z : Z) : is_value (ofZ z) (inject_Z z).
Proof. apply is_value_Fin. Qed.

Lemma is_value_ext (a : number) (p q : Q) : is_value a p -> p == q -> is_value a q.
Proof. intros (p' & -> & E) H. exists p'. split; [reflexivity | now rewrite E]. Qed.

Lemma is_value_add (a b : number) (x y : Q) :
  is_value a x -> is_value b y -> is_value (a + b)%js (x + y).
Proof.
  intros (x' & -> & Ex) (y' & -> & Ey). cbn [JS.add].
  apply (is_value_ext _ (x' + y')); [apply is_value_fin | now rewrite Ex, Ey].
Qed.

Lemma is_value_sub (a b : number) (x y : Q) :
  is_value a x -> is_value b y -> is_value (a - b)%js (x - y).
Proof.
  intros (x' & -> & Ex) (y' & -> & Ey). unfold JS.sub. cbn [JS.neg JS.add fin].
  apply (is_value_ext _ (x' + Qred (- y'))); [apply is_value_fin|].
  rewrite Qred_correct, Ex, Ey. ring.
Qed.

Lemma is_value_mul (a b : number) (x y : Q) :
  is_value a x -> is_value b y -> is_value (a * b)%js (x * y).
Proof.
  intros (x' & -> & Ex) (y' & -> & Ey). cbn [JS.mul].
  apply (is_value_ext _ (x' * y')); [apply is_value_fin | now rewrite Ex, Ey].
Qed.

Lemma Qzero_false (q : Q) : ~ q == 0 -> Qzero q = false.
Proof.
  intros H. unfold Qzero. apply Z.eqb_neq. intros E. apply H.
  unfold Qeq; simpl. lia.
Qed.

Lemma is_value_div (a b : number) (x y : Q) :
  is_value a x -> is_value b y -> ~ y == 0 -> is_value (a / b)%js (x / y).
Proof.
  intros (x' & -> & Ex) (y' & -> & Ey) Hy. cbn [JS.div].
  rewrite Qzero_false by now rewrite Ey.
  apply (is_value_ext _ (x' / y')); [apply is_value_fin | now rewrite Ex, Ey].
Qed.

Lemma is_value_abs (a : number) (x : Q) :
  is_value a x -> is_value (Math.abs a) (Qabs x).
Proof.
  intros (x' & -> & Ex). cbn [Math.abs].
  apply (is_value_ext _ (Qabs x')); [apply is_value_fin | now rewrite Ex].
Qed.

Lemma is_value_ltb (a b : number) (x y : Q) :
  is_value a x -> is_value b y -> (a < b)%js = negb (Qle_bool y x).
Proof.
  intros (x' & -> & Ex) (y' & -> & Ey). cbn [JS.ltb]. now rewrite Ex, Ey.
Qed.

Lemma is_value_eqb (a b : number) (x y : Q) :
  is_value a x -> is_value b y -> (a === b)%js = Qeq_bool x y.
Proof.
  intros (x' & -> & Ex) (y' & -> & Ey). cbn [JS.eqb]. now rewrite Ex, Ey.
Qed.

Lemma is_value_Math_round (a : number) (x : Q) :
  is_value a x -> Math.round a = ofZ (Qfloor (x + (1 # 2))).
Proof.
  intros (x' & -> & Ex). rewrite Math_round_fin. f_equal.
  apply Qfloor_comp. now rewrite Ex.
Qed.

Lemma is_value_round2 (a : number) (x : Q) :
  is_value a x ->
  round a 2 = fin (inject_Z (Qfloor (x * 100 + (1 # 2))) / 100).
Proof.
  intros (x' & -> & Ex). rewrite round_fin.
  change (inject_Z (10 ^ Z.of_nat 2)) with 100.
  apply fin_ext. rewrite (Qfloor_comp _ (x * 100 + (1 # 2))); [reflexivity|].
  now rewrite Ex.
Qed.

Lemma Qtrunc_nonneg (q : Q) : 0 <= q -> Qtrunc q = Qfloor q.
Proof.
  destruct q as [n d]. unfold Qle, Qtrunc; simpl. intros H.
  apply Z.quot_div_nonneg; lia.
Qed.

Lemma Qtrunc_nonpos (q : Q) : q <= 0 -> Qtrunc q = (- Qfloor (- q))%Z.
Proof.
  destruct q as [n d]. unfold Qle, Qtrunc; simpl. intros H.
  rewrite <- (Z.opp_involutive n) at 1.
  rewrite Z.quot_opp_l by lia. f_equal.
  apply Z.quot_div_nonneg; lia.
Qed.

Lemma Qtrunc_comp (p q : Q) : p == q -> Qtrunc p = Qtrunc q.
Proof.
  intros E. destruct (Qlt_le_dec p 0) as [Hneg | Hpos].
  - rewrite !Qtrunc_nonpos by (rewrite <- ?E; lra).
    f_equal. apply Qfloor_comp. now rewrite E.
  - rewrite !Qtrunc_nonneg by (rewrite <- ?E; lra).
    now apply Qfloor_comp.
Qed.

Lemma is_value_rem (a b : number) (x y : Q) :
  is_value a x -> is_value b y -> ~ y == 0 ->
  is_value (a %% b)%js (x - y * inject_Z (Qtrunc (x / y))).
Proof.
  intros (x' & -> & Ex) (y' & -> & Ey) Hy. cbn [JS.rem].
  rewrite Qzero_false by now rewrite Ey.
  change (Qnum (x' / y') ÷ Z.pos (Qden (x' / y')))%Z with (Qtrunc (x' / y')).
  apply (is_value_ext _ (x' - y' * inject_Z (Qtrunc (x' / y'))));
    [apply is_value_fin|].
  rewrite (Qtrunc_comp (x' / y') (x / y)) by now rewrite Ex, Ey.
  now rewrite Ex, Ey.
Qed.

(** A value between 0 and 255 rounds to an integer channel. *)
Lemma is_value_channel (a : number) (x : Q) :
  is_value a x -> 0 <= x <= 255 ->
  exists n, (0 <= n <= 255)%Z /\ Math.round a = ofZ n /\ n = Qfloor (x + (1 # 2)).
Proof.
  intros Ha [H0 H1]. rewrite (is_value_Math_round a x Ha).
  exists (Qfloor (x + (1 # 2))). split; [|split; reflexivity].
  destruct (floor_half_bounds x) as [Hlo Hhi]. split.
  - change 0%Z with (Qfloor 0). apply Qfloor_resp_le. lra.
  - assert (Hlt : inject_Z (Qfloor (x + (1 # 2))) < inject_Z 256).
    { change (inject_Z 256) with 256. lra. }
    rewrite <- Zlt_Qlt in Hlt. lia.
Qed.

End ValueFacts.

(** ** hslToRgb stays within the channel range *)

Section HslToRgbRange.

Local Open Scope Q_scope.

Lemma huePrimeToRGB_components (hp c p a1 a2 a3 : number) :
  huePrimeToRGB hp c p = (a1, a2, a3) ->
  In a1 [c; p; ofZ 0] /\ In a2 [c; p; ofZ 0] /\ In a3 [c; p; ofZ 0].
Proof.
  unfold huePrimeToRGB.
  repeat match goal with
         | |- context [if ?b then _ else _] => destruct b
         end; intros [= <- <- <-]; simpl; auto 6.
Qed.

Lemma abs_unit_bounds (L : Q) :
  0 <= L <= 1 ->
  0 <= Qabs (2 * L - 1) <= 1
  /\ 2 * L - 1 <= Qabs (2 * L - 1) /\ 1 - 2 * L <= Qabs (2 * L - 1).
Proof.
  intros HL. split; [split|split].
  - apply Qabs_nonneg.
  - apply Qabs_Qle_condition. lra.
  - apply Qle_Qabs.
  - rewrite <- Qabs_opp. eapply Qle_trans; [|apply Qle_Qabs]. lra.
Qed.

Lemma rem2_bounds (x : Q) :
  0 <= x -> 0 <= x - 2 * inject_Z (Qtrunc (x / 2)) < 2.
Proof.
  intros Hx. rewrite Qtrunc_nonneg.
  2:{ apply Qle_shift_div_l; lra. }
  pose proof (Qfloor_le (x / 2)) as Hlo.
  pose proof (Qlt_floor (x / 2)) as Hhi.
  rewrite inject_Z_plus in Hhi. change (inject_Z 1) with 1 in Hhi.
  assert (E : x == 2 * (x / 2)) by field.
  split; lra.
Qed.

(** The channel computed from one component of the sector table. *)
Lemma hsl_channel (hue saturation lightness comp : number) (n : Z) (S L : Q) :
  (0 <= n <= 360)%Z -> hue = ofZ n ->
  is_value saturation S -> 0 <= S <= 1 ->
  is_value lightness L -> 0 <= L <= 1 ->
  let chroma := ((ofZ 1 - Math.abs (ofZ 2 * lightness - ofZ 1)) * saturation)%js in
  let huePrime := (hue / ofZ 60)%js in
  let position := (chroma * (ofZ 1 - Math.abs (huePrime %% ofZ 2 - ofZ 1)))%js in
  let lightnessPrime := (lightness - chroma / ofZ 2)%js in
  In comp [chroma; position; ofZ 0] ->
  exists k V, (0 <= k <= 255)%Z
    /\ round ((comp + lightnessPrime) * ofZ 255)%js 0 = ofZ k
    /\ 0 <= V <= (1 - Qabs (2 * L - 1)) * S
    /\ k = Qfloor ((V + (L - (1 - Qabs (2 * L - 1)) * S / 2)) * 255 + (1 # 2)).
Proof.
  intros Hn -> HS HSb HL HLb chroma huePrime position lightnessPrime Hin.
  set (A := Qabs (2 * L - 1)).
  set (C := (1 - A) * S).
  set (HP := inject_Z n / 60).
  set (R := HP - 2 * inject_Z (Qtrunc (HP / 2))).
  set (B := Qabs (R - 1)).
  set (X := C * (1 - B)).
  set (M := L - C / 2).
  assert (VC : is_value chroma C).
  { unfold chroma, C, A.
    apply is_value_mul; [|exact HS].
    apply (is_value_sub _ _ 1); [apply (is_value_ofZ 1)|].
    apply is_value_abs.
    apply (is_value_sub _ _ _ 1); [|apply (is_value_ofZ 1)].
    apply (is_value_mul _ _ 2); [apply (is_value_ofZ 2) | exact HL]. }
  assert (VP : is_value huePrime HP).
  { unfold huePrime, HP.
    apply (is_value_div _ _ _ 60); [apply is_value_ofZ | apply (is_value_ofZ 60) | lra]. }
  assert (VX : is_value position X).
  { unfold position, X, B, R.
    apply is_value_mul; [exact VC|].
    apply (is_value_sub _ _ 1); [apply (is_value_ofZ 1)|].
    apply is_value_abs.
    apply (is_value_sub _ _ _ 1); [|apply (is_value_ofZ 1)].
    apply (is_value_rem _ _ HP 2); [exact VP | apply (is_value_ofZ 2) | lra]. }
  assert (VM : is_value lightnessPrime M).
  { unfold lightnessPrime, M.
    apply is_value_sub; [exact HL|].
    apply (is_value_div _ _ _ 2); [exact VC | apply (is_value_ofZ 2) | lra]. }
  destruct (abs_unit_bounds L HLb) as ([HA0 HA1] & HA2 & HA3). fold A in HA0, HA1, HA2, HA3.
  assert (HC : 0 <= C <= 1 - A) by (unfold C; split; nra).
  assert (HHP : 0 <= HP).
  { unfold HP. apply Qle_shift_div_l; [lra|].
    assert (H0 : inject_Z 0 <= inject_Z n) by (rewrite <- Zle_Qle; lia).
    change (inject_Z 0) with 0 in H0. lra. }
  pose proof (rem2_bounds HP HHP) as HR. fold R in HR.
  assert (HB : 0 <= B <= 1).
  { unfold B. split; [apply Qabs_nonneg | apply Qabs_Qle_condition; lra]. }
  assert (HX : 0 <= X <= C) by (unfold X; split; nra).
  assert (Hcomp : exists V, is_value comp V /\ 0 <= V <= C).
  { destruct Hin as [<- | [<- | [<- | []]]].
    - exists C. split; [exact VC | lra].
    - exists X. split; [exact VX | lra].
    - exists 0. split; [apply (is_value_ofZ 0) | lra]. }
  destruct Hcomp as (V & VV & HV).
  rewrite round_0_Math_round.
  destruct (is_value_channel ((comp + lightnessPrime) * ofZ 255)%js ((V + M) * 255))
    as (k & Hk & Ek & Ekv).
  - apply is_value_mul; [|apply (is_value_ofZ 255)].
    now apply is_value_add.
  - unfold M. clear VC VP VX VM VV. clearbody X B R HP C A.
    setoid_replace (C / 2) with (C * (1 # 2)) by field. split; lra.
  - exists k, V. repeat split; try assumption; try lia; apply HV.
Qed.

End HslToRgbRange.

Section HslToRgbChannels.

Local Open Scope Q_scope.

Lemma unit_fraction_bounds (i : Z) :
  (0 <= i <= 100)%Z -> 0 <= inject_Z i / inject_Z 100 <= 1.
Proof.
  intros Hi.
  assert (H0 : inject_Z 0 <= inject_Z i) by (rewrite <- Zle_Qle; lia).
  assert (H1 : inject_Z i <= inject_Z 100) by (rewrite <- Zle_Qle; lia).
  change (inject_Z 0) with 0 in H0. change (inject_Z 100) with 100 in *.
  split; [apply Qle_shift_div_l | apply Qle_shift_div_r]; lra.
Qed.

Lemma hslToRgb_validated (n : Z) (sat light alpha : number) (S L : Q) :
  (0 <= n <= 360)%Z ->
  is_value sat S -> 0 <= S <= 1 -> is_value light L -> 0 <= L <= 1 ->
  forall h s l a,
    validateHsl h s l a = Ok (HSLA.mk (ofZ n) sat light alpha) ->
    exists nr ng nb,
      ((0 <= nr <= 255)%Z /\ (0 <= ng <= 255)%Z /\ (0 <= nb <= 255)%Z)
      /\ hslToRgb h s l a = Ok (RGBA.mk (ofZ nr) (ofZ ng) (ofZ nb) alpha).
Proof.
  intros Hn HS HSb HL HLb h s l a Hv.
  unfold hslToRgb. rewrite Hv.
  cbn [bind HSLA.hue HSLA.saturation HSLA.lightness HSLA.alpha]. cbv zeta.
  destruct (huePrimeToRGB _ _ _) as [[a1 a2] a3] eqn:Et.
  apply huePrimeToRGB_components in Et as (I1 & I2 & I3).
  destruct (hsl_channel (ofZ n) sat light a1 n S L Hn eq_refl HS HSb HL HLb I1)
    as (nr & V1 & Hnr & -> & _).
  destruct (hsl_channel (ofZ n) sat light a2 n S L Hn eq_refl HS HSb HL HLb I2)
    as (ng & V2 & Hng & -> & _).
  destruct (hsl_channel (ofZ n) sat light a3 n S L Hn eq_refl HS HSb HL HLb I3)
    as (nb & V3 & Hnb & -> & _).
  exists nr, ng, nb. auto.
Qed.

End HslToRgbChannels.

(** X10.  Whenever [hslToRgb] returns, its red, green and blue are integers
    between 0 and 255 (the sector arithmetic never leaves the channel
    range, hue 360 included) and its alpha is the defaulted alpha. *)
Theorem hslToRgb_channels (h s l : number) (a : option number) (y : RGBA.t) :
  hslToRgb h s l a = Ok y ->
  exists nr ng nb,
    (0 <= nr <= 255 /\ 0 <= ng <= 255 /\ 0 <= nb <= 255)
    /\ y = RGBA.mk (ofZ nr) (ofZ ng) (ofZ nb) (defaultAlpha a).
Proof.
  intros Hy. destruct (validateHsl h s l a) as [x|e] eqn:Hv.
  2:{ unfold hslToRgb in Hy. rewrite Hv in Hy. discriminate. }
  pose proof (validateHsl_checks _ _ _ _ _ Hv) as (Hh & Hs & Hl & _).
  pose proof (validateHsl_inv _ _ _ _ _ Hv) as Ex.
  apply hue_accepted_inv in Hh as (qh & Eh & Hqh).
  apply in_range_inv in Hs as (qs & Es & Hqs).
  apply in_range_inv in Hl as (ql & El & Hql).
  destruct (round_hue qh Hqh) as (n & Hn & En & _ & _).
  destruct (round2_unit qs Hqs) as (i & Hi & Ei).
  destruct (round2_unit ql Hql) as (j & Hj & Ej).
  rewrite Eh, Es, El, En, Ei, Ej in Ex. rewrite Ex in Hv.
  destruct (hslToRgb_validated n _ _ (defaultAlpha a) _ _ Hn
              (is_value_fin _) (unit_fraction_bounds i Hi)
              (is_value_fin _) (unit_fraction_bounds j Hj) h s l a Hv)
    as (nr & ng & nb & Hr & E).
  rewrite E in Hy. injection Hy as <-.
  exists nr, ng, nb. auto.
Qed.

Lemma hslToRgb_channels_witness :
  exists nr ng nb,
    (0 <= nr <= 255 /\ 0 <= ng <= 255 /\ 0 <= nb <= 255)
    /\ RGBA.mk (ofZ 255) (ofZ 0) (ofZ 0) (ofZ 1)
       = RGBA.mk (ofZ nr) (ofZ ng) (ofZ nb) (defaultAlpha None).
Proof.
  apply (hslToRgb_channels (Fin (719 # 2)) (ofZ 1) (Fin (1 # 2)) None).
  vm_compute. reflexivity.
Defined.

(** ** Color.hsl *)

Lemma validateHsl_again_with (h s l : number) (a a' : option number) (x : HSLA.t) :
  validateHsl h s l a = Ok x ->
  hue_accepted (HSLA.hue x) -> alpha_accepted a' ->
  validateHsl (HSLA.hue x) (HSLA.saturation x) (HSLA.lightness x) a'
  = Ok (HSLA.mk (HSLA.hue x) (HSLA.saturation x) (HSLA.lightness x) (defaultAlpha a')).
Proof.
  intros H Hh Ha'. pose proof (validateHsl_checks _ _ _ _ _ H) as (_ & Hs & Hl & _).
  apply validateHsl_inv in H as ->.
  cbn [HSLA.hue HSLA.saturation HSLA.lightness HSLA.alpha] in *.
  apply in_range_inv in Hs as (qs & -> & Hqs).
  apply in_range_inv in Hl as (ql & -> & Hql).
  destruct (round2_unit qs Hqs) as (i & Hi & Ei).
  destruct (round2_unit ql Hql) as (j & Hj & Ej).
  rewrite validateHsl_ok.
  - now rewrite !round_round.
  - exact Hh.
  - rewrite Ei. now apply unit_fraction_in_range.
  - rewrite Ej. now apply unit_fraction_in_range.
  - exact Ha'.
Qed.

Lemma validated_hsl_values (h s l : number) (a : option number) (x : HSLA.t) :
  validateHsl h s l a = Ok x ->
  exists n S L,
    (0 <= n <= 360 /\ HSLA.hue x = ofZ n)
    /\ (is_value (HSLA.saturation x) S /\ (0 <= S <= 1)%Q)
    /\ (is_value (HSLA.lightness x) L /\ (0 <= L <= 1)%Q).
Proof.
  intros Hv.
  pose proof (validateHsl_checks _ _ _ _ _ Hv) as (Hh & Hs & Hl & _).
  apply validateHsl_inv in Hv as ->.
  cbn [HSLA.hue HSLA.saturation HSLA.lightness].
  apply hue_accepted_inv in Hh as (qh & -> & Hqh).
  apply in_range_inv in Hs as (qs & -> & Hqs).
  apply in_range_inv in Hl as (ql & -> & Hql).
  destruct (round_hue qh Hqh) as (n & Hn & En & _ & _).
  destruct (round2_unit qs Hqs) as (i & Hi & ->).
  destruct (round2_unit ql Hql) as (j & Hj & ->).
  exists n, (inject_Z i / inject_Z 100)%Q, (inject_Z j / inject_Z 100)%Q.
  repeat split; try assumption; try apply is_value_fin;
    try (apply unit_fraction_bounds; assumption); lia.
Qed.

Lemma getAttributesFromHsl_returns (h s l : number) (a : option number) (x : HSLA.t) :
  validateHsl h s l a = Ok x ->
  hue_accepted (HSLA.hue x) ->
  exists w nr ng nb,
    (0 <= nr <= 255 /\ 0 <= ng <= 255 /\ 0 <= nb <= 255)
    /\ Color.getAttributesFromHsl x
       = Ok (mkColor w (ofZ nr) (ofZ ng) (ofZ nb)
               (HSLA.hue x) (HSLA.saturation x) (HSLA.lightness x) (HSLA.alpha x)).
Proof.
  intros Hv Hh.
  pose proof (validateHsl_again_with _ _ _ _ None _ Hv Hh eq_refl) as Hv2.
  pose proof (validateHsl_checks _ _ _ _ _ Hv) as (_ & _ & _ & Ha).
  destruct (validated_hsl_values _ _ _ _ _ Hv)
    as (n & S & L & (Hn & En) & (VS & HS) & (VL & HL)).
  rewrite En in Hv2.
  destruct (hslToRgb_validated n _ _ _ S L Hn VS HS VL HL _ _ _ _ Hv2)
    as (nr & ng & nb & (Hnr & Hng & Hnb) & Hy).
  rewrite <- En in Hy.
  destruct (channel_ofZ nr Hnr) as [Rr Mr], (channel_ofZ ng Hng) as [Rg Mg],
    (channel_ofZ nb Hnb) as [Rb Mb].
  assert (Hax : alpha_accepted (Some (HSLA.alpha x))).
  { rewrite (validateHsl_inv _ _ _ _ _ Hv). cbn [HSLA.alpha].
    now apply defaultAlpha_accepted. }
  pose proof (validateRgb_ok _ _ _ _ Rr Rg Rb Hax) as Hrgb.
  pose proof (rgbToHex_ok _ _ _ _ _ Hrgb) as Hhex.
  destruct x as [xh xs xl xa].
  cbn [HSLA.hue HSLA.saturation HSLA.lightness HSLA.alpha] in *.
  eexists. exists nr, ng, nb. split; [auto|].
  unfold Color.getAttributesFromHsl. rewrite Hy.
  cbn [bind RGBA.red RGBA.green RGBA.blue]. rewrite Hhex. reflexivity.
Qed.

Lemma getAttributesFromHsl_hue_360 (x : HSLA.t) :
  HSLA.hue x = ofZ 360 ->
  exists w, Color.getAttributesFromHsl x = Throw (InvalidHSLCode w).
Proof.
  destruct x as [xh xs xl xa]. cbn [HSLA.hue]. intros ->.
  unfold Color.getAttributesFromHsl.
  destruct (hslToRgb (ofZ 360) xs xl None) as [y|e] eqn:E.
  - exfalso. unfold hslToRgb in E.
    destruct (validateHsl (ofZ 360) xs xl None) as [z|] eqn:Ez; [|discriminate].
    apply validateHsl_checks in Ez as (Hbad & _).
    apply hue_accepted_ofZ in Hbad. lia.
  - destruct (hslToRgb_throws _ _ _ _ _ E) as [w ->]. cbn [bind]. eauto.
Qed.

(** X11.  [Color.hsl] returns a colour holding the validated hue,
    saturation, lightness and alpha, with integer channels between 0 and
    255, whenever [validateHsl] accepts the arguments and the rounded hue is
    below 360.  When the hue rounds to 360 (a hue of 359.5 or more, which
    [validateHsl] accepts) the second validation inside [hslToRgb] rejects
    it and [Color.hsl] throws [InvalidHSLCode].  When [validateHsl] throws,
    [Color.hsl] throws the same error. *)
Theorem Color_hsl_returns (h s l : number) (a : option number) :
  (forall x, validateHsl h s l a = Ok x -> HSLA.hue x <> ofZ 360 ->
     exists c nr ng nb,
       Color.hsl h s l a = Ok c
       /\ (0 <= nr <= 255 /\ 0 <= ng <= 255 /\ 0 <= nb <= 255)
       /\ (red c = ofZ nr /\ green c = ofZ ng /\ blue c = ofZ nb)
       /\ (hue c = HSLA.hue x /\ saturation c = HSLA.saturation x
           /\ lightness c = HSLA.lightness x /\ alpha c = HSLA.alpha x))
  /\ (forall x, validateHsl h s l a = Ok x -> HSLA.hue x = ofZ 360 ->
        exists w, Color.hsl h s l a = Throw (InvalidHSLCode w))
  /\ (forall e, validateHsl h s l a = Throw e -> Color.hsl h s l a = Throw e).
Proof.
  split; [|split].
  - intros x Hx Hne.
    assert (Hh : hue_accepted (HSLA.hue x)).
    { destruct (validated_hsl_values _ _ _ _ _ Hx) as (n & _ & _ & (Hn & En) & _).
      rewrite En. apply hue_accepted_ofZ.
      assert (n <> 360) by (intros ->; now apply Hne). lia. }
    destruct (getAttributesFromHsl_returns _ _ _ _ _ Hx Hh)
      as (w & nr & ng & nb & Hr & Hc).
    eexists. exists nr, ng, nb. split; [|split; [exact Hr|]].
    + unfold Color.hsl. rewrite Hx. cbn [bind]. rewrite Hc. cbn [bind].
      rewrite white_attrs. cbn [bind]. apply updated_setAttributes.
    + repeat split.
  - intros x Hx H360. destruct (getAttributesFromHsl_hue_360 x H360) as [w Hw].
    exists w. unfold Color.hsl. rewrite Hx. cbn [bind]. now rewrite Hw.
  - intros e He. unfold Color.hsl. now rewrite He.
Qed.

Lemma Color_hsl_returns_witness :
  (exists c nr ng nb,
     Color.hsl (ofZ 30) (ofZ 1) (Fin (1 # 2)) None = Ok c
     /\ (0 <= nr <= 255 /\ 0 <= ng <= 255 /\ 0 <= nb <= 255)
     /\ (red c = ofZ nr /\ green c = ofZ ng /\ blue c = ofZ nb)
     /\ (hue c = ofZ 30 /\ saturation c = ofZ 1
         /\ lightness c = Fin (1 # 2) /\ alpha c = ofZ 1))
  /\ (exists w,
        Color.hsl (Fin (719 # 2)) (ofZ 1) (Fin (1 # 2)) None
        = Throw (InvalidHSLCode w))
  /\ Color.hsl (ofZ 360) (ofZ 0) (ofZ 0) None
     = Throw (InvalidHSLCode "hsl(360, 0%, 0%)").
Proof.
  split; [|split].
  - apply (proj1 (Color_hsl_returns (ofZ 30) (ofZ 1) (Fin (1 # 2)) None)
             (HSLA.mk (ofZ 30) (ofZ 1) (Fin (1 # 2)) (ofZ 1)) eq_refl).
    discriminate.
  - apply (proj1 (proj2 (Color_hsl_returns (Fin (719 # 2)) (ofZ 1) (Fin (1 # 2)) None))
             (HSLA.mk (ofZ 360) (ofZ 1) (Fin (1 # 2)) (ofZ 1)) eq_refl).
    reflexivity.
  - apply (proj2 (proj2 (Color_hsl_returns (ofZ 360) (ofZ 0) (ofZ 0) None))).
    reflexivity.
Defined.

(** ** rgbToHsl: hue and lightness stay in range *)

Section RgbToHslRange.

Local Open Scope Q_scope.

Lemma ltb_ofZ (a b : Z) : (ofZ a < ofZ b)%js = (a <? b)%Z.
Proof.
  unfold ofZ. cbn [JS.ltb]. destruct (Z.ltb_spec a b) as [H | H].
  - apply negb_true_iff, not_true_iff_false. rewrite Qle_bool_iff, <- Zle_Qle. lia.
  - apply negb_false_iff. rewrite Qle_bool_iff, <- Zle_Qle. lia.
Qed.

Lemma eqb_ofZ (a b : Z) : (ofZ a === ofZ b)%js = (a =? b)%Z.
Proof.
  unfold ofZ. cbn [JS.eqb]. destruct (Z.eqb_spec a b) as [-> | H].
  - apply Qeq_bool_refl.
  - apply not_true_iff_false. rewrite Qeq_bool_iff, inject_Z_injective. exact H.
Qed.

Lemma max2_ofZ (a b : Z) : Math.max2 (ofZ a) (ofZ b) = ofZ (Z.max a b).
Proof.
  unfold Math.max2. change (ofZ a) with (Fin (inject_Z a)) at 1.
  change (ofZ b) with (Fin (inject_Z b)) at 1. cbv iota.
  fold (ofZ a) (ofZ b). rewrite ltb_ofZ.
  destruct (Z.ltb_spec a b); [rewrite Z.max_r | rewrite Z.max_l]; trivial; lia.
Qed.

Lemma min2_ofZ (a b : Z) : Math.min2 (ofZ a) (ofZ b) = ofZ (Z.min a b).
Proof.
  unfold Math.min2. change (ofZ a) with (Fin (inject_Z a)) at 1.
  change (ofZ b) with (Fin (inject_Z b)) at 1. cbv iota.
  fold (ofZ a) (ofZ b). rewrite ltb_ofZ.
  destruct (Z.ltb_spec b a); [rewrite Z.min_r | rewrite Z.min_l]; trivial; lia.
Qed.

Lemma sub_ofZ (a b : Z) : (ofZ a - ofZ b)%js = ofZ (a - b).
Proof.
  unfold JS.sub, JS.neg, JS.add, ofZ, fin.
  rewrite <- (Qred_inject_Z (a - b)). f_equal. apply Qred_complete.
  rewrite Qred_correct. unfold Z.sub. rewrite inject_Z_plus, inject_Z_opp.
  reflexivity.
Qed.

Lemma add_ofZ (a b : Z) : (ofZ a + ofZ b)%js = ofZ (a + b).
Proof.
  unfold JS.add, ofZ, fin.
  rewrite <- (Qred_inject_Z (a + b)). f_equal. apply Qred_complete.
  now rewrite inject_Z_plus.
Qed.

Lemma Qtrunc_small (q : Q) : -(1) < q < 1 -> Qtrunc q = 0%Z.
Proof.
  intros [Hlo Hhi]. destruct (Qlt_le_dec q 0) as [Hneg | Hpos].
  - rewrite Qtrunc_nonpos by lra.
    pose proof (Qfloor_le (- q)) as H1.
    assert (H2 : (Qfloor 0 <= Qfloor (- q))%Z) by (apply Qfloor_resp_le; lra).
    assert (H3 : inject_Z (Qfloor (- q)) < inject_Z 1).
    { change (inject_Z 1) with 1. lra. }
    rewrite <- Zlt_Qlt in H3. change (Qfloor 0) with 0%Z in H2. lia.
  - rewrite Qtrunc_nonneg by lra.
    pose proof (Qfloor_le q) as H1.
    assert (H2 : (Qfloor 0 <= Qfloor q)%Z) by (apply Qfloor_resp_le; lra).
    assert (H3 : inject_Z (Qfloor q) < inject_Z 1).
    { change (inject_Z 1) with 1. lra. }
    rewrite <- Zlt_Qlt in H3. change (Qfloor 0) with 0%Z in H2. lia.
Qed.

(** Rounding a sector value and wrapping a negative result by 360. *)
Lemma hue_wrap (y : number) (v : Q) :
  is_value y v -> -(60) <= v <= 300 ->
  exists n, (0 <= n <= 359)%Z
    /\ (if (Math.round y < ofZ 0)%js then (Math.round y + ofZ 360)%js
        else Math.round y) = ofZ n.
Proof.
  intros Hy [Hlo Hhi]. rewrite (is_value_Math_round y v Hy).
  set (k := Qfloor (v + (1 # 2))).
  destruct (floor_half_bounds v) as [Blo Bhi]. fold k in Blo, Bhi.
  assert (Hk : (-60 <= k <= 300)%Z).
  { split.
    - change (-60)%Z with (Qfloor (-(60))). apply Qfloor_resp_le. lra.
    - assert (Hlt : inject_Z k < inject_Z 301).
      { change (inject_Z 301) with 301. lra. }
      rewrite <- Zlt_Qlt in Hlt. lia. }
  rewrite ltb_ofZ. destruct (Z.ltb_spec k 0).
  - exists (k + 360)%Z. split; [lia | apply add_ofZ].
  - exists k. split; [lia | reflexivity].
Qed.

Lemma ratio_bounds (p d : Z) :
  (0 < d)%Z -> (- d <= p <= d)%Z ->
  -(1) <= inject_Z p / inject_Z d <= 1.
Proof.
  intros Hd Hp.
  assert (D : 0 < inject_Z d).
  { change 0 with (inject_Z 0). rewrite <- Zlt_Qlt. lia. }
  assert (H1 : inject_Z p <= inject_Z d) by (rewrite <- Zle_Qle; lia).
  assert (H2 : inject_Z (- d) <= inject_Z p) by (rewrite <- Zle_Qle; lia).
  rewrite inject_Z_opp in H2.
  split.
  - apply Qle_shift_div_l; [exact D | lra].
  - apply Qle_shift_div_r; [exact D | lra].
Qed.

End RgbToHslRange.

Section RgbToHslHue.

Local Open Scope Q_scope.

Lemma rgb_hue (nr ng nb : Z) :
  let red := ofZ nr in
  let green := ofZ ng in
  let blue := ofZ nb in
  let max := Math.max red green blue in
  let min := Math.min red green blue in
  let delta := (max - min)%js in
  let hue :=
    if (delta === ofZ 0)%js then ofZ 0
    else if (max === red)%js then (((green - blue) / delta) %% ofZ 6)%js
    else if (max === green)%js then ((blue - red) / (max - min) + ofZ 2)%js
    else ((red - green) / (max - min) + ofZ 4)%js in
  exists n, (0 <= n <= 359)%Z
    /\ (if (Math.round (hue * ofZ 60) < ofZ 0)%js
        then (Math.round (hue * ofZ 60) + ofZ 360)%js
        else Math.round (hue * ofZ 60)%js) = ofZ n.
Proof.
  cbv zeta. unfold Math.max, Math.min. rewrite !max2_ofZ, !min2_ofZ, !sub_ofZ.
  set (M := Z.max (Z.max nr ng) nb). set (m := Z.min (Z.min nr ng) nb).
  assert (HM : (m <= nr <= M /\ m <= ng <= M /\ m <= nb <= M)%Z) by (unfold M, m; lia).
  rewrite !eqb_ofZ.
  destruct (Z.eqb_spec (M - m) 0) as [E0 | Hd].
  { apply (hue_wrap _ (0 * 60)); [|lra].
    apply is_value_mul; [apply (is_value_ofZ 0) | apply (is_value_ofZ 60)]. }
  assert (Hdpos : (0 < M - m)%Z) by lia.
  assert (D : ~ inject_Z (M - m) == 0).
  { change 0 with (inject_Z 0). rewrite inject_Z_injective. lia. }
  destruct (Z.eqb_spec M nr) as [Er | Hr]; [|destruct (Z.eqb_spec M ng) as [Eg | Hg]].
  - pose proof (ratio_bounds (ng - nb) (M - m) Hdpos ltac:(lia)) as Ht.
    set (t := inject_Z (ng - nb) / inject_Z (M - m)) in *.
    apply (hue_wrap _ (t * 60)); [|lra].
    apply is_value_mul; [|apply (is_value_ofZ 60)].
    apply (is_value_ext _ (t - 6 * inject_Z (Qtrunc (t / 6)))).
    + apply (is_value_rem _ _ t 6); [|apply (is_value_ofZ 6) | lra].
      apply is_value_div; [apply is_value_ofZ | apply is_value_ofZ | exact D].
    + rewrite Qtrunc_small.
      * change (inject_Z 0) with 0. ring.
      * setoid_replace (t / 6) with (t * (1 # 6)) by field. split; lra.
  - pose proof (ratio_bounds (nb - nr) (M - m) Hdpos ltac:(lia)) as Ht.
    set (t := inject_Z (nb - nr) / inject_Z (M - m)) in *.
    apply (hue_wrap _ ((t + 2) * 60)); [|lra].
    apply is_value_mul; [|apply (is_value_ofZ 60)].
    apply is_value_add; [|apply (is_value_ofZ 2)].
    apply is_value_div; [apply is_value_ofZ | apply is_value_ofZ | exact D].
  - pose proof (ratio_bounds (nr - ng) (M - m) Hdpos ltac:(lia)) as Ht.
    set (t := inject_Z (nr - ng) / inject_Z (M - m)) in *.
    apply (hue_wrap _ ((t + 4) * 60)); [|lra].
    apply is_value_mul; [|apply (is_value_ofZ 60)].
    apply is_value_add; [|apply (is_value_ofZ 4)].
    apply is_value_div; [apply is_value_ofZ | apply is_value_ofZ | exact D].
Qed.

Lemma rgb_lightness (nr ng nb : Z) :
  (0 <= nr <= 255)%Z -> (0 <= ng <= 255)%Z -> (0 <= nb <= 255)%Z ->
  let max := Math.max (ofZ nr) (ofZ ng) (ofZ nb) in
  let min := Math.min (ofZ nr) (ofZ ng) (ofZ nb) in
  let average := ((max + min) / ofZ 2)%js in
  exists j, (0 <= j <= 100)%Z
    /\ round (average / ofZ 255)%js 2 = fin (inject_Z j / inject_Z 100).
Proof.
  intros Hr Hg Hb. cbv zeta. unfold Math.max, Math.min.
  rewrite !max2_ofZ, !min2_ofZ, add_ofZ.
  set (T := (Z.max (Z.max nr ng) nb + Z.min (Z.min nr ng) nb)%Z).
  assert (HT : (0 <= T <= 510)%Z) by (unfold T; lia).
  assert (V : is_value (ofZ T / ofZ 2 / ofZ 255)%js (inject_Z T / 2 / 255)).
  { apply (is_value_div _ _ _ 255); [|apply (is_value_ofZ 255) | lra].
    apply (is_value_div _ _ _ 2); [apply is_value_ofZ | apply (is_value_ofZ 2) | lra]. }
  destruct V as (q & -> & Eq).
  apply round2_unit. rewrite Eq.
  assert (H0 : inject_Z 0 <= inject_Z T) by (rewrite <- Zle_Qle; lia).
  assert (H1 : inject_Z T <= inject_Z 510) by (rewrite <- Zle_Qle; lia).
  change (inject_Z 0) with 0 in H0. change (inject_Z 510) with 510 in H1.
  setoid_replace (inject_Z T / 2 / 255) with (inject_Z T * (1 # 510)) by field.
  split; lra.
Qed.

End RgbToHslHue.

(** X12.  Whenever [rgbToHsl] returns, its hue is an integer between 0 and
    359 and its lightness is [j / 100] with [0 <= j <= 100]: of the three
    values it computes, only the saturation can leave its documented
    range. *)
Theorem rgbToHsl_hue_lightness (r g b : number) (a : option number) (x : HSLA.t) :
  rgbToHsl r g b a = Ok x ->
  (exists n, 0 <= n <= 359 /\ HSLA.hue x = ofZ n)
  /\ (exists j, 0 <= j <= 100 /\ HSLA.lightness x = fin (inject_Z j / inject_Z 100))
  /\ HSLA.alpha x = defaultAlpha a.
Proof.
  unfold rgbToHsl. destruct (validateRgb r g b a) as [y|] eqn:Hv; [|discriminate].
  apply validateRgb_inv in Hv as (Hr & Hg & Hb & _ & ->).
  destruct (channel_round r Hr) as (nr & Hnr & ->).
  destruct (channel_round g Hg) as (ng & Hng & ->).
  destruct (channel_round b Hb) as (nb & Hnb & ->).
  cbn [bind RGBA.red RGBA.green RGBA.blue RGBA.alpha]. intros E.
  apply (f_equal (fun res => match res with Ok w => w | Throw _ => x end)) in E.
  cbv beta iota in E. subst x.
  cbn [HSLA.hue HSLA.lightness HSLA.alpha].
  split; [exact (rgb_hue nr ng nb)|].
  split; [exact (rgb_lightness nr ng nb Hnr Hng Hnb) | reflexivity].
Qed.

Lemma rgbToHsl_hue_lightness_witness :
  (exists n, 0 <= n <= 359 /\ ofZ 330 = ofZ n)
  /\ (exists j, 0 <= j <= 100 /\ Fin (1 # 2) = fin (inject_Z j / inject_Z 100))
  /\ ofZ 1 = defaultAlpha None.
Proof.
  apply (rgbToHsl_hue_lightness (ofZ 255) (ofZ 0) (ofZ 128) None
           (HSLA.mk (ofZ 330) (ofZ 1) (Fin (1 # 2)) (ofZ 1))).
  vm_compute. reflexivity.
Defined.

(** ** Grey *)

Section Achromatic.

Local Open Scope Q_scope.

Lemma rgbToHsl_grey (r g b : number) (a : option number) (x : HSLA.t) :
  rgbToHsl r g b a = Ok x ->
  Math.round r = Math.round g -> Math.round g = Math.round b ->
  HSLA.hue x = ofZ 0 /\ HSLA.saturation x = ofZ 0.
Proof.
  unfold rgbToHsl. destruct (validateRgb r g b a) as [y|] eqn:Hv; [|discriminate].
  apply validateRgb_inv in Hv as (Hr & _ & _ & _ & ->).
  intros E E1 E2. rewrite <- E2, <- E1 in E.
  destruct (channel_round r Hr) as (n & _ & En). rewrite En in E.
  cbn [bind RGBA.red RGBA.green RGBA.blue RGBA.alpha] in E.
  apply (f_equal (fun res => match res with Ok w => w | Throw _ => x end)) in E.
  cbv beta iota in E. subst x.
  cbn [HSLA.hue HSLA.saturation].
  unfold Math.max, Math.min.
  rewrite !max2_ofZ, !min2_ofZ, !Z.max_id, !Z.min_id, !sub_ofZ, Z.sub_diag.
  split; reflexivity.
Qed.

Lemma hslToRgb_grey (n : Z) (light alpha : number) (L : Q) :
  (0 <= n <= 360)%Z -> is_value light L -> 0 <= L <= 1 ->
  forall h s l a y,
    validateHsl h s l a = Ok (HSLA.mk (ofZ n) (ofZ 0) light alpha) ->
    hslToRgb h s l a = Ok y ->
    RGBA.red y = RGBA.green y /\ RGBA.green y = RGBA.blue y.
Proof.
  intros Hn HL HLb h s l a y Hv.
  unfold hslToRgb. rewrite Hv.
  cbn [bind HSLA.hue HSLA.saturation HSLA.lightness HSLA.alpha]. cbv zeta.
  destruct (huePrimeToRGB _ _ _) as [[a1 a2] a3] eqn:Et.
  apply huePrimeToRGB_components in Et as (I1 & I2 & I3).
  assert (H01 : 0 <= 0 <= 1) by lra.
  destruct (hsl_channel (ofZ n) (ofZ 0) light a1 n 0 L Hn eq_refl
              (is_value_ofZ 0) H01 HL HLb I1) as (k1 & V1 & _ & -> & B1 & ->).
  destruct (hsl_channel (ofZ n) (ofZ 0) light a2 n 0 L Hn eq_refl
              (is_value_ofZ 0) H01 HL HLb I2) as (k2 & V2 & _ & -> & B2 & ->).
  destruct (hsl_channel (ofZ n) (ofZ 0) light a3 n 0 L Hn eq_refl
              (is_value_ofZ 0) H01 HL HLb I3) as (k3 & V3 & _ & -> & B3 & ->).
  intros E.
  apply (f_equal (fun res => match res with Ok w => w | Throw _ => y end)) in E.
  cbv beta iota in E. subst y. cbn [RGBA.red RGBA.green RGBA.blue].
  assert (Z1 : V1 == 0) by lra. assert (Z2 : V2 == 0) by lra.
  assert (Z3 : V3 == 0) by lra.
  split; f_equal; apply Qfloor_comp; rewrite ?Z1, ?Z2, ?Z3; reflexivity.
Qed.

End Achromatic.

(** X13.  Grey is handled consistently in both directions.  [rgbToHsl] of
    three channels that round to the same integer returns hue 0 and
    saturation 0; [hslToRgb] with a saturation that rounds to 0 returns
    three equal channels, whatever the hue. *)
Theorem achromatic_colours :
  (forall r g b a x,
     rgbToHsl r g b a = Ok x ->
     Math.round r = Math.round g -> Math.round g = Math.round b ->
     HSLA.hue x = ofZ 0 /\ HSLA.saturation x = ofZ 0)
  /\ (forall h s l a y,
        hslToRgb h s l a = Ok y -> round s 2 = ofZ 0 ->
        RGBA.red y = RGBA.green y /\ RGBA.green y = RGBA.blue y).
Proof.
  split; [exact rgbToHsl_grey|].
  intros h s l a y Hy Hs.
  destruct (validateHsl h s l a) as [x|e] eqn:Hv.
  2:{ unfold hslToRgb in Hy. rewrite Hv in Hy. discriminate. }
  destruct (validated_hsl_values _ _ _ _ _ Hv)
    as (n & S & L & (Hn & En) & _ & (VL & HL)).
  pose proof (validateHsl_inv _ _ _ _ _ Hv) as Ex.
  rewrite Ex in En, VL. cbn [HSLA.hue HSLA.lightness] in En, VL.
  rewrite En, Hs in Ex. rewrite Ex in Hv.
  exact (hslToRgb_grey n _ _ L Hn VL HL _ _ _ _ _ Hv Hy).
Qed.

Lemma achromatic_colours_witness :
  (HSLA.hue (HSLA.mk (ofZ 0) (ofZ 0) (Fin (1 # 2)) (ofZ 1)) = ofZ 0
   /\ HSLA.saturation (HSLA.mk (ofZ 0) (ofZ 0) (Fin (1 # 2)) (ofZ 1)) = ofZ 0)
  /\ (RGBA.red (RGBA.mk (ofZ 128) (ofZ 128) (ofZ 128) (ofZ 1))
      = RGBA.green (RGBA.mk (ofZ 128) (ofZ 128) (ofZ 128) (ofZ 1))
      /\ RGBA.green (RGBA.mk (ofZ 128) (ofZ 128) (ofZ 128) (ofZ 1))
         = RGBA.blue (RGBA.mk (ofZ 128) (ofZ 128) (ofZ 128) (ofZ 1))).
Proof.
  split.
  - apply (proj1 achromatic_colours (Fin (1277 # 10)) (ofZ 128) (Fin (641 # 5)) None).
    + vm_compute. reflexivity.
    + reflexivity.
    + reflexivity.
  - apply (proj2 achromatic_colours (ofZ 200) (Fin (1 # 250)) (Fin (1 # 2)) None).
    + vm_compute. reflexivity.
    + reflexivity.
Defined.

(** ** Parsing what toRgb renders *)

Section RegexSteps.

Lemma run_seq (r1 r2 : Regex.t) (s : string) (caps : Regex.captures)
    (k : string -> Regex.captures -> option Regex.captures) :
  Regex.run (Regex.Seq r1 r2) s caps k
  = Regex.run r1 s caps (fun s' caps' => Regex.run r2 s' caps' k).
Proof. reflexivity. Qed.

Lemma run_eps (s : string) (caps : Regex.captures)
    (k : string -> Regex.captures -> option Regex.captures) :
  Regex.run Regex.Eps s caps k = k s caps.
Proof. reflexivity. Qed.

Lemma run_chr (c : ascii) (s : string) (caps : Regex.captures)
    (k : string -> Regex.captures -> option Regex.captures) :
  Regex.run (Regex.Chr c) (String c s) caps k = k s caps.
Proof. cbn [Regex.run]. now rewrite Ascii.eqb_refl. Qed.

Lemma run_opt_taken (r : Regex.t) (s : string) (caps res : Regex.captures)
    (k : string -> Regex.captures -> option Regex.captures) :
  Regex.run r s caps k = Some res -> Regex.run (Regex.Opt r) s caps k = Some res.
Proof. intros H. cbn [Regex.run]. now rewrite H. Qed.

Lemma run_opt_skipped (c : ascii) (s : string) (caps : Regex.captures)
    (k : string -> Regex.captures -> option Regex.captures) :
  starts_outside (Ascii.eqb c) s = true ->
  Regex.run (Regex.Opt (Regex.Chr c)) s caps k = k s caps.
Proof.
  intros H. cbn [Regex.run]. destruct s as [|c' s]; [reflexivity|].
  cbn [starts_outside] in H. apply negb_true_iff in H. now rewrite H.
Qed.

Lemma rep_greedy (p : ascii -> bool) (pre rest : string) (res : Regex.captures)
    (k : string -> option Regex.captures) :
  forall (lo : nat) (hi : option nat),
    all_chars p pre = true ->
    (lo <= String.length pre)%nat ->
    match hi with Some h => (String.length pre <= h)%nat | None => True end ->
    starts_outside p rest = true ->
    k rest = Some res ->
    Regex.rep p lo hi (pre ++ rest) k = Some res.
Proof.
  induction pre as [|c pre IH]; intros lo hi Hall Hlo Hhi Hout Hk.
  - cbn [String.length] in Hlo. assert (lo = 0%nat) by lia. subst lo.
    cbn [String.append]. destruct rest as [|c r]; cbn [Regex.rep]; [exact Hk|].
    cbn [starts_outside] in Hout. apply negb_true_iff in Hout.
    now rewrite Hout.
  - cbn [all_chars] in Hall. apply andb_true_iff in Hall as [Hc Hall].
    cbn [String.append Regex.rep String.length] in *. rewrite Hc.
    assert (Hnz : match hi with Some 0%nat => false | _ => true end = true).
    { destruct hi as [[|h]|]; try reflexivity. lia. }
    rewrite Hnz. cbn [andb].
    rewrite (IH (Nat.pred lo) (option_map Nat.pred hi)); try assumption.
    + reflexivity.
    + lia.
    + destruct hi as [h|]; cbn [option_map]; [lia | exact I].
Qed.

Lemma run_rep (p : ascii -> bool) (lo : nat) (hi : option nat)
    (pre rest : string) (caps res : Regex.captures)
    (k : string -> Regex.captures -> option Regex.captures) :
  all_chars p pre = true ->
  (lo <= String.length pre)%nat ->
  match hi with Some h => (String.length pre <= h)%nat | None => True end ->
  starts_outside p rest = true ->
  k rest caps = Some res ->
  Regex.run (Regex.Rep p lo hi) (pre ++ rest) caps k = Some res.
Proof.
  intros. cbn [Regex.run]. now apply rep_greedy.
Qed.

Lemma substring_prefix (pre rest : string) :
  substring 0 (String.length (pre ++ rest) - String.length rest) (pre ++ rest) = pre.
Proof.
  rewrite string_app_length, Nat.add_sub.
  induction pre as [|c pre IH]; cbn [String.append String.length substring].
  - destruct rest; reflexivity.
  - now rewrite IH.
Qed.

(** A capture group around a class repetition takes exactly the run. *)
Lemma run_grp_rep (i : nat) (p : ascii -> bool) (lo : nat) (hi : option nat)
    (pre rest : string) (caps res : Regex.captures)
    (k : string -> Regex.captures -> option Regex.captures) :
  all_chars p pre = true ->
  (lo <= String.length pre)%nat ->
  match hi with Some h => (String.length pre <= h)%nat | None => True end ->
  starts_outside p rest = true ->
  k rest ((i, pre) :: caps) = Some res ->
  Regex.run (Regex.Grp i (Regex.Rep p lo hi)) (pre ++ rest) caps k = Some res.
Proof.
  intros Hall Hlo Hhi Hout Hk. cbn [Regex.run].
  apply rep_greedy; try assumption.
  now rewrite substring_prefix.
Qed.

End RegexSteps.

Section RenderedNumbers.

Lemma byte_printed (n : Z) :
  0 <= n <= 255 ->
  exists d t,
    Num.show (ofZ n) = String d t
    /\ Str.is_digit d = true /\ all_chars Str.is_digit t = true
    /\ (String.length t <= 2)%nat
    /\ Num.ofString (String d t) = ofZ n.
Proof.
  intros Hn.
  assert (H : forall k, (k < 256)%nat -> byte_prints k = true).
  { apply forallb_below. vm_compute. reflexivity. }
  specialize (H (Z.to_nat n) ltac:(lia)).
  unfold byte_prints in H. rewrite Z2Nat.id in H by lia.
  destruct (Num.show (ofZ n)) as [|d t]; [discriminate|].
  apply andb_true_iff in H as [H H4]. apply andb_true_iff in H as [H H3].
  apply andb_true_iff in H as [H1 H2].
  exists d, t. repeat split; try assumption.
  - now apply Nat.leb_le.
  - now apply number_beq_eq.
Qed.

Lemma digit_not_space (d : ascii) : Str.is_digit d = true -> Str.is_space d = false.
Proof.
  destruct d as [[] [] [] [] [] [] [] []]; vm_compute; intros H;
    try discriminate H; reflexivity.
Qed.

Lemma alpha_printed (k : Z) :
  0 <= k <= 100 ->
  Num.ofString (Num.show (fin (inject_Z k / inject_Z 100)))
  = fin (inject_Z k / inject_Z 100).
Proof.
  intros Hk.
  assert (H : forall j, (j < 101)%nat -> alpha_prints j = true).
  { apply forallb_below. vm_compute. reflexivity. }
  specialize (H (Z.to_nat k) ltac:(lia)).
  unfold alpha_prints in H. rewrite Z2Nat.id in H by lia.
  now apply number_beq_eq.
Qed.

(** The end of the pattern matches [, A)] for each two-decimal alpha [A] and
    captures [A] as group 4. *)
Lemma alpha_tail_matches (j : nat) (caps : Regex.captures) :
  (j < 101)%nat ->
  Regex.run RGB_TAIL
    (", " ++ Num.show (fin (inject_Z (Z.of_nat j) / inject_Z 100)) ++ ")") caps accept
  = Some ((4%nat, Num.show (fin (inject_Z (Z.of_nat j) / inject_Z 100))) :: caps).
Proof.
  intros Hj.
  do 101 (destruct j as [|j]; [vm_compute; reflexivity|]).
  lia.
Qed.

End RenderedNumbers.

Section RenderedRgb.

Ltac regex_step :=
  repeat first [rewrite run_seq | rewrite run_chr | rewrite run_eps | progress cbv beta].

Lemma RGB_HEX_matches_rendered (nr ng nb k : Z) :
  0 <= nr <= 255 -> 0 <= ng <= 255 -> 0 <= nb <= 255 -> 0 <= k <= 100 ->
  Regex.run RGB_HEX
    ("rgba(" ++ Num.show (ofZ nr) ++ ", " ++ Num.show (ofZ ng) ++ ", "
       ++ Num.show (ofZ nb) ++ ", "
       ++ Num.show (fin (inject_Z k / inject_Z 100)) ++ ")") [] accept
  = Some [ (4%nat, Num.show (fin (inject_Z k / inject_Z 100)));
           (3%nat, Num.show (ofZ nb)); (2%nat, Num.show (ofZ ng));
           (1%nat, Num.show (ofZ nr)) ].
Proof.
  intros Hr Hg Hb Hk.
  destruct (byte_printed nr Hr) as (d1 & t1 & -> & D1 & T1 & L1 & _).
  destruct (byte_printed ng Hg) as (d2 & t2 & -> & D2 & T2 & L2 & _).
  destruct (byte_printed nb Hb) as (d3 & t3 & -> & D3 & T3 & L3 & _).
  pose proof (digit_not_space d1 D1) as S1.
  pose proof (digit_not_space d2 D2) as S2.
  pose proof (digit_not_space d3 D3) as S3.
  unfold RGB_HEX, Regex.ws, Regex.d13.
  cbn [Regex.seq Regex.lit String.append].
  regex_step.
  apply run_opt_taken. regex_step.
  apply (run_rep _ _ _ "");
    [reflexivity | apply Nat.le_refl | exact I
     | cbn [starts_outside]; now rewrite S1 |].
  regex_step.
  apply (run_grp_rep _ _ _ _ (String d1 t1));
    [cbn [all_chars]; now rewrite D1, T1 | cbn [String.length]; lia
     | cbn [String.length]; lia | reflexivity |].
  regex_step.
  apply (run_rep _ _ _ ""); [reflexivity | apply Nat.le_refl | exact I | reflexivity |].
  regex_step.
  apply (run_rep _ _ _ " ");
    [reflexivity | apply Nat.le_0_l | exact I
     | cbn [starts_outside]; now rewrite S2 |].
  regex_step.
  apply (run_grp_rep _ _ _ _ (String d2 t2));
    [cbn [all_chars]; now rewrite D2, T2 | cbn [String.length]; lia
     | cbn [String.length]; lia | reflexivity |].
  regex_step.
  apply (run_rep _ _ _ ""); [reflexivity | apply Nat.le_refl | exact I | reflexivity |].
  regex_step.
  apply (run_rep _ _ _ " ");
    [reflexivity | apply Nat.le_0_l | exact I
     | cbn [starts_outside]; now rewrite S3 |].
  regex_step.
  apply (run_grp_rep _ _ _ _ (String d3 t3));
    [cbn [all_chars]; now rewrite D3, T3 | cbn [String.length]; lia
     | cbn [String.length]; lia | reflexivity |].
  cbv beta.
  pose proof (alpha_tail_matches (Z.to_nat k)
                [(3%nat, String d3 t3); (2%nat, String d2 t2); (1%nat, String d1 t1)]
                ltac:(lia)) as Ht.
  rewrite Z2Nat.id in Ht by lia.
  exact Ht.
Qed.

End RenderedRgb.

Lemma byte_reads_back (n : Z) :
  0 <= n <= 255 -> Num.ofString (Num.show (ofZ n)) = ofZ n.
Proof.
  intros Hn. destruct (byte_printed n Hn) as (d & t & E & _ & _ & _ & R).
  now rewrite E.
Qed.

Lemma parseRgb_rendered (nr ng nb k : Z) :
  0 <= nr <= 255 -> 0 <= ng <= 255 -> 0 <= nb <= 255 -> 0 <= k <= 100 ->
  parseRgb
    ("rgba(" ++ Num.show (ofZ nr) ++ ", " ++ Num.show (ofZ ng) ++ ", "
       ++ Num.show (ofZ nb) ++ ", "
       ++ Num.show (fin (inject_Z k / inject_Z 100)) ++ ")")
  = Ok (RGBA.mk (ofZ nr) (ofZ ng) (ofZ nb) (fin (inject_Z k / inject_Z 100))).
Proof.
  intros Hr Hg Hb Hk.
  pose proof (RGB_HEX_matches_rendered nr ng nb k Hr Hg Hb Hk) as Hm.
  unfold accept in Hm.
  unfold parseRgb, Regex.match_. rewrite Hm.
  cbn [map List.seq Regex.group Nat.eqb to_numbers tl nth_number nth as_number].
  rewrite (byte_reads_back nr Hr), (byte_reads_back ng Hg), (byte_reads_back nb Hb),
    (alpha_printed k Hk).
  cbn [isNaN ofZ fin negb].
  fold (ofZ nr) (ofZ ng) (ofZ nb) (fin (inject_Z k / inject_Z 100)).
  destruct (channel_ofZ nr Hr) as [Rr Mr], (channel_ofZ ng Hg) as [Rg Mg],
    (channel_ofZ nb Hb) as [Rb Mb].
  destruct (alpha_back_checked k Hk) as (Ra & Da & _).
  cbn [as_number].
  rewrite (validateRgb_ok _ _ _ _ Rr Rg Rb Ra).
  now rewrite Mr, Mg, Mb, Da.
Qed.

Lemma hexToRgb_form (H : string) (c : RGBA.t) :
  hexToRgb H = Ok c ->
  exists nr ng nb k,
    (0 <= nr <= 255 /\ 0 <= ng <= 255 /\ 0 <= nb <= 255 /\ 0 <= k <= 100)
    /\ c = RGBA.mk (ofZ nr) (ofZ ng) (ofZ nb) (fin (inject_Z k / inject_Z 100)).
Proof.
  intros Hc. destruct (parseHex H) as [N|e] eqn:Hp.
  2:{ unfold hexToRgb in Hc. rewrite Hp in Hc. discriminate. }
  destruct (parseHex_shape _ _ Hp)
    as (c1 & c2 & c3 & c4 & c5 & c6 & c7 & c8 & -> & [H1 H2] & [H3 H4] & [H5 H6]
        & [H7 H8] & _).
  rewrite (hexToRgb_digits _ _ _ _ _ _ _ _ _ Hp) in Hc. injection Hc as <-.
  destruct (digits_channel c1 c2 H1 H2) as (nr & Hnr & ->).
  destruct (digits_channel c3 c4 H3 H4) as (ng & Hng & ->).
  destruct (digits_channel c5 c6 H5 H6) as (nb & Hnb & ->).
  destruct (digits_channel c7 c8 H7 H8) as (m & Hm & ->).
  destruct (byte_alpha m Hm) as (k & Hk & ->).
  exists nr, ng, nb, k. auto.
Qed.

(** The channels and alpha of an observable colour with a numeric alpha. *)
Lemma observable_rgba_form (o : origin) (c : ColorAttributes) :
  observable o c -> isNaN (alpha c) = false ->
  exists nr ng nb k,
    (0 <= nr <= 255 /\ 0 <= ng <= 255 /\ 0 <= nb <= 255 /\ 0 <= k <= 100)
    /\ red c = ofZ nr /\ green c = ofZ ng /\ blue c = ofZ nb
    /\ alpha c = fin (inject_Z k / inject_Z 100).
Proof.
  intros Hobs Hn. pose proof (observable_hex_decodes o c Hobs Hn) as Hd.
  destruct (hexToRgb_form _ _ Hd) as (nr & ng & nb & k & Hr & E).
  unfold rgba_of in E. injection E as E1 E2 E3 E4.
  exists nr, ng, nb, k. auto.
Qed.

Lemma getAttributesFromRgb_same (c : ColorAttributes) :
  consistent FromRgb c -> Color.getAttributesFromRgb (rgba_of c) = Ok c.
Proof.
  intros [Hhex (x & Hx & Eh & Es & El)]. unfold hex_of_rgb in Hhex.
  destruct (rgbToHex_inv _ _ _ _ _ Hhex) as [y Hy].
  destruct (rgbToHsl_ok _ _ _ _ _ Hy) as (h & s & l & Hsome & Hnone).
  rewrite Hx in Hnone. injection Hnone as ->.
  cbn [HSLA.hue HSLA.saturation HSLA.lightness] in Eh, Es, El.
  unfold Color.getAttributesFromRgb, rgba_of. rewrite Hsome, Hhex.
  cbn [bind HSLA.hue HSLA.saturation HSLA.lightness].
  destruct c as [w cr cg cb ch cs cl ca].
  cbn [hexCode red green blue hue saturation lightness alpha] in *.
  now subst.
Qed.

(** X14.  Rendering with [toRgb] and parsing with [parseRgb] is a round
    trip: for every observable colour whose alpha is a number,
    [parseRgb(color.toRgb())] returns exactly its red, green, blue and
    alpha.  When the colour was last derived from rgb input, the
    constructor applied to [color.toRgb()] rebuilds the very same colour,
    hex code, hue, saturation and lightness included. *)
Theorem toRgb_round_trip (o : origin) (c : ColorAttributes) :
  observable o c -> isNaN (alpha c) = false ->
  parseRgb (Color.toRgb c) = Ok (RGBA.mk (red c) (green c) (blue c) (alpha c))
  /\ (o = FromRgb -> Color.new (Color.toRgb c) = Ok c).
Proof.
  intros Hobs Hn.
  destruct (observable_rgba_form o c Hobs Hn)
    as (nr & ng & nb & k & (Hr & Hg & Hb & Hk) & Er & Eg & Eb & Ea).
  assert (Hp : parseRgb (Color.toRgb c)
               = Ok (RGBA.mk (red c) (green c) (blue c) (alpha c))).
  { unfold Color.toRgb. rewrite Er, Eg, Eb, Ea.
    now apply parseRgb_rendered. }
  split; [exact Hp|].
  intros ->. rewrite new_attributes, getAttributesFromString_route.
  change (starts_with_hash (Color.toRgb c)) with false.
  change (Str.includes (Color.toRgb c) "rgb") with true.
  cbv iota. rewrite Hp. cbn [bind].
  apply getAttributesFromRgb_same.
  exact (observable_representations FromRgb c Hobs).
Qed.

Lemma toRgb_round_trip_witness :
  parseRgb "rgba(255, 128, 0, 0.5)"
  = Ok (RGBA.mk (ofZ 255) (ofZ 128) (ofZ 0) (Fin (1 # 2)))
  /\ Color.new "rgba(255, 128, 0, 0.5)"
     = Ok (mkColor "#FF800080" (ofZ 255) (ofZ 128) (ofZ 0)
             (ofZ 30) (ofZ 1) (Fin (1 # 2)) (Fin (1 # 2))).
Proof.
  assert (Hobs : observable FromRgb
            (mkColor "#FF800080" (ofZ 255) (ofZ 128) (ofZ 0)
               (ofZ 30) (ofZ 1) (Fin (1 # 2)) (Fin (1 # 2)))).
  { apply (obs_rgb (ofZ 255) (ofZ 128) (ofZ 0) (Some (Fin (1 # 2)))).
    vm_compute. reflexivity. }
  destruct (toRgb_round_trip _ _ Hobs eq_refl) as [Hp Hnew].
  split; [exact Hp | exact (Hnew eq_refl)].
Defined.

(** ** The constructor's errors *)

Lemma getAttributesFromHsl_throws (h s l : number) (a : option number)
    (x : HSLA.t) (e : ColorError) :
  validateHsl h s l a = Ok x ->
  Color.getAttributesFromHsl x = Throw e -> exists w, e = InvalidHSLCode w.
Proof.
  intros Hv He.
  destruct (validated_hsl_values _ _ _ _ _ Hv) as (n & _ & _ & (Hn & En) & _).
  destruct (Z.eq_dec n 360) as [->|Hne].
  - destruct (getAttributesFromHsl_hue_360 x En) as [w Hw].
    rewrite Hw in He. injection He as <-. eauto.
  - assert (Ha : hue_accepted (HSLA.hue x)).
    { rewrite En. apply hue_accepted_ofZ. lia. }
    destruct (getAttributesFromHsl_returns _ _ _ _ _ Hv Ha) as (w & ? & ? & ? & _ & E).
    rewrite E in He. discriminate.
Qed.

(** X15.  What [new Color(s)] can throw is fixed by the notation [s] is
    routed to.  A string starting with '#' fails only when [parseHex]
    rejects it, with [InvalidHexCode(s)]; otherwise a string containing
    "rgb" fails only when [parseRgb] rejects it, with an [InvalidRGBCode];
    otherwise a string containing "hsl" fails only with an
    [InvalidHSLCode]; any other string fails with [InvalidColor(s)].  In
    particular a text [parseHex] or [parseRgb] accepts always builds a
    colour, and [InvalidColor] is never thrown for a string on one of the
    three routes. *)
Theorem new_error_by_route (s : string) (e : ColorError) :
  Color.new s = Throw e ->
  if starts_with_hash s then parseHex s = Throw e /\ e = InvalidHexCode s
  else if Str.includes s "rgb" then
    parseRgb s = Throw e /\ exists w, e = InvalidRGBCode w
  else if Str.includes s "hsl" then exists w, e = InvalidHSLCode w
  else e = InvalidColor s.
Proof.
  rewrite new_attributes, getAttributesFromString_route.
  destruct (starts_with_hash s).
  - destruct (parseHex s) as [N|e'] eqn:Hp.
    + destruct (getAttributesFromHex_returns s N Hp) as (x & h & sat & l & _ & E).
      rewrite E. discriminate.
    + unfold Color.getAttributesFromHex. rewrite Hp. cbn [bind].
      intros [= <-]. split; [reflexivity | exact (parseHex_throws _ _ Hp)].
  - destruct (Str.includes s "rgb").
    + destruct (parseRgb s) as [x|e'] eqn:Hp; cbn [bind].
      * destruct (parseRgb_inv _ _ Hp) as (r & g & b & a & Hv).
        destruct (getAttributesFromRgb_returns _ _ _ _ _ Hv) as (w & h & sat & l & E).
        rewrite E. discriminate.
      * intros [= <-]. split; [reflexivity | exact (parseRgb_throws _ _ Hp)].
    + destruct (Str.includes s "hsl").
      * destruct (parseHsl s) as [x|e'] eqn:Hp; cbn [bind].
        -- destruct (parseHsl_inv _ _ Hp) as (h & sat & l & a & Hv).
           exact (getAttributesFromHsl_throws _ _ _ _ _ _ Hv).
        -- intros [= <-]. exact (parseHsl_throws _ _ Hp).
      * now intros [= <-].
Qed.

Lemma new_error_by_route_witness :
  (parseHex "#FFFF" = Throw (InvalidHexCode "#FFFF")
   /\ InvalidHexCode "#FFFF" = InvalidHexCode "#FFFF")
  /\ (parseRgb "rgb(256, 0, 0)" = Throw (InvalidRGBCode "rgb(256, 0, 0)")
      /\ exists w, InvalidRGBCode "rgb(256, 0, 0)" = InvalidRGBCode w)
  /\ (exists w, InvalidHSLCode "hsl(360, 50%, 50%)" = InvalidHSLCode w)
  /\ InvalidColor "blue" = InvalidColor "blue".
Proof.
  split; [|split; [|split]].
  - exact (new_error_by_route "#FFFF" (InvalidHexCode "#FFFF") eq_refl).
  - exact (new_error_by_route "rgb(256, 0, 0)"
             (InvalidRGBCode "rgb(256, 0, 0)") eq_refl).
  - exact (new_error_by_route "hsl(360, 50%, 50%)"
             (InvalidHSLCode "hsl(360, 50%, 50%)") eq_refl).
  - exact (new_error_by_route "blue" (InvalidColor "blue") eq_refl).
Defined.

(** ** Parsing what [toHsl] renders *)

(** X16.  No string rendered by [toHsl] is read back by [parseHsl]:
    whatever the state of the colour, [parseHsl(color.toHsl())] throws
    [InvalidHSLCode] for that very string, because the rendering starts
    with "hl" where the pattern requires "hsl". *)
Theorem toHsl_not_parsed (c : ColorAttributes) :
  parseHsl (Color.toHsl c) = Throw (InvalidHSLCode (Color.toHsl c)).
Proof.
  unfold parseHsl.
  replace (Regex.match_ HSL_REGEX 4 (Color.toHsl c)) with (@None (list (option string))).
  - reflexivity.
  - unfold Color.toHsl. reflexivity.
Qed.

(** ** Rebuilding a colour from its hex code *)

Lemma rgbToHex_normal (nr ng nb k : Z) (w : string) :
  0 <= nr <= 255 -> 0 <= ng <= 255 -> 0 <= nb <= 255 -> 0 <= k <= 100 ->
  rgbToHex (ofZ nr) (ofZ ng) (ofZ nb) (Some (fin (inject_Z k / inject_Z 100))) = Ok w ->
  parseHex w = Ok w.
Proof.
  intros Hr Hg Hb Hk Hw.
  destruct (channel_ofZ nr Hr) as [Rr Mr], (channel_ofZ ng Hg) as [Rg Mg],
    (channel_ofZ nb Hb) as [Rb Mb].
  destruct (alpha_back_checked k Hk) as (Ra & Da & m & Hm & Em & Eback).
  pose proof (validateRgb_ok _ _ _ _ Rr Rg Rb Ra) as Hv.
  rewrite Mr, Mg, Mb, Da in Hv.
  rewrite (rgbToHex_ok _ _ _ _ _ Hv) in Hw.
  cbn [RGBA.red RGBA.green RGBA.blue RGBA.alpha] in Hw. rewrite Em in Hw.
  destruct (byte_checked nr Hr) as (c1 & c2 & E1 & U1 & U2 & D1).
  destruct (byte_checked ng Hg) as (c3 & c4 & E2 & U3 & U4 & D2).
  destruct (byte_checked nb Hb) as (c5 & c6 & E3 & U5 & U6 & D3).
  destruct (byte_checked m Hm) as (c7 & c8 & E4 & U7 & U8 & D4).
  rewrite E1, E2, E3, E4 in Hw. injection Hw as <-.
  now apply parseHex_normal.
Qed.

(** The stored hex code of an observable colour with a numeric alpha is in
    the normal form of [parseHex]. *)
Lemma observable_hex_normal (o : origin) (c : ColorAttributes) :
  observable o c -> isNaN (alpha c) = false -> parseHex (hexCode c) = Ok (hexCode c).
Proof.
  intros Hobs Hn.
  assert (Hderived : hex_of_rgb c -> parseHex (hexCode c) = Ok (hexCode c)).
  { intros Hhex.
    destruct (observable_rgba_form o c Hobs Hn)
      as (nr & ng & nb & k & (Hr & Hg & Hb & Hk) & Er & Eg & Eb & Ea).
    unfold hex_of_rgb in Hhex. rewrite Er, Eg, Eb, Ea in Hhex.
    exact (rgbToHex_normal _ _ _ _ _ Hr Hg Hb Hk Hhex). }
  pose proof (observable_representations o c Hobs) as Hcons.
  destruct o; cbn [consistent] in Hcons;
    [| exact (Hderived (proj1 Hcons)) | exact (Hderived (proj1 Hcons))].
  clear Hderived Hcons Hn.
  remember FromHex as o eqn:Eo.
  induction Hobs as [s c Hh Hnew | s c Hh Hr Hnew | s c Hh Hr Hnew | r g b a c Hc
                  | h s l a c Hc | o this this' f v _ _ Hs
                  | o this this' f v e _ IH Hs]; try discriminate.
  - rewrite new_attributes, getAttributesFromString_route, Hh in Hnew.
    apply getAttributesFromHex_inv in Hnew as (x & h & Hp & _).
    exact (parseHex_output_fixed _ _ Hp).
  - destruct f; discriminate.
  - apply set_field_throw_unchanged in Hs. subst this'. exact (IH Eo).
Qed.

(** X17.  A colour can be rebuilt from its hex code.  For every observable
    colour whose alpha is a number, [new Color(color.toHex())] returns a
    colour with the same hex code, red, green, blue and alpha; unless the
    colour was last derived from hsl input, the hue, saturation and
    lightness are the same too, so the rebuilt colour is equal to the
    original field by field. *)
Theorem toHex_round_trip (o : origin) (c : ColorAttributes) :
  observable o c -> isNaN (alpha c) = false ->
  exists c',
    Color.new (Color.toHex c) = Ok c'
    /\ hexCode c' = hexCode c /\ red c' = red c /\ green c' = green c
    /\ blue c' = blue c /\ alpha c' = alpha c
    /\ (o <> FromHsl -> c' = c).
Proof.
  intros Hobs Hn. unfold Color.toHex.
  pose proof (observable_hex_normal o c Hobs Hn) as Hp.
  pose proof (observable_hex_decodes o c Hobs Hn) as Hd. unfold rgb_of_hex in Hd.
  destruct (getAttributesFromHex_returns _ _ Hp) as (x & h & s & l & Hx & Hc).
  rewrite Hd in Hx. injection Hx as <-.
  cbn [rgba_of RGBA.red RGBA.green RGBA.blue RGBA.alpha] in Hc.
  assert (Hnew : Color.new (hexCode c)
                 = Ok (mkColor (hexCode c) (red c) (green c) (blue c) h s l (alpha c))).
  { rewrite new_attributes, getAttributesFromString_route.
    rewrite accepted_starts_with_hash; [exact Hc|].
    destruct (accepted_hex_form (hexCode c)) eqn:E; [reflexivity|].
    rewrite (parseHex_rejects _ E) in Hp. discriminate. }
  eexists. split; [exact Hnew|]. cbn [hexCode red green blue alpha].
  repeat (split; [reflexivity|]).
  intros Ho.
  assert (Hhsl : hsl_of_rgb c).
  { pose proof (observable_representations o c Hobs) as Hcons.
    destruct o; cbn [consistent] in Hcons; [apply Hcons | apply Hcons | congruence]. }
  destruct Hhsl as (y & Hy & Eh & Es & El).
  apply getAttributesFromHex_inv in Hc as (x' & h' & _ & Hx' & Hh' & Ec).
  cbn [hexCode] in Hx', Ec. rewrite Hd in Hx'. injection Hx' as <-.
  cbn [rgba_of RGBA.red RGBA.green RGBA.blue RGBA.alpha] in Hh', Ec.
  rewrite Hy in Hh'. injection Hh' as <-.
  rewrite Ec. destruct c as [w cr cg cb ch cs cl ca].
  cbn [hexCode red green blue hue saturation lightness alpha] in *.
  now subst.
Qed.

Lemma toHex_round_trip_witness :
  exists c',
    Color.new "#FF800080" = Ok c'
    /\ hexCode c' = "#FF800080" /\ red c' = ofZ 255 /\ green c' = ofZ 128
    /\ blue c' = ofZ 0 /\ alpha c' = Fin (1 # 2)
    /\ (FromRgb <> FromHsl ->
        c' = mkColor "#FF800080" (ofZ 255) (ofZ 128) (ofZ 0)
               (ofZ 30) (ofZ 1) (Fin (1 # 2)) (Fin (1 # 2))).
Proof.
  assert (Hobs : observable FromRgb
            (mkColor "#FF800080" (ofZ 255) (ofZ 128) (ofZ 0)
               (ofZ 30) (ofZ 1) (Fin (1 # 2)) (Fin (1 # 2)))).
  { apply (obs_rgb (ofZ 255) (ofZ 128) (ofZ 0) (Some (Fin (1 # 2)))).
    vm_compute. reflexivity. }
  exact (toHex_round_trip _ _ Hobs eq_refl).
Defined.
